(** * mindflow-canvas: link-graph exploration, layered layout and canvas expansion

    A shallow embedding of [src/main.ts] (the Obsidian plugin
    [CanvasAutoGenPlugin]) and the properties of its graph-construction and
    layout engine.

    Modelling conventions.
    - JavaScript numbers that carry coordinates are rationals ([Q]).  The
      program only adds, subtracts, halves and multiplies by small integer
      constants, which is exact on doubles for the magnitudes a canvas uses.
    - A [Map<string, V>] is an insertion-ordered association list ([JsMap]),
      a [Set<string>] that is iterated is an insertion-ordered list
      ([JsSet]); sets that are only queried ([visited], [existingPaths]) are
      [gset string].
    - The recursion of [exploreAllConnections] is driven by a fuel argument;
      a missing map entry behind a non-null assertion is a [TypeError].
    - [Date.now()], [Math.random()] and [new Date().toISOString()] are
      explicit arguments ([entropy], [now]).
    - [JSON.stringify]/[JSON.parse] are not embedded: a canvas file holds
      either a parsed [CanvasData] or text that does not parse.  JSON that
      parses without having the three fields of a canvas is outside the
      model, and so is the [TypeError] the program throws on it.
    - The expansion commands return the content of the canvas file and the
      notice they show; the [k]-th [expandCanvas] call of a command takes its
      entropy and its timestamp from [clock k]; a loop of a command ends
      normally ([Done]) or in the [catch] block ([Caught]).
    - The two regular-expression replacements that normalise a folder path
      are written out as functions on strings. *)

From Stdlib Require Import QArith Qabs Qminmax Lqa.
From stdpp Require Import gmap strings list sorting pretty.

Open Scope list_scope.

(** ** Outcomes of a run *)

Inductive Error := OutOfFuel | TypeError | NotFinite.

Inductive Res (A : Type) : Type :=
| Ok (a : A)
| Err (e : Error).
Arguments Ok {A} a.
Arguments Err {A} e.

#[global] Instance Res_ret : MRet Res := fun _ a => Ok a.
#[global] Instance Res_bind : MBind Res := fun _ _ f m =>
  match m with
  | Ok a => f a
  | Err e => Err e
  end.

(** [for (const a of l) { s = body(a, s) }] where the body may fail. *)
Fixpoint for_of {A S : Type} (l : list A) (body : A -> S -> Res S) (s : S) : Res S :=
  match l with
  | [] => Ok s
  | a :: rest =>
      match body a s with
      | Ok s' => for_of rest body s'
      | Err e => Err e
      end
  end.

(** ** JavaScript containers *)

(** A plain object used as a dictionary: [obj[key]]. *)
Fixpoint obj_get {V : Type} (key : string) (obj : list (string * V)) : option V :=
  match obj with
  | [] => None
  | (k, v) :: rest => if String.eqb k key then Some v else obj_get key rest
  end.

Module JsSet.
(** [Set<string>], in insertion order. *)
Definition t := list string.

Definition has (x : string) (s : t) : bool := bool_decide (x ∈ (s : list string)).

Definition add (x : string) (s : t) : t := if has x s then s else s ++ [x].
End JsSet.

Module JsMap.
(** [Map<string, V>], in insertion order; keys are unique. *)
Definition t (V : Type) := list (string * V).

Definition get {V : Type} (key : string) (m : t V) : option V := obj_get key m.

Definition has {V : Type} (key : string) (m : t V) : bool :=
  match get key m with
  | Some _ => true
  | None => false
  end.

(** [m.set(key, v)]: an existing key keeps its place, a new one goes last. *)
Fixpoint set {V : Type} (key : string) (v : V) (m : t V) : t V :=
  match m with
  | [] => [(key, v)]
  | (k, w) :: rest =>
      if String.eqb k key then (k, v) :: rest else (k, w) :: set key v rest
  end.
End JsMap.

(** [l.sort(cmp)], stable; [le a b] stands for [cmp(a, b) <= 0]. *)
Fixpoint sort_insert {A : Type} (le : A -> A -> bool) (a : A) (l : list A) : list A :=
  match l with
  | [] => [a]
  | b :: rest => if le a b then a :: b :: rest else b :: sort_insert le a rest
  end.

Fixpoint js_sort {A : Type} (le : A -> A -> bool) (l : list A) : list A :=
  match l with
  | [] => []
  | a :: rest => sort_insert le a (js_sort le rest)
  end.

(** ** The host application: vault and link index *)

Record TFile := { path : string; basename : string; extension : string }.

Inductive TAbstractFile :=
| AFile (f : TFile)
| AFolder (folderPath : string).

(** [app.metadataCache.resolvedLinks] maps a source path to the paths it links
    to, with the number of links; [app.vault.getAbstractFileByPath] resolves a
    path. *)
Record App := {
  resolvedLinks : list (string * list (string * nat));
  getAbstractFileByPath : string -> option TAbstractFile
}.

(** The [md] files among the resolved paths, as the two getters test them. *)
Definition mdFile (app : App) (p : string) : list TFile :=
  match getAbstractFileByPath app p with
  | Some (AFile f) => if String.eqb (extension f) "md" then [f] else []
  | _ => []
  end.

Definition getBacklinks (app : App) (file : TFile) : list TFile :=
  flat_map (fun '(sourcePath, links) =>
    match obj_get (path file) links with
    | Some (S _) => mdFile app sourcePath
    | _ => []
    end) (resolvedLinks app).

Definition getForwardLinks (app : App) (file : TFile) : list TFile :=
  match obj_get (path file) (resolvedLinks app) with
  | Some links => flat_map (fun '(targetPath, _) => mdFile app targetPath) links
  | None => []
  end.

(** ** GraphExplorer: [getAllNodesAndConnections] *)

Record GraphNode := { file : TFile; level : nat; isBacklink : bool }.

Record ExploreState := {
  visited : gset string;
  nodes : list GraphNode;
  connections : JsMap.t JsSet.t
}.

(** [if (!connections.has(k)) connections.set(k, new Set())] *)
Definition ensureKey (k : string) (st : ExploreState) : ExploreState :=
  if JsMap.has k (connections st) then st
  else {| visited := visited st; nodes := nodes st;
          connections := JsMap.set k [] (connections st) |}.

(** [connections.set(k, new Set())] *)
Definition resetKey (k : string) (st : ExploreState) : ExploreState :=
  {| visited := visited st; nodes := nodes st;
     connections := JsMap.set k [] (connections st) |}.

(** [connections.get(from)!.add(to)]: the set stored under [from] is updated
    in place; the call throws when [from] has no entry. *)
Definition addConnection (from to : string) (st : ExploreState) : Res ExploreState :=
  match JsMap.get from (connections st) with
  | Some targets =>
      Ok {| visited := visited st; nodes := nodes st;
            connections := JsMap.set from (JsSet.add to targets) (connections st) |}
  | None => Err TypeError
  end.

(** [visited.add(f.path); nodes.push({file: f, level, isBacklink})] *)
Definition visit (f : TFile) (lvl : nat) (back : bool) (st : ExploreState) : ExploreState :=
  {| visited := {[ path f ]} ∪ visited st;
     nodes := nodes st ++ [{| file := f; level := lvl; isBacklink := back |}];
     connections := connections st |}.

Section Explore.
Variable app : App.

Fixpoint exploreAllConnections (fuel : nat) (file : TFile)
    (maxDepth currentDepth : nat) (st : ExploreState) : Res ExploreState :=
  match fuel with
  | O => Err OutOfFuel
  | S fuel' =>
      if bool_decide (maxDepth < currentDepth) then Ok st
      else
        let forwardLinks := getForwardLinks app file in
        let backlinks := getBacklinks app file in
        let st := ensureKey (path file) st in
        st ← for_of forwardLinks (fun linkedFile st =>
                st ← addConnection (path file) (path linkedFile) st;
                if bool_decide (path linkedFile ∈ visited st) then Ok st
                else exploreAllConnections fuel' linkedFile maxDepth (S currentDepth)
                       (resetKey (path linkedFile)
                          (visit linkedFile currentDepth false st))) st;
        for_of backlinks (fun linkedFile st =>
          st ← addConnection (path linkedFile) (path file)
                 (ensureKey (path linkedFile) st);
          if bool_decide (path linkedFile ∈ visited st) then Ok st
          else exploreAllConnections fuel' linkedFile maxDepth (S currentDepth)
                 (visit linkedFile currentDepth true st)) st
  end.

Definition getAllNodesAndConnections (fuel : nat) (centerFile : TFile) (depth : nat)
    : Res ExploreState :=
  exploreAllConnections fuel centerFile depth 1
    {| visited := {[ path centerFile ]};
       nodes := [{| file := centerFile; level := 0; isBacklink := false |}];
       connections := JsMap.set (path centerFile) [] [] |}.
End Explore.

(** ** LayerOrganizer: [organizeNodesIntoLayers] *)

Definition Layer := list GraphNode.

(** [Math.max(...levels, 0)] *)
Definition maxLevel (levels : list nat) : nat := foldr Nat.max 0 levels.

Section Organize.
(** [a.localeCompare(b)] of the host's collation. *)
Variable localeCompare : string -> string -> Z.

Definition byBasename (a b : GraphNode) : bool :=
  bool_decide (localeCompare (basename (file a)) (basename (file b)) ≤ 0)%Z.

(** The body of [allNodes.forEach]: one node into its layer. *)
Definition addToLayer (centerFile : TFile) (ls : list Layer * list Layer)
    (node : GraphNode) : list Layer * list Layer :=
  let '(backlinkLayers, forwardLinkLayers) := ls in
  if String.eqb (path (file node)) (path centerFile) then ls
  else if isBacklink node then
    if bool_decide (level node < length backlinkLayers) then
      (alter (fun l => l ++ [node]) (level node) backlinkLayers, forwardLinkLayers)
    else ls
  else
    if bool_decide (level node < length forwardLinkLayers) then
      (backlinkLayers, alter (fun l => l ++ [node]) (level node) forwardLinkLayers)
    else ls.

Definition organizeNodesIntoLayers (centerFile : TFile) (allNodes : list GraphNode)
    : list Layer :=
  let maxBacklinkLevel :=
    maxLevel (level <$> filter (fun n => isBacklink n = true) allNodes) in
  let maxForwardLinkLevel :=
    maxLevel (level <$> filter (fun n => isBacklink n = false) allNodes) in
  let backlinkLayers : list Layer := replicate (S maxBacklinkLevel) [] in
  let forwardLinkLayers : list Layer := replicate (S maxForwardLinkLevel) [] in
  let center := {| file := centerFile; level := 0; isBacklink := false |} in
  let backlinkLayers := alter (fun l => l ++ [center]) 0 backlinkLayers in
  let forwardLinkLayers := alter (fun l => l ++ [center]) 0 forwardLinkLayers in
  let '(backlinkLayers, forwardLinkLayers) :=
    foldl (addToLayer centerFile) (backlinkLayers, forwardLinkLayers) allNodes in
  let backlinkLayers := js_sort byBasename <$> backlinkLayers in
  let forwardLinkLayers := js_sort byBasename <$> forwardLinkLayers in
  filter (fun l => 0 < length l) (reverse backlinkLayers)
    ++ filter (fun l => 0 < length l) forwardLinkLayers.
End Organize.

(** ** The persisted canvas *)

Record CanvasNode := {
  node_id : string;
  node_type : string;
  node_file : string;
  node_x : Q;
  node_y : Q;
  node_width : Q;
  node_height : Q
}.

Record CanvasEdge := {
  edge_id : string;
  fromNode : string;
  fromSide : string;
  toNode : string;
  toSide : string
}.

Record CanvasMeta := { created : string; modified : string }.

Record CanvasData := {
  canvas_nodes : list CanvasNode;
  canvas_edges : list CanvasEdge;
  canvas_meta : CanvasMeta
}.

(** The layout constants, the same in [createCanvasContent] and [expandCanvas]. *)
Definition nodeWidth : Q := 300.
Definition nodeHeight : Q := 200.
Definition horizontalSpacing : Q := 450.
Definition verticalSpacing : Q := 280.

(** The settings the engine reads. *)
Record CanvasAutoGenSettings := {
  canvasWidth : Q;
  canvasHeight : Q;
  linkDepth : nat
}.

(** [if (s)] on a looked-up string: defined and not empty. *)
Definition truthy (o : option string) : option string :=
  match o with
  | Some s => if String.eqb s EmptyString then None else Some s
  | None => None
  end.

(** ** LayoutPlacer: [createCanvasContent] *)

(** [layers.findIndex(p)], [-1] when no layer satisfies [p]. *)
Fixpoint findIndex {A : Type} (p : A -> bool) (l : list A) : Z :=
  match l with
  | [] => (-1)%Z
  | a :: rest =>
      if p a then 0%Z
      else let i := findIndex p rest in
           if (i <? 0)%Z then (-1)%Z else (i + 1)%Z
  end.

Record PlaceState := {
  placed : list CanvasNode;
  fileToNodeId : JsMap.t string;
  nodeIndex : nat
}.

Section Place.
Variable settings : CanvasAutoGenSettings.
Variable activeFile : TFile.

(** The inner loop over one layer, from [nodeInLayerIndex] on. *)
Fixpoint placeLayer (layerX layerStartY : Q) (nodeInLayerIndex : nat)
    (layer : Layer) (acc : PlaceState) : PlaceState :=
  match layer with
  | [] => acc
  | nodeInfo :: rest =>
      let acc :=
        if negb (String.eqb (path (file nodeInfo)) (path activeFile)) then
          let nodeId := "node-" +:+ pretty (nodeIndex acc) in
          let nodeY :=
            (layerStartY + inject_Z (Z.of_nat nodeInLayerIndex) * verticalSpacing)%Q in
          {| placed := placed acc ++
               [{| node_id := nodeId; node_type := "file";
                   node_file := path (file nodeInfo);
                   node_x := layerX; node_y := nodeY;
                   node_width := nodeWidth; node_height := nodeHeight |}];
             fileToNodeId := JsMap.set (path (file nodeInfo)) nodeId (fileToNodeId acc);
             nodeIndex := S (nodeIndex acc) |}
        else acc in
      placeLayer layerX layerStartY (S nodeInLayerIndex) rest acc
  end.

Definition layerXOf (centerLayerIndex : Z) (layerIndex : nat) : Q :=
  if (Z.of_nat layerIndex =? centerLayerIndex)%Z then (canvasWidth settings / 2)%Q
  else
    let relativeOffset := (Z.of_nat layerIndex - centerLayerIndex)%Z in
    let offset := (inject_Z relativeOffset * horizontalSpacing)%Q in
    (canvasWidth settings / 2 + offset)%Q.

(** The outer loop over the layers, from [layerIndex] on. *)
Fixpoint placeLayers (centerLayerIndex : Z) (layerIndex : nat)
    (layers : list Layer) (acc : PlaceState) : PlaceState :=
  match layers with
  | [] => acc
  | layer :: rest =>
      let layerX := layerXOf centerLayerIndex layerIndex in
      let totalLayerHeight :=
        (inject_Z (Z.of_nat (length layer) - 1) * verticalSpacing)%Q in
      let layerStartY := (canvasHeight settings / 2 - totalLayerHeight / 2)%Q in
      placeLayers centerLayerIndex (S layerIndex) rest
        (placeLayer layerX layerStartY 0 layer acc)
  end.

(** The edge loops: one edge per recorded pair whose two ends have a node
    id, the two ids being different; [edgeIndex] is the number of edges
    pushed so far. *)
Definition edgesFrom (ids : JsMap.t string) (fromNodeId : string)
    (toPaths : JsSet.t) (acc : list CanvasEdge) : list CanvasEdge :=
  foldl (fun edges toPath =>
    match truthy (JsMap.get toPath ids) with
    | Some toNodeId =>
        if negb (String.eqb fromNodeId toNodeId) then
          edges ++ [{| edge_id := "edge-" +:+ pretty (length edges);
                       fromNode := fromNodeId; fromSide := "right";
                       toNode := toNodeId; toSide := "left" |}]
        else edges
    | None => edges
    end) acc toPaths.

(** The body of the outer edge loop, for one entry of [connections]. *)
Definition edgesOfEntry (ids : JsMap.t string) (edges : list CanvasEdge)
    (entry : string * JsSet.t) : list CanvasEdge :=
  let '(fromPath, toPaths) := entry in
  match truthy (JsMap.get fromPath ids) with
  | Some fromNodeId => edgesFrom ids fromNodeId toPaths edges
  | None => edges
  end.

Definition createEdges (ids : JsMap.t string) (connections : JsMap.t JsSet.t)
    : list CanvasEdge :=
  foldl (edgesOfEntry ids) [] connections.

Variable app : App.
Variable localeCompare : string -> string -> Z.
(** [new Date().toISOString()] *)
Variable now : string.

Definition createCanvasContent (fuel : nat) : Res CanvasData :=
  explored ← getAllNodesAndConnections app fuel activeFile (linkDepth settings);
  let allNodes := nodes explored in
  let connections := connections explored in
  let layers := organizeNodesIntoLayers localeCompare activeFile allNodes in
  let centerNode :=
    {| node_id := "center-node"; node_type := "file";
       node_file := path activeFile;
       node_x := (canvasWidth settings / 2)%Q;
       node_y := (canvasHeight settings / 2)%Q;
       node_width := nodeWidth; node_height := nodeHeight |} in
  let centerLayerIndex :=
    findIndex (fun layer : Layer =>
      existsb (fun node => String.eqb (path (file node)) (path activeFile)) layer)
      layers in
  let st := placeLayers centerLayerIndex 0 layers
    {| placed := [centerNode];
       fileToNodeId := JsMap.set (path activeFile) "center-node" [];
       nodeIndex := 0 |} in
  Ok {| canvas_nodes := placed st;
        canvas_edges := createEdges (fileToNodeId st) connections;
        canvas_meta := {| created := now; modified := now |} |}.
End Place.

(** A vault of two notes, [A.md] linking to [B.md] and nothing else. *)
Module TwoNotes.
Definition A : TFile := {| path := "A.md"; basename := "A"; extension := "md" |}.
Definition B : TFile := {| path := "B.md"; basename := "B"; extension := "md" |}.

Definition app : App :=
  {| resolvedLinks := [("A.md", [("B.md", 1)]); ("B.md", [])];
     getAbstractFileByPath := fun p =>
       if String.eqb p "A.md" then Some (AFile A)
       else if String.eqb p "B.md" then Some (AFile B)
       else None |}.

Definition settings : CanvasAutoGenSettings :=
  {| canvasWidth := 800; canvasHeight := 600; linkDepth := 1 |}.

(** A collation that agrees with the code-point order. *)
Definition localeCompare (a b : string) : Z :=
  match String.compare a b with
  | Lt => (-1)%Z
  | Eq => 0%Z
  | Gt => 1%Z
  end.
End TwoNotes.

(** ** DiagramExpander: [expandCanvas] *)

Inductive Direction := Left | Right.

(** What [vault.read(canvasFile)] returns, as [JSON.parse] sees it: a canvas
    with its [nodes], [edges] and [meta], or text that does not parse.  Text
    that parses to something else (an object without [nodes], [edges] or
    [meta]) is not represented: on it the program throws a [TypeError] where
    it first reads the missing field. *)
Inductive FileContent :=
| Json (canvasData : CanvasData)
| Malformed (raw : string).

Definition Qltb (a b : Q) : bool := negb (Qle_bool b a).

(** The test the three conflict filters share: the new node's box against the
    existing node's box widened by the 20px buffer. *)
Definition overlaps (newY existingY : Q) : bool :=
  let existingTop := (existingY - nodeHeight / 2 - 20)%Q in
  let existingBottom := (existingY + nodeHeight / 2 + 20)%Q in
  let newNodeTop := (newY - nodeHeight / 2)%Q in
  let newNodeBottom := (newY + nodeHeight / 2)%Q in
  Qltb newNodeTop existingBottom && Qltb existingTop newNodeBottom.

Definition conflictsAt (existingNodesAtTargetX : list CanvasNode) (y : Q)
    : list CanvasNode :=
  List.filter (fun existingNode => overlaps y (node_y existingNode))
    existingNodesAtTargetX.

(** The scan for the first gap between consecutive sorted positions. *)
Fixpoint findGap (allYPositions : list Q) : option Q :=
  match allYPositions with
  | yj :: ((yj1 :: _) as rest) =>
      let gapStart := (yj + nodeHeight / 2 + verticalSpacing)%Q in
      let gapEnd := (yj1 - nodeHeight / 2 - verticalSpacing)%Q in
      if Qle_bool nodeHeight (gapEnd - gapStart)
      then Some (gapStart + (gapEnd - gapStart) / 2)%Q
      else findGap rest
  | _ => None
  end.

(** [Math.max(...l)]; [None] stands for the [-Infinity] of an empty call. *)
Definition Math_max (l : list Q) : option Q :=
  match l with
  | [] => None
  | a :: rest => Some (foldl Qmax a rest)
  end.

(** The body of the placement loop: [bestY] for one ideal position. *)
Definition bestYFor (existingNodesAtTargetX : list CanvasNode) (idealY : Q) : Res Q :=
  match conflictsAt existingNodesAtTargetX idealY with
  | [] => Ok idealY
  | conflict :: _ =>
      let conflictY := node_y conflict in
      let tryY := (conflictY - nodeHeight - verticalSpacing)%Q in
      match conflictsAt existingNodesAtTargetX tryY with
      | [] => Ok tryY
      | _ :: _ =>
          let tryY := (conflictY + nodeHeight + verticalSpacing)%Q in
          match conflictsAt existingNodesAtTargetX tryY with
          | [] => Ok tryY
          | _ :: _ =>
              let allYPositions :=
                js_sort Qle_bool (node_y <$> existingNodesAtTargetX) in
              match findGap allYPositions with
              | Some y => Ok y
              | None =>
                  match Math_max allYPositions with
                  | Some maxY => Ok (maxY + nodeHeight + verticalSpacing)%Q
                  | None => Err NotFinite
                  end
              end
          end
      end
  end.

(** [canvasData.nodes.filter(...)]: the nodes within the column tolerance. *)
Definition existingNodesAt (targetX : Q) (canvasNodes : list CanvasNode)
    : list CanvasNode :=
  List.filter (fun n =>
    let xDistance := Qabs (node_x n - targetX) in
    Qltb xDistance (nodeWidth + 100)) canvasNodes.

(** [canvasData.nodes.find(n => n.file === focusNote.path)] *)
Definition findFocusNode (canvasData : CanvasData) (focusNote : TFile)
    : option CanvasNode :=
  List.find (fun n => String.eqb (node_file n) (path focusNote))
    (canvas_nodes canvasData).

(** One round of the placement loop: [newNodePositions.push({x, y})]. *)
Definition positionStep (existingNodesAtTargetX : list CanvasNode)
    (targetX idealStartY : Q) (i : nat) (newNodePositions : list (Q * Q))
    : Res (list (Q * Q)) :=
  let idealY := (idealStartY + inject_Z (Z.of_nat i) * verticalSpacing)%Q in
  bestY ← bestYFor existingNodesAtTargetX idealY;
  Ok (newNodePositions ++ [(targetX, bestY)]).

Definition newNodePositionsFor (existingNodesAtTargetX : list CanvasNode)
    (targetX idealStartY : Q) (count : nat) : Res (list (Q * Q)) :=
  for_of (seq 0 count) (positionStep existingNodesAtTargetX targetX idealStartY) [].

Record ExpandAcc := {
  acc_nodes : list CanvasNode;
  acc_edges : list CanvasEdge;
  newNodes : list CanvasNode
}.

Section Expand.
Variable app : App.
(** The text of the [k]-th [`${Date.now()}-${Math.random()}`] of a call. *)
Variable entropy : nat -> string.
(** [new Date().toISOString()] *)
Variable now : string.

(** The object literals [newNode] and [newEdge] of the [i]-th round. *)
Definition newNodeOf (i : nat) (linkedFile : TFile) (position : Q * Q) : CanvasNode :=
  {| node_id := "node-" +:+ entropy (2 * i); node_type := "file";
     node_file := path linkedFile;
     node_x := position.1; node_y := position.2;
     node_width := nodeWidth; node_height := nodeHeight |}.

Definition newEdgeOf (direction : Direction) (focusNode : CanvasNode) (i : nat)
    (newNode : CanvasNode) : CanvasEdge :=
  {| edge_id := "edge-" +:+ entropy (2 * i + 1);
     fromNode := match direction with
                 | Left => node_id newNode
                 | Right => node_id focusNode
                 end;
     fromSide := "right";
     toNode := match direction with
               | Left => node_id focusNode
               | Right => node_id newNode
               end;
     toSide := "left" |}.

(** The loop that creates the nodes and edges, from index [i] on. *)
Fixpoint addNodes (direction : Direction) (focusNode : CanvasNode) (i : nat)
    (todo : list (TFile * (Q * Q))) (acc : ExpandAcc) : ExpandAcc :=
  match todo with
  | [] => acc
  | (linkedFile, position) :: rest =>
      let newNode := newNodeOf i linkedFile position in
      let newEdge := newEdgeOf direction focusNode i newNode in
      addNodes direction focusNode (S i) rest
        {| acc_nodes := acc_nodes acc ++ [newNode];
           acc_edges := acc_edges acc ++ [newEdge];
           newNodes := newNodes acc ++ [newNode] |}
  end.

Definition newConnectionsOf (focusNote : TFile) (direction : Direction) : list TFile :=
  match direction with
  | Left => getBacklinks app focusNote
  | Right => getForwardLinks app focusNote
  end.

Definition nodesToAddOf (canvasData : CanvasData) (focusNote : TFile)
    (direction : Direction) : list TFile :=
  let existingPaths : gset string :=
    list_to_set (node_file <$> canvas_nodes canvasData) in
  filter (fun linkedFile => path linkedFile ∉ existingPaths)
    (newConnectionsOf focusNote direction).

Definition targetXOf (focusNode : CanvasNode) (direction : Direction) : Q :=
  (node_x focusNode +
     match direction with
     | Left => - horizontalSpacing
     | Right => horizontalSpacing
     end)%Q.

(** The new content of the canvas file; an early [return] leaves it as read. *)
Definition expandCanvas (content : FileContent) (focusNote : TFile)
    (direction : Direction) : Res FileContent :=
  match content with
  | Malformed _ => Ok content
  | Json canvasData =>
      let nodesToAdd := nodesToAddOf canvasData focusNote direction in
      if (length nodesToAdd =? 0)%nat then Ok content
      else
        match findFocusNode canvasData focusNote with
        | None => Ok content
        | Some focusNode =>
            let targetX := targetXOf focusNode direction in
            let existingNodesAtTargetX :=
              existingNodesAt targetX (canvas_nodes canvasData) in
            let idealStartY :=
              (node_y focusNode
               - (inject_Z (Z.of_nat (length nodesToAdd) - 1) * verticalSpacing) / 2)%Q in
            newNodePositions ←
              newNodePositionsFor existingNodesAtTargetX targetX idealStartY
                (length nodesToAdd);
            let acc := addNodes direction focusNode 0 (zip nodesToAdd newNodePositions)
              {| acc_nodes := canvas_nodes canvasData;
                 acc_edges := canvas_edges canvasData;
                 newNodes := [] |} in
            if (0 <? length (newNodes acc))%nat then
              Ok (Json {| canvas_nodes := acc_nodes acc;
                          canvas_edges := acc_edges acc;
                          canvas_meta :=
                            {| created := created (canvas_meta canvasData);
                               modified := now |} |})
            else Ok content
        end
  end.
End Expand.

(** A vault in which [A.md] links to [C.md] and [D.md] and [C.md] to [D.md];
    a canvas that already shows [A.md] and, one column to its right, [E.md];
    and a canvas that shows [A.md] alone. *)
Module Crowded.
Definition A : TFile := {| path := "A.md"; basename := "A"; extension := "md" |}.
Definition C : TFile := {| path := "C.md"; basename := "C"; extension := "md" |}.
Definition D : TFile := {| path := "D.md"; basename := "D"; extension := "md" |}.

Definition app : App :=
  {| resolvedLinks := [("A.md", [("C.md", 1); ("D.md", 1)]); ("C.md", [("D.md", 1)])];
     getAbstractFileByPath := fun p =>
       if String.eqb p "A.md" then Some (AFile A)
       else if String.eqb p "C.md" then Some (AFile C)
       else if String.eqb p "D.md" then Some (AFile D)
       else None |}.

Definition fileNode (i f : string) (x y : Q) : CanvasNode :=
  {| node_id := i; node_type := "file"; node_file := f;
     node_x := x; node_y := y; node_width := nodeWidth; node_height := nodeHeight |}.

Definition canvas : CanvasData :=
  {| canvas_nodes := [fileNode "center-node" "A.md" 0 0; fileNode "node-0" "E.md" 450 0];
     canvas_edges := [];
     canvas_meta := {| created := "t0"; modified := "t0" |} |}.

Definition alone : CanvasData :=
  {| canvas_nodes := [fileNode "center-node" "A.md" 0 0];
     canvas_edges := [];
     canvas_meta := {| created := "t0"; modified := "t0" |} |}.

Definition entropy (k : nat) : string := "1730000000000-0." +:+ pretty k.
End Crowded.

(** A vault with a cycle and a self-link: [A.md] links to itself and to
    [B.md], and [B.md] links back to [A.md]. *)
Module Cyclic.
Definition A : TFile := {| path := "A.md"; basename := "A"; extension := "md" |}.
Definition B : TFile := {| path := "B.md"; basename := "B"; extension := "md" |}.

Definition app : App :=
  {| resolvedLinks := [("A.md", [("A.md", 1); ("B.md", 1)]); ("B.md", [("A.md", 1)])];
     getAbstractFileByPath := fun p =>
       if String.eqb p "A.md" then Some (AFile A)
       else if String.eqb p "B.md" then Some (AFile B)
       else None |}.
End Cyclic.

(** A vault of two notes, [B.md] linking to [A.md] and nothing else. *)
Module BackNote.
Definition A : TFile := {| path := "A.md"; basename := "A"; extension := "md" |}.
Definition B : TFile := {| path := "B.md"; basename := "B"; extension := "md" |}.

Definition app : App :=
  {| resolvedLinks := [("A.md", []); ("B.md", [("A.md", 1)])];
     getAbstractFileByPath := fun p =>
       if String.eqb p "A.md" then Some (AFile A)
       else if String.eqb p "B.md" then Some (AFile B)
       else None |}.
End BackNote.

(** ** Vocabulary of the properties *)

(** The DocumentRefs of a node list. *)
Definition documents (ns : list GraphNode) : list string :=
  (fun n => path (file n)) <$> ns.

(** Every listed document is marked visited, and is listed once. *)
Definition wellVisited (st : ExploreState) : Prop :=
  NoDup (documents (nodes st)) /\ forall p, p ∈ documents (nodes st) -> p ∈ visited st.

(** No source is among its own targets. *)
Definition noSelfLoops (c : JsMap.t JsSet.t) : Prop :=
  forall src targets, (src, targets) ∈ c -> src ∉ targets.

(** The nodes and edges [addNodes] creates from index [i] on, paired. *)
Fixpoint addedFrom (entropy : nat -> string) (direction : Direction)
    (focusNode : CanvasNode) (i : nat) (todo : list (TFile * (Q * Q)))
    : list (CanvasNode * CanvasEdge) :=
  match todo with
  | [] => []
  | (linkedFile, position) :: rest =>
      let newNode := newNodeOf entropy i linkedFile position in
      (newNode, newEdgeOf entropy direction focusNode i newNode)
        :: addedFrom entropy direction focusNode (S i) rest
  end.

(** The three ways in which [expandCanvas] returns early. *)
Definition aborts (app : App) (content : FileContent) (focusNote : TFile)
    (direction : Direction) : Prop :=
  match content with
  | Malformed _ => True
  | Json canvasData =>
      nodesToAddOf app canvasData focusNote direction = [] \/
      findFocusNode canvasData focusNote = None
  end.

(** The edge [e] joins the focus node and the new node [n] in the drawing
    direction the expansion fixes. *)
Definition joinsFocus (direction : Direction) (focusNode n : CanvasNode)
    (e : CanvasEdge) : Prop :=
  fromSide e = "right" /\ toSide e = "left" /\
  match direction with
  | Left => fromNode e = node_id n /\ toNode e = node_id focusNode
  | Right => fromNode e = node_id focusNode /\ toNode e = node_id n
  end.

(** Two nodes of one column: their horizontal distance is within the
    tolerance [expandCanvas] uses for a column. *)
Definition sameColumn (a b : CanvasNode) : Prop :=
  (Qabs (node_x a - node_x b) < nodeWidth + 100)%Q.

(** No two nodes of one column overlap vertically, by the test of
    [expandCanvas]. *)
Definition noOverlap (ns : list CanvasNode) : Prop :=
  forall i j a b,
    i <> j -> ns !! i = Some a -> ns !! j = Some b ->
    sameColumn a b -> overlaps (node_y a) (node_y b) = false.

(** The number of layers in which the document [p] appears. *)
Definition layersHolding (p : string) (layers : list Layer) : nat :=
  length (filter (fun layer : Layer => p ∈ documents layer) layers).

(** Every id the path-to-id map hands out belongs to a placed node of that
    path. *)
Definition idsPlaced (st : PlaceState) : Prop :=
  forall p i,
    JsMap.get p (fileToNodeId st) = Some i ->
    exists n, n ∈ placed st /\ node_file n = p /\ node_id n = i.

(** The edge [e] draws the recorded pair [fromPath -> toPath], both ends
    having a node id in [ids]. *)
Definition drawsPair (ids : JsMap.t string) (fromPath toPath : string)
    (e : CanvasEdge) : Prop :=
  truthy (JsMap.get fromPath ids) = Some (fromNode e) /\
  truthy (JsMap.get toPath ids) = Some (toNode e) /\
  fromNode e <> toNode e /\ fromSide e = "right" /\ toSide e = "left".

(** What a traversal does to the visited set and the node list: both only
    grow, the node list at its end. *)
Definition grows (st st' : ExploreState) : Prop :=
  visited st ⊆ visited st' /\ nodes st `prefix_of` nodes st'.

(** The node [n] was discovered from [parent]: one level deeper, over a
    forward link of [parent] or over a backlink to it, as its class says. *)
Definition discoveredFrom (app : App) (parent n : GraphNode) : Prop :=
  level n = S (level parent) /\
  if isBacklink n then file n ∈ getBacklinks app (file parent)
  else file n ∈ getForwardLinks app (file parent).

(** Both ends of every recorded connection are listed documents. *)
Definition connectionsClosed (st : ExploreState) : Prop :=
  forall src targets,
    (src, targets) ∈ connections st ->
    src ∈ documents (nodes st) /\ forall t, t ∈ targets -> t ∈ documents (nodes st).

(** [f] is the markdown note the vault keeps under [f]'s own path. *)
Definition vaultNote (app : App) (f : TFile) : Prop :=
  getAbstractFileByPath app (path f) = Some (AFile f) /\ extension f = "md".

(** The vault answers a path with a file of that path. *)
Definition vaultCoherent (app : App) : Prop :=
  forall p f, getAbstractFileByPath app p = Some (AFile f) -> path f = p.

(** [resolvedLinks] as the metadata cache builds it: a JavaScript object has
    each key once, and a resolved link is counted at least once. *)
Definition indexOk (app : App) : Prop :=
  NoDup (resolvedLinks app).*1 /\
  forall sourcePath links,
    (sourcePath, links) ∈ resolvedLinks app ->
    NoDup links.*1 /\ forall targetPath count, (targetPath, count) ∈ links -> count <> 0.

(** Both ends of every pair of [c] are in the set [V]. *)
Definition closedIn (V : gset string) (c : JsMap.t JsSet.t) : Prop :=
  forall src targets,
    (src, targets) ∈ c -> src ∈ V /\ forall t, t ∈ targets -> t ∈ V.

(** The pair [src -> tgt] is a link of the index: a forward link of a file
    at [src], or a backlink of a file at [tgt]. *)
Definition isLink (app : App) (src tgt : string) : Prop :=
  exists f l,
    path f = src /\ path l = tgt /\
    (l ∈ getForwardLinks app f \/ f ∈ getBacklinks app l).

(** The ids [createCanvasContent] hands out. *)
Definition nodeIdOf (k : nat) : string := "node-" +:+ pretty k.
Definition edgeIdOf (k : nat) : string := "edge-" +:+ pretty k.

(** The state of the placement loops is in order: the placed nodes carry
    ["center-node"] and then the ids [node-0 .. node-(nodeIndex-1)]; the
    path-to-id map gives ["center-node"] to the active file only, one of the
    handed-out ids to any other path, no id to two paths, and some id to the
    path of every placed node. *)
Definition placeInv (activeFile : TFile) (st : PlaceState) : Prop :=
  node_id <$> placed st = "center-node" :: (nodeIdOf <$> seq 0 (nodeIndex st)) /\
  (forall p i, JsMap.get p (fileToNodeId st) = Some i ->
     (p = path activeFile /\ i = "center-node") \/
     (p <> path activeFile /\ exists k, k < nodeIndex st /\ i = nodeIdOf k)) /\
  (forall p q i,
     JsMap.get p (fileToNodeId st) = Some i ->
     JsMap.get q (fileToNodeId st) = Some i -> p = q) /\
  (forall n, n ∈ placed st -> is_Some (JsMap.get (node_file n) (fileToNodeId st))).

(** Every edge of the canvas starts and ends at a node of the canvas. *)
Definition edgesResolved (canvasData : CanvasData) : Prop :=
  forall e, e ∈ canvas_edges canvasData ->
    fromNode e ∈ node_id <$> canvas_nodes canvasData /\
    toNode e ∈ node_id <$> canvas_nodes canvasData.

(** The ideal position of the [i]-th of [count] new nodes around a focus
    node at height [focusY]. *)
Definition idealYOf (focusY : Q) (count i : nat) : Q :=
  (focusY - (inject_Z (Z.of_nat count - 1) * verticalSpacing) / 2
   + inject_Z (Z.of_nat i) * verticalSpacing)%Q.

(** ** The one-direction explorer: [getAllNodesWithDepth], [exploreLinks] *)

(** What [exploreLinks] carries: the set [visited] and the array [nodes]. *)
Record LinkWalk := { seen : gset string; listed : list GraphNode }.

(** [visited.add(f.path); nodes.push({file: f, level, isBacklink})] *)
Definition list_node (f : TFile) (lvl : nat) (back : bool) (st : LinkWalk) : LinkWalk :=
  {| seen := {[ path f ]} ∪ seen st;
     listed := listed st ++ [{| file := f; level := lvl; isBacklink := back |}] |}.

Section Links.
Variable app : App.

Fixpoint exploreLinks (fuel : nat) (file : TFile) (maxDepth currentDepth : nat)
    (st : LinkWalk) (isBacklink : bool) : Res LinkWalk :=
  match fuel with
  | O => Err OutOfFuel
  | S fuel' =>
      if bool_decide (maxDepth < currentDepth) then Ok st
      else
        let links :=
          if isBacklink then getBacklinks app file else getForwardLinks app file in
        for_of links (fun linkedFile st =>
          if bool_decide (path linkedFile ∈ seen st) then Ok st
          else exploreLinks fuel' linkedFile maxDepth (S currentDepth)
                 (list_node linkedFile currentDepth isBacklink st) isBacklink) st
  end.

Definition getAllNodesWithDepth (fuel : nat) (centerFile : TFile) (depth : nat)
    : Res (list GraphNode) :=
  let st :=
    {| seen := {[ path centerFile ]};
       listed := [{| file := centerFile; level := 0; isBacklink := false |}] |} in
  st ← exploreLinks fuel centerFile depth 1 st true;
  st ← exploreLinks fuel centerFile depth 1 st false;
  Ok (listed st).
End Links.

(** ** Canvas file names *)

(** [s.endsWith(suffix)] *)
Definition js_endsWith (s suffix : string) : bool :=
  (String.length suffix <=? String.length s)%nat &&
  String.eqb
    (String.substring (String.length s - String.length suffix) (String.length suffix) s)
    suffix.

(** [s.slice(n)] *)
Definition js_slice (n : nat) (s : string) : string :=
  String.substring n (String.length s - n) s.

(** [s.replace(pattern, replacement)] with a string pattern: only the first
    occurrence is replaced. *)
Fixpoint js_replace (pattern replacement s : string) : string :=
  if String.prefix pattern s
  then replacement +:+ js_slice (String.length pattern) s
  else match s with
       | EmptyString => EmptyString
       | String c rest => String c (js_replace pattern replacement rest)
       end.

(** [`${basename}_canvas`] and [canvasName.replace('_canvas', '')] *)
Definition canvasFileNameOf (noteBasename : string) : string :=
  noteBasename +:+ "_canvas".

Definition originalNoteNameOf (canvasName : string) : string :=
  js_replace "_canvas" "" canvasName.

Definition slash : Ascii.ascii := Ascii.ascii_of_nat 47.
Definition backslash : Ascii.ascii := Ascii.ascii_of_nat 92.

(** [s.replace(/\\+/g, '/')]: every run of backslashes becomes one slash;
    [inRun] tells that the character before was a backslash. *)
Fixpoint collapseBackslashes (inRun : bool) (s : string) : string :=
  match s with
  | EmptyString => EmptyString
  | String c rest =>
      if Ascii.eqb c backslash
      then if inRun then collapseBackslashes true rest
           else String slash (collapseBackslashes true rest)
      else String c (collapseBackslashes false rest)
  end.

Fixpoint stripLeadingSlashes (s : string) : string :=
  match s with
  | EmptyString => EmptyString
  | String c rest => if Ascii.eqb c slash then stripLeadingSlashes rest else s
  end.

Fixpoint stripTrailingSlashes (s : string) : string :=
  match s with
  | EmptyString => EmptyString
  | String c rest =>
      match stripTrailingSlashes rest with
      | EmptyString => if Ascii.eqb c slash then EmptyString else String c EmptyString
      | kept => String c kept
      end
  end.

(** [s.replace(/^\/+|\/+$|(^\.$)/g, '')]: the leading slashes, the trailing
    slashes, or all of a string that is a single dot. *)
Definition trimSlashes (s : string) : string :=
  if String.eqb s "." then EmptyString
  else stripTrailingSlashes (stripLeadingSlashes s).

(** [parent] is [file.parent?.path]. *)
Definition normalizedDirOf (parent : option string) : string :=
  let parentPath := default EmptyString parent in
  trimSlashes (collapseBackslashes false parentPath).

Definition canvasPathOf (parent : option string) (noteBasename : string) : string :=
  let canvasFileName := canvasFileNameOf noteBasename in
  let normalizedDir := normalizedDirOf parent in
  if String.eqb normalizedDir EmptyString
  then canvasFileName +:+ ".canvas"
  else normalizedDir +:+ "/" +:+ canvasFileName +:+ ".canvas".

(** ** The expansion commands: [expandCanvasInDirection], [expandCanvasManually] *)

(** What the loop of a command carries: the content of the canvas file, the
    set [existingPaths], the flag [expanded], and the number of
    [expandCanvas] calls made so far. *)
Record CommandState := {
  canvas_file : FileContent;
  existingPaths : gset string;
  expanded : bool;
  calls : nat
}.

(** A loop ends normally, or in the [catch] block of the command. *)
Inductive Outcome :=
| Done (st : CommandState)
| Caught (st : CommandState).

Definition andThen (o : Outcome) (k : CommandState -> Outcome) : Outcome :=
  match o with
  | Done st => k st
  | Caught st => Caught st
  end.

(** [for (const node of canvasData.nodes) { ... }] *)
Fixpoint forEachNode (body : CanvasNode -> CommandState -> Outcome)
    (canvasNodes : list CanvasNode) (st : CommandState) : Outcome :=
  match canvasNodes with
  | [] => Done st
  | node :: rest => andThen (body node st) (forEachNode body rest)
  end.

Definition directionName (direction : Direction) : string :=
  match direction with
  | Left => "left"
  | Right => "right"
  end.

Section Commands.
Variable app : App.
(** The entropy and the timestamp of the [k]-th [expandCanvas] call. *)
Variable clock : nat -> (nat -> string) * string.

(** The links of [nodeNote] that are not in [existingPaths], and the block
    under [if (newLinks.length > 0)]: expand, set the flag, read the file
    again and add its paths. *)
Definition expandIfNew (nodeNote : TFile) (direction : Direction) (st : CommandState)
    : Outcome :=
  let newLinks :=
    filter (fun link => path link ∉ existingPaths st)
      (newConnectionsOf app nodeNote direction) in
  if (0 <? length newLinks)%nat then
    match expandCanvas app (clock (calls st)).1 (clock (calls st)).2
            (canvas_file st) nodeNote direction with
    | Err _ => Caught st
    | Ok (Malformed raw) =>
        Caught {| canvas_file := Malformed raw; existingPaths := existingPaths st;
                  expanded := true; calls := S (calls st) |}
    | Ok (Json updatedData) =>
        Done {| canvas_file := Json updatedData;
                existingPaths :=
                  existingPaths st ∪ list_to_set (node_file <$> canvas_nodes updatedData);
                expanded := true; calls := S (calls st) |}
    end
  else Done st.

(** [getAbstractFileByPath(node.file)] with the [instanceof TFile] test. *)
Definition noteOf (node : CanvasNode) : option TFile :=
  match getAbstractFileByPath app (node_file node) with
  | Some (AFile nodeNote) => Some nodeNote
  | _ => None
  end.

Definition directionStep (direction : Direction) (node : CanvasNode)
    (st : CommandState) : Outcome :=
  match noteOf node with
  | None => Done st
  | Some nodeNote => expandIfNew nodeNote direction st
  end.

Definition manualStep (node : CanvasNode) (st : CommandState) : Outcome :=
  match noteOf node with
  | None => Done st
  | Some nodeNote =>
      andThen (expandIfNew nodeNote Right st) (expandIfNew nodeNote Left)
  end.

Definition initialState (canvasData : CanvasData) : CommandState :=
  {| canvas_file := Json canvasData;
     existingPaths := list_to_set (node_file <$> canvas_nodes canvasData);
     expanded := false; calls := 0 |}.

(** The note a canvas was generated for, as the commands look it up from
    the name of the canvas file. *)
Definition originalNoteOf (canvasFile : TFile) : option TFile :=
  let canvasName := basename canvasFile in
  let originalNoteName := originalNoteNameOf canvasName in
  match getAbstractFileByPath app (originalNoteName +:+ ".md") with
  | Some (AFile originalNote) => Some originalNote
  | _ => None
  end.

(** The commands return the content of the canvas file and the [Notice]
    they show, if any.  [activeFile] is [activeLeaf.view.file], [None] when
    there is no leaf, no view or no file. *)
Definition expandCanvasInDirection (direction : Direction)
    (activeFile : option TFile) (currentContent : FileContent)
    : FileContent * option string :=
  match activeFile with
  | None => (currentContent, None)
  | Some canvasFile =>
      if js_endsWith (path canvasFile) ".canvas" then
        match originalNoteOf canvasFile with
        | None => (currentContent, None)
        | Some _ =>
            match currentContent with
            | Malformed _ => (currentContent, None)
            | Json canvasData =>
                match forEachNode (directionStep direction) (canvas_nodes canvasData)
                        (initialState canvasData) with
                | Done st =>
                    (canvas_file st,
                     if expanded st
                     then Some ("Canvas expanded " +:+ directionName direction +:+ "!")
                     else None)
                | Caught st => (canvas_file st, None)
                end
            end
        end
      else (currentContent, None)
  end.

Definition expandCanvasManually (activeFile : option TFile)
    (currentContent : FileContent) : FileContent * option string :=
  match activeFile with
  | None => (currentContent, Some "Please open a canvas to expand it.")
  | Some canvasFile =>
      if js_endsWith (path canvasFile) ".canvas" then
        match originalNoteOf canvasFile with
        | None =>
            (currentContent, Some "Could not find the original note for this canvas.")
        | Some _ =>
            match currentContent with
            | Malformed _ => (currentContent, Some "Invalid canvas data.")
            | Json canvasData =>
                match forEachNode manualStep (canvas_nodes canvasData)
                        (initialState canvasData) with
                | Done st =>
                    (canvas_file st,
                     Some (if expanded st
                           then "Canvas expanded successfully!"
                           else "No new connections found to expand the canvas."))
                | Caught st => (canvas_file st, Some "Error expanding canvas manually")
                end
            end
        end
      else (currentContent, Some "Please open a canvas to expand it.")
  end.
End Commands.

(** A vault with the note [A.md] at its top and the canvas generated for
    it. *)
Module Desk.
Definition canvasFile : TFile :=
  {| path := "A_canvas.canvas"; basename := "A_canvas"; extension := "canvas" |}.

Definition clock (k : nat) : (nat -> string) * string :=
  (fun i => "173000000000" +:+ pretty k +:+ "-0." +:+ pretty i, "t" +:+ pretty (S k)).
End Desk.

(** The document [p] is reached from the node [node] in one step in the
    direction [direction]: it is a link of the note the vault keeps under
    the node's path. *)
Definition linkedFrom (app : App) (node : CanvasNode) (direction : Direction)
    (p : string) : Prop :=
  exists nodeNote l,
    noteOf app node = Some nodeNote /\
    l ∈ newConnectionsOf app nodeNote direction /\ path l = p.

(** The string [pattern] occurs in [s]. *)
Fixpoint occursIn (pattern s : string) : bool :=
  String.prefix pattern s ||
  match s with
  | EmptyString => false
  | String _ rest => occursIn pattern rest
  end.

(** The canvas [current] extends [canvasData]: the nodes and edges of
    [canvasData] are the first of [current], and the creation stamp is
    kept. *)
Definition extends (canvasData current : CanvasData) : Prop :=
  canvas_nodes canvasData `prefix_of` canvas_nodes current /\
  canvas_edges canvasData `prefix_of` canvas_edges current /\
  created (canvas_meta current) = created (canvas_meta canvasData).

(** The state of a command's loop over the nodes of [canvasData], the
    pairs [done] of a node and a direction being dealt with: the file holds
    a canvas that extends [canvasData] by the nodes [added]; [existingPaths]
    are the documents on it; the flag is set exactly when a node was added;
    every added document is new and linked from a node that was dealt with;
    and every link of a node that was dealt with is on the canvas. *)
Definition commandInv (app : App) (canvasData : CanvasData)
    (done : CanvasNode -> Direction -> Prop) (st : CommandState) : Prop :=
  exists current added,
    canvas_file st = Json current /\
    canvas_nodes current = canvas_nodes canvasData ++ added /\
    (forall p, p ∈ existingPaths st <-> p ∈ node_file <$> canvas_nodes current) /\
    (expanded st = true <-> added <> []) /\
    (forall p, p ∈ node_file <$> added ->
       (p ∉ node_file <$> canvas_nodes canvasData) /\
       exists node direction,
         done node direction /\ node ∈ canvas_nodes canvasData /\
         linkedFrom app node direction p) /\
    (forall node direction p,
       done node direction -> linkedFrom app node direction p ->
       p ∈ node_file <$> canvas_nodes current).

(** The content [content'] keeps what [content] holds: text that does not
    parse is left as it is, and a canvas is only extended. *)
Definition keeps (content content' : FileContent) : Prop :=
  match content with
  | Malformed _ => content' = content
  | Json canvasData =>
      exists canvasData', content' = Json canvasData' /\ extends canvasData canvasData'
  end.

(** What the normalisation of a directory is about: a slash at the start,
    a slash at the end, a backslash anywhere. *)
Definition startsWithSlash (s : string) : bool :=
  match s with
  | EmptyString => false
  | String c _ => Ascii.eqb c slash
  end.

Fixpoint endsWithSlash (s : string) : bool :=
  match s with
  | EmptyString => false
  | String c EmptyString => Ascii.eqb c slash
  | String _ rest => endsWithSlash rest
  end.

Fixpoint hasBackslash (s : string) : bool :=
  match s with
  | EmptyString => false
  | String c rest => Ascii.eqb c backslash || hasBackslash rest
  end.

(** The layer holds the centre file alone or not at all. *)
Definition seedAlone (centerFile : TFile) (layer : Layer) : Prop :=
  (forall n, n ∈ layer -> path (file n) = path centerFile) \/
  (forall n, n ∈ layer -> path (file n) <> path centerFile).

(** The node is in the column of the layer [layerIndex]. *)
Definition inColumn (settings : CanvasAutoGenSettings) (centerLayerIndex : Z)
    (layerIndex : nat) (n : CanvasNode) : Prop :=
  (node_x n ==
   canvasWidth settings / 2
   + inject_Z (Z.of_nat layerIndex - centerLayerIndex) * horizontalSpacing)%Q.

(** The state of the placement loops inside the layer [layerIndex], at the
    inner index [nodeInLayerIndex]: after the centre node come nodes in the
    columns of earlier layers and nodes of this layer at earlier slots, none
    in the column of the centre layer, and no two nodes overlap. *)
Definition placedClear (settings : CanvasAutoGenSettings) (activeFile : TFile)
    (centerLayerIndex : Z) (layerIndex : nat) (layerStartY : Q)
    (nodeInLayerIndex : nat) (st : PlaceState) : Prop :=
  (exists rest,
     placed st = {| node_id := "center-node"; node_type := "file";
                    node_file := path activeFile;
                    node_x := (canvasWidth settings / 2)%Q;
                    node_y := (canvasHeight settings / 2)%Q;
                    node_width := nodeWidth; node_height := nodeHeight |} :: rest /\
     forall n, n ∈ rest ->
       (exists i, i < layerIndex /\ Z.of_nat i <> centerLayerIndex /\
                  inColumn settings centerLayerIndex i n) \/
       (Z.of_nat layerIndex <> centerLayerIndex /\
        inColumn settings centerLayerIndex layerIndex n /\
        exists j, j < nodeInLayerIndex /\
          (node_y n == layerStartY + inject_Z (Z.of_nat j) * verticalSpacing)%Q)) /\
  noOverlap (placed st).

(** A walk only grows: the set of visited paths, and the node list at its
    end. *)
Definition walkGrows (st st' : LinkWalk) : Prop :=
  seen st ⊆ seen st' /\ listed st `prefix_of` listed st'.

(** The nodes a pass of [exploreLinks] appended to a list of [base] nodes
    are in order: each carries the flag [back] of the pass and a level
    between 1 and [maxDepth], and was discovered from [seed] or from
    another node of the pass. *)
Definition passInOrder (app : App) (seed : GraphNode) (maxDepth base : nat)
    (back : bool) (st : LinkWalk) : Prop :=
  forall n, n ∈ drop base (listed st) ->
    isBacklink n = back /\ 1 <= level n <= maxDepth /\
    exists parent,
      (parent = seed \/ parent ∈ drop base (listed st)) /\
      discoveredFrom app parent n.

(** The pair [src -> tgt] is in the ConnectionSet of the state. *)
Definition recorded (st : ExploreState) (src tgt : string) : Prop :=
  exists targets,
    JsMap.get src (connections st) = Some targets /\ tgt ∈ (targets : list string).

(** From [st] to [st'] the traversal grew, and lost no pair whose source
    was visited. *)
Definition keepsRecords (st st' : ExploreState) : Prop :=
  grows st st' /\
  forall src tgt, src ∈ visited st -> recorded st src tgt -> recorded st' src tgt.

(** The visited paths are the listed documents. *)
Definition visitedListed (st : ExploreState) : Prop :=
  forall p, p ∈ visited st <-> p ∈ documents (nodes st).

(** Every link of [f], in either direction, leads to a listed document and
    is recorded, from its source to its target. *)
Definition linksListed (app : App) (st : ExploreState) (f : TFile) : Prop :=
  (forall l, l ∈ getForwardLinks app f ->
     path l ∈ documents (nodes st) /\ recorded st (path f) (path l)) /\
  (forall l, l ∈ getBacklinks app f ->
     path l ∈ documents (nodes st) /\ recorded st (path l) (path f)).

(** Every node placed after the centre node comes from a node of one of
    the first [upto] layers, and stands in the column of that layer. *)
Definition placedFrom (settings : CanvasAutoGenSettings) (centerLayerIndex : Z)
    (layers : list Layer) (upto : nat) (st : PlaceState) : Prop :=
  forall m, m ∈ drop 1 (placed st) ->
    exists i layer nodeInfo,
      i < upto /\ layers !! i = Some layer /\ nodeInfo ∈ layer /\
      node_file m = path (file nodeInfo) /\
      inColumn settings centerLayerIndex i m.

(** One expansion call: the note and the direction [expandCanvas] is given,
    and the entropy and the clock it reads. *)
Record Call := {
  call_entropy : nat -> string;
  call_now : string;
  call_focus : TFile;
  call_direction : Direction
}.

(** A vault in which [A.md] links to [C.md] and [C.md] to [F.md]; a canvas
    that shows [A.md] and, one column to its right and 230 below, [E.md]; two
    calls, to the right of [A.md] and then to the right of [C.md]. *)
Module Tight.
Definition A : TFile := {| path := "A.md"; basename := "A"; extension := "md" |}.
Definition C : TFile := {| path := "C.md"; basename := "C"; extension := "md" |}.
Definition F : TFile := {| path := "F.md"; basename := "F"; extension := "md" |}.

Definition app : App :=
  {| resolvedLinks := [("A.md", [("C.md", 1)]); ("C.md", [("F.md", 1)])];
     getAbstractFileByPath := fun p =>
       if String.eqb p "A.md" then Some (AFile A)
       else if String.eqb p "C.md" then Some (AFile C)
       else if String.eqb p "F.md" then Some (AFile F)
       else None |}.

Definition canvas : CanvasData :=
  {| canvas_nodes := [Crowded.fileNode "center-node" "A.md" 0 0;
                      Crowded.fileNode "node-0" "E.md" 450 230];
     canvas_edges := [];
     canvas_meta := {| created := "t0"; modified := "t0" |} |}.

Definition first : Call :=
  {| call_entropy := Crowded.entropy; call_now := "t1";
     call_focus := A; call_direction := Right |}.
Definition second : Call :=
  {| call_entropy := Crowded.entropy; call_now := "t2";
     call_focus := C; call_direction := Right |}.
End Tight.

(** A sequence of expansion calls on one canvas file, each call reading what
    the call before it wrote. *)
Fixpoint expandCalls (app : App) (calls : list Call) (content : FileContent)
    : Res FileContent :=
  match calls with
  | [] => Ok content
  | call :: rest =>
      content' ← expandCanvas app (call_entropy call) (call_now call) content
                   (call_focus call) (call_direction call);
      expandCalls app rest content'
  end.

(** The conflict test as the specification words it: the padded boxes of
    the two nodes, each its height plus the 20-unit buffer on each side,
    overlap.  ([overlaps], the test of the code, pads one box only.) *)
Definition overlapsPadded (y1 y2 : Q) : bool :=
  let top1 := (y1 - nodeHeight / 2 - 20)%Q in
  let bottom1 := (y1 + nodeHeight / 2 + 20)%Q in
  let top2 := (y2 - nodeHeight / 2 - 20)%Q in
  let bottom2 := (y2 + nodeHeight / 2 + 20)%Q in
  Qltb top1 bottom2 && Qltb top2 bottom1.

(** No two nodes of one column overlap, by the test of the specification. *)
Definition noOverlapPadded (ns : list CanvasNode) : Prop :=
  forall i j a b,
    i <> j -> ns !! i = Some a -> ns !! j = Some b ->
    sameColumn a b -> overlapsPadded (node_y a) (node_y b) = false.

(** * Properties *)

(** ** Containers *)

Lemma for_of_preserves {A S : Type} (J : S -> Prop) (body : A -> S -> Res S) l :
  (forall a s s', a ∈ l -> J s -> body a s = Ok s' -> J s') ->
  forall s s', J s -> for_of l body s = Ok s' -> J s'.
Proof.
  induction l as [|a l IH]; simpl; intros Hbody s s' Hs Hrun.
  - by inversion Hrun; subst.
  - destruct (body a s) as [s1|] eqn:Hb; [|done].
    eapply IH; [|eapply Hbody; [left|exact Hs|exact Hb]|exact Hrun].
    intros a' t t' Ha'. apply Hbody. by right.
Qed.

Lemma for_of_total {A S : Type} (J : S -> Prop) (body : A -> S -> Res S) l :
  (forall a s, a ∈ l -> J s -> exists s', body a s = Ok s' /\ J s') ->
  forall s, J s -> exists s', for_of l body s = Ok s' /\ J s'.
Proof.
  induction l as [|a l IH]; simpl; intros Hbody s Hs.
  - by exists s.
  - destruct (Hbody a s) as (s1 & -> & Hs1); [left|done|].
    apply IH; [|done]. intros a' t Ha'. apply Hbody. by right.
Qed.

Lemma obj_get_elem_of {V : Type} (k : string) (v : V) m :
  obj_get k m = Some v -> (k, v) ∈ m.
Proof.
  induction m as [|[k' w] m IH]; simpl; [done|].
  destruct (String.eqb_spec k' k) as [->|Hne].
  - intros [= ->]. left.
  - intros H. right. by apply IH.
Qed.

Module JsMapFacts.
Import JsMap.

Lemma get_set_eq {V : Type} (k : string) (v : V) m : get k (set k v m) = Some v.
Proof.
  unfold get. induction m as [|[k' w] m IH]; simpl.
  - by rewrite String.eqb_refl.
  - destruct (String.eqb_spec k' k) as [->|Hne]; simpl.
    + by rewrite String.eqb_refl.
    + by destruct (String.eqb_spec k' k).
Qed.

Lemma get_set_ne {V : Type} (k k' : string) (v : V) m :
  k <> k' -> get k' (set k v m) = get k' m.
Proof.
  unfold get. intros Hne. induction m as [|[k0 w] m IH]; simpl.
  - by destruct (String.eqb_spec k k').
  - destruct (String.eqb_spec k0 k) as [->|Hne0]; simpl.
    + by destruct (String.eqb_spec k k').
    + by rewrite IH.
Qed.

Lemma has_set {V : Type} (k k' : string) (v : V) m :
  has k' m = true -> has k' (set k v m) = true.
Proof.
  unfold has. destruct (decide (k = k')) as [->|Hne].
  - by rewrite get_set_eq.
  - by rewrite get_set_ne.
Qed.

Lemma has_set_eq {V : Type} (k : string) (v : V) m : has k (set k v m) = true.
Proof. unfold has. by rewrite get_set_eq. Qed.

Lemma elem_of_set {V : Type} (k k' : string) (v w : V) m :
  (k', w) ∈ set k v m -> (k' = k /\ w = v) \/ (k', w) ∈ m.
Proof.
  induction m as [|[k0 w0] m IH]; simpl.
  - intros H%list_elem_of_singleton. left. by simplify_eq.
  - destruct (String.eqb_spec k0 k) as [->|Hne].
    + intros [H|H]%elem_of_cons; [left; by simplify_eq|right; by right].
    + intros [H|H]%elem_of_cons; [right; rewrite H; left|].
      destruct (IH H) as [?|?]; [by left|right; by right].
Qed.
End JsMapFacts.

Lemma elem_of_JsSet_add (x y : string) (s : JsSet.t) :
  y ∈ JsSet.add x s -> y = x \/ y ∈ s.
Proof.
  unfold JsSet.add, JsSet.has. case_bool_decide; [by right|].
  intros [Hy|Hy]%elem_of_app; [by right|left].
  by apply list_elem_of_singleton in Hy.
Qed.

(** ** Exploration *)

Lemma Res_bind_Ok {A B : Type} (m : Res A) (k : A -> Res B) (b : B) :
  (a ← m; k a) = Ok b -> exists a, m = Ok a /\ k a = Ok b.
Proof. destruct m as [a|e]; simpl; [by exists a|done]. Qed.

Lemma addConnection_Ok from to st st' :
  addConnection from to st = Ok st' ->
  exists targets,
    JsMap.get from (connections st) = Some targets /\
    st' = {| visited := visited st; nodes := nodes st;
             connections := JsMap.set from (JsSet.add to targets) (connections st) |}.
Proof.
  unfold addConnection. destruct (JsMap.get from (connections st)) as [targets|]; [|done].
  intros [= <-]. by exists targets.
Qed.

Section ExploreFacts.
Variable app : App.

(** An invariant of the state that every step of the traversal keeps is
    kept by the traversal.  [E from to] bounds the pairs that get recorded. *)
Section Invariant.
Variable I : ExploreState -> Prop.
Variable E : string -> string -> Prop.
Hypothesis E_forward :
  forall f l, l ∈ getForwardLinks app f -> E (path f) (path l).
Hypothesis E_back :
  forall f l, l ∈ getBacklinks app f -> E (path l) (path f).
Hypothesis I_ensure : forall k st, I st -> I (ensureKey k st).
Hypothesis I_reset : forall k st, I st -> I (resetKey k st).
Hypothesis I_add :
  forall from to st st', E from to -> I st -> addConnection from to st = Ok st' -> I st'.
Hypothesis I_visit :
  forall f lvl back st, path f ∉ visited st -> I st -> I (visit f lvl back st).

Lemma exploreAllConnections_preserves fuel :
  forall file maxDepth currentDepth st st',
    I st ->
    exploreAllConnections app fuel file maxDepth currentDepth st = Ok st' ->
    I st'.
Proof using Type*.
  induction fuel as [|fuel IH]; intros file maxDepth cur st st' Hst; simpl; [done|].
  case_bool_decide; [by intros [= <-]|].
  intros (st1 & Hfwd & Hback)%Res_bind_Ok.
  eapply for_of_preserves in Hback; [exact Hback| |].
  - intros l s s' Hl Hs (s1 & Hadd & Hrest)%Res_bind_Ok.
    assert (I s1) as Hs1 by (eapply I_add; [by apply E_back| |exact Hadd]; by apply I_ensure).
    apply addConnection_Ok in Hadd as (targets & _ & ->).
    simpl in Hrest. case_bool_decide; [by inversion Hrest; subst|].
    eapply IH; [|exact Hrest]. by apply I_visit.
  - eapply for_of_preserves in Hfwd; [exact Hfwd| |by apply I_ensure].
    intros l s s' Hl Hs (s1 & Hadd & Hrest)%Res_bind_Ok.
    assert (I s1) as Hs1 by (eapply I_add; [by apply E_forward|exact Hs|exact Hadd]).
    apply addConnection_Ok in Hadd as (targets & _ & ->).
    simpl in Hrest. case_bool_decide; [by inversion Hrest; subst|].
    eapply IH; [|exact Hrest]. apply I_reset. by apply I_visit.
Qed.
End Invariant.

(** Entries of [connections] are never removed. *)
Lemma exploreAllConnections_has k fuel file maxDepth currentDepth st st' :
  JsMap.has k (connections st) = true ->
  exploreAllConnections app fuel file maxDepth currentDepth st = Ok st' ->
  JsMap.has k (connections st') = true.
Proof.
  apply (exploreAllConnections_preserves
           (fun s => JsMap.has k (connections s) = true) (fun _ _ => True)); try done.
  - intros k' s Hs. unfold ensureKey. destruct (JsMap.has k' (connections s)); [done|].
    simpl. by apply JsMapFacts.has_set.
  - intros k' s Hs. simpl. by apply JsMapFacts.has_set.
  - intros from to s s' _ Hs (targets & _ & ->)%addConnection_Ok. simpl.
    by apply JsMapFacts.has_set.
Qed.

Lemma ensureKey_has k st : JsMap.has k (connections (ensureKey k st)) = true.
Proof.
  unfold ensureKey. destruct (JsMap.has k (connections st)) eqn:Hk; [done|].
  simpl. apply JsMapFacts.has_set_eq.
Qed.

Lemma addConnection_total from to st :
  JsMap.has from (connections st) = true ->
  exists st', addConnection from to st = Ok st'.
Proof.
  unfold addConnection, JsMap.has.
  destruct (JsMap.get from (connections st)); [eauto|done].
Qed.

Lemma addConnection_has k from to st st' :
  JsMap.has k (connections st) = true ->
  addConnection from to st = Ok st' ->
  JsMap.has k (connections st') = true.
Proof.
  intros Hk (targets & _ & ->)%addConnection_Ok. simpl. by apply JsMapFacts.has_set.
Qed.

(** The traversal returns: the recursion depth is bounded by [maxDepth], and
    no non-null assertion fails. *)
Lemma exploreAllConnections_total fuel :
  forall file maxDepth currentDepth st,
    0 < fuel -> maxDepth + 1 < fuel + currentDepth ->
    exists st', exploreAllConnections app fuel file maxDepth currentDepth st = Ok st'.
Proof.
  induction fuel as [|fuel IH]; intros file maxDepth cur st Hpos Hfuel; simpl.
  - lia.
  - case_bool_decide; [eauto|].
    set (J := fun s : ExploreState => JsMap.has (path file) (connections s) = true).
    match goal with |- context [for_of (getForwardLinks app file) ?body ?s0] =>
      destruct (for_of_total J body (getForwardLinks app file)) with (s := s0)
        as (st1 & -> & Hst1) end.
    + intros l s _ Hs. destruct (addConnection_total (path file) (path l) s Hs) as [s1 Hs1].
      rewrite Hs1. simpl. pose proof (addConnection_has _ _ _ _ _ Hs Hs1) as Hs1'.
      apply addConnection_Ok in Hs1 as (targets & _ & ->). simpl.
      case_bool_decide; [eauto|].
      match goal with |- context [exploreAllConnections _ _ _ _ _ ?s2] =>
        destruct (IH l maxDepth (S cur) s2) as [s3 Hs3]; [lia|lia|] end.
      exists s3. split; [done|].
      eapply exploreAllConnections_has; [|exact Hs3]. simpl.
      by apply JsMapFacts.has_set.
    + apply ensureKey_has.
    + simpl.
      match goal with |- context [for_of (getBacklinks app file) ?body ?s0] =>
        destruct (for_of_total (fun _ => True) body (getBacklinks app file)) with (s := s0)
          as (st2 & -> & _); [|done|eauto] end.
      intros l s _ _.
      destruct (addConnection_total (path l) (path file) (ensureKey (path l) s))
        as [s1 Hs1]; [apply ensureKey_has|].
      rewrite Hs1. simpl.
      apply addConnection_Ok in Hs1 as (targets & _ & ->). simpl.
      case_bool_decide; [eauto|].
      match goal with |- context [exploreAllConnections _ _ _ _ _ ?s2] =>
        destruct (IH l maxDepth (S cur) s2) as [s3 Hs3]; [lia|lia|] end.
      eauto.
Qed.
End ExploreFacts.

Lemma exploreAllConnections_wellVisited app fuel file maxDepth currentDepth st st' :
  wellVisited st ->
  exploreAllConnections app fuel file maxDepth currentDepth st = Ok st' ->
  wellVisited st'.
Proof.
  apply (exploreAllConnections_preserves app wellVisited (fun _ _ => True)); try done.
  - intros k s Hs. unfold ensureKey. by destruct (JsMap.has k (connections s)).
  - by intros from to s s' _ Hs (targets & _ & ->)%addConnection_Ok.
  - intros f lvl back s Hf [Hnd Hvis]. unfold wellVisited, documents; simpl.
    rewrite fmap_app; simpl. split.
    + apply NoDup_app. split; [done|]. split; [|apply NoDup_singleton].
      intros p Hp ->%list_elem_of_singleton. by apply Hf, Hvis.
    + intros p [Hp| ->%list_elem_of_singleton]%elem_of_app; [|set_solver].
      apply elem_of_union_r. by apply Hvis.
Qed.

Lemma exploreAllConnections_noSelfLoops app fuel file maxDepth currentDepth st st' :
  (forall f l, l ∈ getForwardLinks app f -> path l <> path f) ->
  (forall f l, l ∈ getBacklinks app f -> path l <> path f) ->
  noSelfLoops (connections st) ->
  exploreAllConnections app fuel file maxDepth currentDepth st = Ok st' ->
  noSelfLoops (connections st').
Proof.
  intros Hfwd Hback.
  apply (exploreAllConnections_preserves app
           (fun s => noSelfLoops (connections s)) (fun from to => from <> to)).
  - intros f l Hl Heq. by apply (Hfwd f l).
  - intros f l Hl. by apply Hback.
  - intros k s Hs. unfold ensureKey. destruct (JsMap.has k (connections s)); [done|].
    simpl. intros src targets [[_ ->]|Hin]%JsMapFacts.elem_of_set; [set_solver|by apply Hs].
  - intros k s Hs. simpl.
    intros src targets [[_ ->]|Hin]%JsMapFacts.elem_of_set; [set_solver|by apply Hs].
  - intros from to s s' Hne Hs (targets & Hget & ->)%addConnection_Ok. simpl.
    intros src tg [[-> ->]|Hin]%JsMapFacts.elem_of_set; [|by apply Hs].
    intros [Heq|Hin]%elem_of_JsSet_add; [done|].
    by apply (Hs from targets); [apply obj_get_elem_of|].
  - done.
Qed.

(** More fuel does not change the outcome of a run that returned. *)
Lemma for_of_mono {A S : Type} (body body' : A -> S -> Res S) l :
  (forall a s s', body a s = Ok s' -> body' a s = Ok s') ->
  forall s s', for_of l body s = Ok s' -> for_of l body' s = Ok s'.
Proof.
  intros Hb. induction l as [|a l IH]; simpl; intros s s'; [done|].
  destruct (body a s) as [s1|] eqn:H1; [|done].
  rewrite (Hb _ _ _ H1). apply IH.
Qed.

Lemma exploreAllConnections_fuel_mono app fuel :
  forall file maxDepth currentDepth st st',
    exploreAllConnections app fuel file maxDepth currentDepth st = Ok st' ->
    exploreAllConnections app (S fuel) file maxDepth currentDepth st = Ok st'.
Proof.
  induction fuel as [|fuel IH]; intros file maxDepth cur st st'; [done|].
  intros Hrun. simpl in Hrun.
  remember (S fuel) as fuel1 eqn:Hfuel1. simpl.
  case_bool_decide; [done|].
  apply Res_bind_Ok in Hrun as (st1 & Hfwd & Hback).
  eapply for_of_mono in Hfwd as ->.
  - eapply for_of_mono; [|exact Hback].
    intros l s s' (s1 & -> & Hrest)%Res_bind_Ok.
    cbn [mbind Res_bind]. case_bool_decide; [done|]. subst fuel1. by apply IH.
  - intros l s s' (s1 & -> & Hrest)%Res_bind_Ok.
    cbn [mbind Res_bind]. case_bool_decide; [done|]. subst fuel1. by apply IH.
Qed.

Lemma getAllNodesAndConnections_fuel_irrelevant app centerFile depth fuel fuel' st :
  fuel <= fuel' ->
  getAllNodesAndConnections app fuel centerFile depth = Ok st ->
  getAllNodesAndConnections app fuel' centerFile depth = Ok st.
Proof.
  unfold getAllNodesAndConnections. induction 1 as [|fuel' _ IH]; [done|].
  intros Hrun. by apply exploreAllConnections_fuel_mono, IH.
Qed.

Lemma getAllNodesAndConnections_wellVisited app fuel centerFile depth st :
  getAllNodesAndConnections app fuel centerFile depth = Ok st -> wellVisited st.
Proof.
  unfold getAllNodesAndConnections. apply exploreAllConnections_wellVisited.
  split; simpl.
  - apply NoDup_singleton.
  - intros p ->%list_elem_of_singleton. set_solver.
Qed.

(** C3.  On every link index, cyclic or not, and for every [maxDepth], the
    exploration returns as soon as the fuel exceeds the depth bound (no run
    is cut short, no lookup fails), and the node list it returns names every
    document at most once. *)
Theorem explore_terminates_without_duplicates app centerFile depth fuel :
  depth < fuel ->
  exists st,
    getAllNodesAndConnections app fuel centerFile depth = Ok st /\
    NoDup (documents (nodes st)).
Proof.
  intros Hfuel. unfold getAllNodesAndConnections.
  match goal with |- context [exploreAllConnections _ _ _ _ _ ?s0] =>
    destruct (exploreAllConnections_total app fuel centerFile depth 1 s0) as [st Hst];
      [lia|lia|]; set (st0 := s0) in * end.
  exists st. split; [done|].
  by apply (getAllNodesAndConnections_wellVisited app fuel centerFile depth st).
Qed.

Lemma explore_terminates_without_duplicates_witness :
  exists st,
    getAllNodesAndConnections Cyclic.app 4 Cyclic.A 3 = Ok st /\
    NoDup (documents (nodes st)).
Proof. apply (explore_terminates_without_duplicates Cyclic.app Cyclic.A 3 4). lia. Defined.

(** C5, as the code has it.  When no document of the link index lists itself
    among its forward links or its backlinks, the connections an exploration
    returns hold no self-loop. *)
Theorem explore_noSelfLoops app centerFile depth fuel st :
  (forall f l, l ∈ getForwardLinks app f -> path l <> path f) ->
  (forall f l, l ∈ getBacklinks app f -> path l <> path f) ->
  getAllNodesAndConnections app fuel centerFile depth = Ok st ->
  noSelfLoops (connections st).
Proof.
  intros Hfwd Hback. unfold getAllNodesAndConnections.
  apply exploreAllConnections_noSelfLoops; [done|done|]. simpl.
  intros src targets Hin. apply list_elem_of_singleton in Hin. simplify_eq. set_solver.
Qed.

(** Evaluates the links collected from a closed list of entries. *)
Ltac eval_links :=
  repeat match goal with
  | |- context [flat_map ?g ?xs] =>
      let v := eval vm_compute in (flat_map g xs) in change (flat_map g xs) with v
  end.

Lemma TwoNotes_forward_irreflexive f l :
  l ∈ getForwardLinks TwoNotes.app f -> path l <> path f.
Proof.
  unfold getForwardLinks, TwoNotes.app. cbn [resolvedLinks obj_get].
  destruct (String.eqb_spec "A.md" (path f)) as [<-|_].
  - eval_links. by intros ->%list_elem_of_singleton.
  - destruct (String.eqb_spec "B.md" (path f)); eval_links; by intros ?%elem_of_nil.
Qed.

Lemma TwoNotes_back_irreflexive f l :
  l ∈ getBacklinks TwoNotes.app f -> path l <> path f.
Proof.
  unfold getBacklinks, TwoNotes.app. cbn [resolvedLinks flat_map obj_get].
  destruct (String.eqb_spec "B.md" (path f)) as [<-|_].
  - vm_compute (mdFile _ _). by intros ->%list_elem_of_singleton.
  - by intros ?%elem_of_nil.
Qed.

Lemma explore_noSelfLoops_witness :
  match getAllNodesAndConnections TwoNotes.app 2 TwoNotes.A 1 with
  | Ok st => noSelfLoops (connections st)
  | Err _ => False
  end.
Proof.
  destruct (getAllNodesAndConnections TwoNotes.app 2 TwoNotes.A 1) as [st|e] eqn:Hrun.
  - exact (explore_noSelfLoops TwoNotes.app TwoNotes.A 1 2 st
             TwoNotes_forward_irreflexive TwoNotes_back_irreflexive Hrun).
  - vm_compute in Hrun. discriminate Hrun.
Defined.

(** C5 as stated fails: a note that links to itself is its own forward link,
    and the exploration records the pair. *)
Lemma explore_selfLoop_counterexample :
  exists st,
    getAllNodesAndConnections Cyclic.app 2 Cyclic.A 1 = Ok st /\
    ~ noSelfLoops (connections st).
Proof.
  eexists. split; [vm_compute; reflexivity|].
  intros H. apply (H "A.md" ["A.md"; "B.md"]); [left|left].
Qed.

(** ** Sorting *)

Lemma sort_insert_perm {A : Type} (le : A -> A -> bool) a l :
  sort_insert le a l ≡ₚ a :: l.
Proof.
  induction l as [|b l IH]; simpl; [done|].
  destruct (le a b); [done|]. rewrite IH. apply Permutation_swap.
Qed.

Lemma js_sort_perm {A : Type} (le : A -> A -> bool) l : js_sort le l ≡ₚ l.
Proof.
  induction l as [|a l IH]; simpl; [done|].
  by rewrite sort_insert_perm, IH.
Qed.

(** ** Rational comparisons *)

Lemma Qltb_true a b : Qltb a b = true <-> (a < b)%Q.
Proof.
  unfold Qltb. rewrite negb_true_iff, <- not_true_iff_false, Qle_bool_iff.
  split; [apply Qnot_le_lt|apply Qlt_not_le].
Qed.

Lemma Qltb_false a b : Qltb a b = false <-> (b <= a)%Q.
Proof. unfold Qltb. by rewrite negb_false_iff, Qle_bool_iff. Qed.

Lemma Qle_bool_false a b : Qle_bool a b = false -> (b <= a)%Q.
Proof.
  intros H. apply Qlt_le_weak, Qnot_le_lt. by rewrite <- Qle_bool_iff, H.
Qed.

(** Linear arithmetic over the layout constants; halving is a product. *)
Ltac q_arith :=
  unfold nodeHeight, nodeWidth, verticalSpacing, horizontalSpacing, Qdiv in *;
  change (/ 2)%Q with (1 # 2)%Q in *;
  lra.

(** The conflict test in closed form: the two centres are less than 220
    apart. *)
Lemma overlaps_false newY existingY :
  overlaps newY existingY = false <->
  (existingY + 220 <= newY)%Q \/ (newY + 220 <= existingY)%Q.
Proof.
  unfold overlaps. rewrite andb_false_iff, !Qltb_false.
  split; (intros [H|H]; [left|right]); q_arith.
Qed.

Lemma sort_insert_sorted a l :
  StronglySorted Qle l -> StronglySorted Qle (sort_insert Qle_bool a l).
Proof.
  induction 1 as [|b l Hl IH Hb]; simpl.
  - by repeat constructor.
  - destruct (Qle_bool a b) eqn:Hab.
    + apply Qle_bool_iff in Hab. constructor; [by constructor|].
      constructor; [done|]. eapply Forall_impl; [exact Hb|].
      intros c Hc. simpl in Hc. by apply Qle_trans with b.
    + apply Qle_bool_false in Hab. constructor; [done|].
      rewrite sort_insert_perm. by constructor.
Qed.

Lemma js_sort_sorted l : StronglySorted Qle (js_sort Qle_bool l).
Proof.
  induction l as [|a l IH]; simpl; [constructor|by apply sort_insert_sorted].
Qed.

(** ** Placement of one new node *)

Lemma filter_nil_false {A : Type} (f : A -> bool) l x :
  List.filter f l = [] -> x ∈ l -> f x = false.
Proof.
  intros Hnil Hx. destruct (f x) eqn:Hfx; [|done].
  assert (In x (List.filter f l)) as Hin
    by (apply filter_In; split; [by apply list_elem_of_In|done]).
  rewrite Hnil in Hin. destruct Hin.
Qed.

Lemma conflictsAt_nil existing y e :
  conflictsAt existing y = [] -> e ∈ existing -> overlaps y (node_y e) = false.
Proof. unfold conflictsAt. intros Hnil He. by apply (filter_nil_false _ _ e) in Hnil. Qed.

Lemma conflictsAt_cons_inv existing y c cs :
  conflictsAt existing y = c :: cs -> c ∈ existing.
Proof.
  unfold conflictsAt. intros H.
  assert (In c (List.filter (fun n => overlaps y (node_y n)) existing)) as Hin
    by (rewrite H; by left).
  apply filter_In in Hin as [Hin _]. by apply list_elem_of_In.
Qed.

(** A gap found in a sorted list is clear of every listed position. *)
Lemma findGap_clear ys g :
  StronglySorted Qle ys -> findGap ys = Some g ->
  (forall y, y ∈ ys -> (y + 220 <= g)%Q \/ (g + 220 <= y)%Q) /\
  match ys with
  | a :: _ => (a + 220 <= g)%Q
  | [] => True
  end.
Proof.
  induction 1 as [|a rest Hrest IH Ha]; simpl; [done|].
  destruct rest as [|b r]; [done|].
  apply Forall_cons in Ha as [Hab Har].
  apply StronglySorted_inv in Hrest as [_ Hbr].
  destruct (Qle_bool nodeHeight _) eqn:Hgap.
  - apply Qle_bool_iff in Hgap. intros [= <-]. split; [|q_arith].
    intros y [->|[->|Hy]%elem_of_cons]%elem_of_cons.
    + left. q_arith.
    + right. q_arith.
    + right. rewrite Forall_forall in Hbr. specialize (Hbr y Hy). q_arith.
  - intros Hg. destruct (IH Hg) as [Hall Hb]. split; [|q_arith].
    intros y [->|Hy]%elem_of_cons; [left; q_arith|by apply Hall].
Qed.

Lemma foldl_Qmax_le a rest :
  (a <= foldl Qmax a rest)%Q /\ forall y, y ∈ rest -> (y <= foldl Qmax a rest)%Q.
Proof.
  revert a. induction rest as [|b rest IH]; intros a; simpl.
  - split; [apply Qle_refl|]. by intros y ?%elem_of_nil.
  - destruct (IH (Qmax a b)) as [Hab Hrest]. split.
    + eapply Qle_trans; [apply Q.le_max_l|exact Hab].
    + intros y [->|Hy]%elem_of_cons; [|by apply Hrest].
      eapply Qle_trans; [apply Q.le_max_r|exact Hab].
Qed.

Lemma Math_max_le l m y : Math_max l = Some m -> y ∈ l -> (y <= m)%Q.
Proof.
  destruct l as [|a rest]; simpl; [done|]. intros [= <-].
  destruct (foldl_Qmax_le a rest) as [Ha Hrest].
  intros [->|Hy]%elem_of_cons; [done|by apply Hrest].
Qed.

Lemma sorted_positions_elem existing e :
  e ∈ existing -> node_y e ∈ js_sort Qle_bool (node_y <$> existing).
Proof.
  intros He. rewrite js_sort_perm. apply list_elem_of_fmap. by exists e.
Qed.

(** The position chosen for a new node is clear of every node of the column. *)
Lemma bestYFor_clear existing idealY bestY e :
  bestYFor existing idealY = Ok bestY -> e ∈ existing ->
  overlaps bestY (node_y e) = false.
Proof.
  unfold bestYFor. intros Hrun He.
  destruct (conflictsAt existing idealY) as [|conflict ?] eqn:H0.
  { injection Hrun as <-. by eapply conflictsAt_nil. }
  destruct (conflictsAt existing _) as [|? ?] eqn:H1 in Hrun.
  { injection Hrun as <-. by eapply conflictsAt_nil. }
  destruct (conflictsAt existing _) as [|? ?] eqn:H2 in Hrun.
  { injection Hrun as <-. by eapply conflictsAt_nil. }
  pose proof (sorted_positions_elem existing e He) as Hy.
  destruct (findGap _) as [g|] eqn:Hgap.
  - injection Hrun as <-. apply overlaps_false.
    by apply (findGap_clear _ _ (js_sort_sorted _) Hgap).
  - destruct (Math_max _) as [maxY|] eqn:Hmax; [|done].
    injection Hrun as <-. apply overlaps_false. left.
    pose proof (Math_max_le _ _ _ Hmax Hy). q_arith.
Qed.

(** It is always a finite number: [Math.max] is only reached with a
    non-empty column. *)
Lemma bestYFor_total existing idealY : exists bestY, bestYFor existing idealY = Ok bestY.
Proof.
  unfold bestYFor.
  destruct (conflictsAt existing idealY) as [|conflict ?] eqn:H0; [eauto|].
  apply conflictsAt_cons_inv, sorted_positions_elem in H0.
  destruct (conflictsAt existing _) as [|? ?]; [eauto|].
  destruct (conflictsAt existing _) as [|? ?]; [eauto|].
  destruct (findGap _) as [g|]; [eauto|].
  destruct (js_sort Qle_bool (node_y <$> existing)) as [|a rest]; [|simpl; eauto].
  by apply elem_of_nil in H0.
Qed.

Lemma newNodePositions_run existing (targetX idealStartY : Q) idxs :
  forall acc : list (Q * Q),
  exists ys,
    for_of idxs (positionStep existing targetX idealStartY) acc
    = Ok (acc ++ ((fun y => (targetX, y)) <$> ys)) /\
    length ys = length idxs /\
    forall y e, y ∈ ys -> e ∈ existing -> overlaps y (node_y e) = false.
Proof.
  induction idxs as [|i idxs IH]; intros acc; simpl.
  - exists []. simpl. rewrite app_nil_r. split; [done|]. split; [done|].
    by intros y e ?%elem_of_nil.
  - unfold positionStep at 1.
    destruct (bestYFor_total existing
                (idealStartY + inject_Z (Z.of_nat i) * verticalSpacing)%Q) as [y Hy].
    rewrite Hy. cbn [mbind Res_bind].
    destruct (IH (acc ++ [(targetX, y)])) as (ys & -> & Hlen & Hclear).
    exists (y :: ys). split; [by rewrite <- app_assoc|]. split; [simpl; lia|].
    intros y' e [->|Hy']%elem_of_cons He; [by eapply bestYFor_clear|by apply Hclear].
Qed.

Lemma newNodePositionsFor_spec existing targetX idealStartY count :
  exists ys,
    newNodePositionsFor existing targetX idealStartY count
      = Ok ((fun y => (targetX, y)) <$> ys) /\
    length ys = count /\
    forall y e, y ∈ ys -> e ∈ existing -> overlaps y (node_y e) = false.
Proof.
  unfold newNodePositionsFor.
  destruct (newNodePositions_run existing targetX idealStartY (seq 0 count) [])
    as (ys & Hrun & Hlen & Hclear).
  exists ys. by rewrite Hrun, Hlen, length_seq.
Qed.

(** ** Expansion *)

Lemma addNodes_spec entropy direction focusNode todo :
  forall i acc,
    addNodes entropy direction focusNode i todo acc =
    {| acc_nodes := acc_nodes acc ++ (addedFrom entropy direction focusNode i todo).*1;
       acc_edges := acc_edges acc ++ (addedFrom entropy direction focusNode i todo).*2;
       newNodes := newNodes acc ++ (addedFrom entropy direction focusNode i todo).*1 |}.
Proof.
  induction todo as [|[linkedFile position] todo IH]; intros i acc; simpl.
  - rewrite !app_nil_r. by destruct acc.
  - rewrite IH. simpl. by rewrite <- !app_assoc.
Qed.

Lemma addedFrom_length entropy direction focusNode todo :
  forall i, length (addedFrom entropy direction focusNode i todo) = length todo.
Proof.
  induction todo as [|[linkedFile position] todo IH]; intros i; simpl; [done|].
  by rewrite IH.
Qed.

Lemma addedFrom_files entropy direction focusNode (targetX : Q) files :
  forall i ys,
    length ys = length files ->
    node_file <$> (addedFrom entropy direction focusNode i
                     (zip files ((fun y => (targetX, y)) <$> ys))).*1
    = path <$> files.
Proof.
  induction files as [|f files IH]; intros i [|y ys] Hlen; simpl in *; try done.
  f_equal. apply IH. lia.
Qed.

Lemma addedFrom_joins entropy direction focusNode todo :
  forall i n e,
    (n, e) ∈ addedFrom entropy direction focusNode i todo ->
    joinsFocus direction focusNode n e.
Proof.
  induction todo as [|[linkedFile position] todo IH]; intros i n e; simpl.
  - by intros ?%elem_of_nil.
  - intros [Heq|Hin]%elem_of_cons; [|by eapply IH].
    injection Heq as -> ->. unfold joinsFocus. by destruct direction.
Qed.

Lemma addedFrom_positions entropy direction focusNode (targetX : Q) files :
  forall i ys n,
    n ∈ (addedFrom entropy direction focusNode i
           (zip files ((fun y => (targetX, y)) <$> ys))).*1 ->
    node_x n = targetX /\ node_y n ∈ ys.
Proof.
  induction files as [|f files IH]; intros i [|y ys] n; simpl;
    try by intros ?%elem_of_nil.
  intros [->|Hin]%elem_of_cons; simpl.
  - split; [done|left].
  - destruct (IH _ _ _ Hin) as [Hx Hy]. split; [done|by right].
Qed.

(** The two ways a call on a well-formed canvas ends: an early return, or
    one node and one edge per link that was not on the canvas. *)
Lemma expandCanvas_cases app entropy now canvasData focusNote direction :
  let nodesToAdd := nodesToAddOf app canvasData focusNote direction in
  (aborts app (Json canvasData) focusNote direction /\
   expandCanvas app entropy now (Json canvasData) focusNote direction
     = Ok (Json canvasData)) \/
  (exists focusNode ys,
     let targetX := targetXOf focusNode direction in
     let added := addedFrom entropy direction focusNode 0
                    (zip nodesToAdd ((fun y => (targetX, y)) <$> ys)) in
     findFocusNode canvasData focusNote = Some focusNode /\
     nodesToAdd <> [] /\
     length ys = length nodesToAdd /\
     (forall y e, y ∈ ys ->
        e ∈ existingNodesAt targetX (canvas_nodes canvasData) ->
        overlaps y (node_y e) = false) /\
     expandCanvas app entropy now (Json canvasData) focusNote direction
       = Ok (Json {| canvas_nodes := canvas_nodes canvasData ++ added.*1;
                     canvas_edges := canvas_edges canvasData ++ added.*2;
                     canvas_meta :=
                       {| created := created (canvas_meta canvasData);
                          modified := now |} |})).
Proof.
  intros nodesToAdd. unfold expandCanvas, aborts. fold nodesToAdd.
  destruct nodesToAdd as [|f0 rest] eqn:Htodo; [left; by split; [left|]|].
  rewrite <- Htodo. replace (length nodesToAdd =? 0)%nat with false
    by (rewrite Htodo; done).
  destruct (findFocusNode canvasData focusNote) as [focusNode|] eqn:Hfocus;
    [|left; by split; [right|]].
  right. exists focusNode.
  destruct (newNodePositionsFor_spec
              (existingNodesAt (targetXOf focusNode direction) (canvas_nodes canvasData))
              (targetXOf focusNode direction)
              (node_y focusNode
               - (inject_Z (Z.of_nat (length nodesToAdd) - 1) * verticalSpacing) / 2)%Q
              (length nodesToAdd)) as (ys & Hpos & Hlen & Hclear).
  exists ys. cbv zeta. rewrite Hpos. cbn [mbind Res_bind].
  rewrite addNodes_spec. cbn [acc_nodes acc_edges newNodes]. rewrite app_nil_l.
  split; [done|]. split; [by rewrite Htodo|]. split; [done|]. split; [done|].
  rewrite length_fmap, addedFrom_length, length_zip, length_fmap, Hlen, Nat.min_id.
  by rewrite Htodo.
Qed.

Lemma filter_none {A : Type} (P : A -> Prop) `{!forall x, Decision (P x)} (l : list A) :
  (forall x, x ∈ l -> ~ P x) -> filter P l = [].
Proof.
  intros Hall. destruct (filter P l) as [|x rest] eqn:Hf; [done|].
  assert (x ∈ filter P l) as [HP Hx]%list_elem_of_filter by (rewrite Hf; left).
  by destruct (Hall x Hx).
Qed.

(** After a call that went through, every link of the focus note is on the
    canvas. *)
Lemma nodesToAddOf_after app canvasData canvasData' focusNote direction :
  path <$> nodesToAddOf app canvasData focusNote direction
    ⊆ node_file <$> canvas_nodes canvasData' ->
  canvas_nodes canvasData ⊆ canvas_nodes canvasData' ->
  nodesToAddOf app canvasData' focusNote direction = [].
Proof.
  intros Hnew Hold. unfold nodesToAddOf at 1. apply filter_none.
  intros l Hl Hfresh. apply Hfresh. apply elem_of_list_to_set.
  destruct (decide (path l ∈ node_file <$> canvas_nodes canvasData)) as [Hin|Hout].
  - apply list_elem_of_fmap in Hin as (n & -> & Hn).
    apply list_elem_of_fmap. exists n. split; [done|by apply Hold].
  - apply Hnew, list_elem_of_fmap. exists l. split; [done|].
    unfold nodesToAddOf. apply list_elem_of_filter. split; [|done].
    by rewrite elem_of_list_to_set.
Qed.

(** With every link already on the canvas the call returns at once. *)
Lemma expandCanvas_nothing_to_add app entropy now canvasData focusNote direction :
  nodesToAddOf app canvasData focusNote direction = [] ->
  expandCanvas app entropy now (Json canvasData) focusNote direction
    = Ok (Json canvasData).
Proof. unfold expandCanvas. by intros ->. Qed.

(** C7.  On each of its three abort paths (the canvas text does not parse,
    no link of the focus note is missing from the canvas, the focus note has
    no node on the canvas) the call returns with the canvas file exactly as
    it was read. *)
Theorem expandCanvas_abort_unchanged app entropy now content focusNote direction :
  aborts app content focusNote direction ->
  expandCanvas app entropy now content focusNote direction = Ok content.
Proof.
  destruct content as [canvasData|raw]; [|done].
  intros Habort.
  destruct (expandCanvas_cases app entropy now canvasData focusNote direction)
    as [[_ Hrun]|(focusNode & ys & Hfocus & Htodo & _)]; [done|].
  destruct Habort as [Hnone|Hnone]; [done|]. by rewrite Hfocus in Hnone.
Qed.

Lemma expandCanvas_abort_unchanged_witness :
  expandCanvas Crowded.app Crowded.entropy "t1" (Malformed "{") Crowded.A Right
    = Ok (Malformed "{") /\
  expandCanvas Crowded.app Crowded.entropy "t1" (Json Crowded.alone) Crowded.A Left
    = Ok (Json Crowded.alone) /\
  expandCanvas Crowded.app Crowded.entropy "t1" (Json Crowded.alone) Crowded.C Right
    = Ok (Json Crowded.alone).
Proof.
  split; [|split].
  - apply (expandCanvas_abort_unchanged Crowded.app Crowded.entropy "t1"
             (Malformed "{") Crowded.A Right). exact I.
  - apply (expandCanvas_abort_unchanged Crowded.app Crowded.entropy "t1"
             (Json Crowded.alone) Crowded.A Left). left. vm_compute. reflexivity.
  - apply (expandCanvas_abort_unchanged Crowded.app Crowded.entropy "t1"
             (Json Crowded.alone) Crowded.C Right). right. vm_compute. reflexivity.
Defined.

(** C8.  A call adds its nodes and edges in pairs: one edge per new node,
    between the focus node and that node, leaving the right side of its
    source and entering the left side of its target; to the left the new node
    is the source, to the right the focus node is. *)
Theorem expandCanvas_edges_join_focus app entropy now canvasData focusNote direction :
  exists canvasData' added,
    expandCanvas app entropy now (Json canvasData) focusNote direction
      = Ok (Json canvasData') /\
    canvas_nodes canvasData' = canvas_nodes canvasData ++ added.*1 /\
    canvas_edges canvasData' = canvas_edges canvasData ++ added.*2 /\
    forall n e, (n, e) ∈ added ->
      exists focusNode,
        findFocusNode canvasData focusNote = Some focusNode /\
        joinsFocus direction focusNode n e.
Proof.
  destruct (expandCanvas_cases app entropy now canvasData focusNote direction)
    as [[_ Hrun]|(focusNode & ys & Hfocus & _ & _ & _ & Hrun)].
  - exists canvasData, []. simpl. rewrite !app_nil_r.
    split; [done|]. split; [done|]. split; [done|]. by intros n e ?%elem_of_nil.
  - eexists _, _. split; [exact Hrun|]. simpl. split; [done|]. split; [done|].
    intros n e Hin. exists focusNode. split; [done|]. by eapply addedFrom_joins.
Qed.

(** C9.  A call only appends: the nodes and edges read from the canvas are
    the first nodes and edges of what it writes, unchanged and in place, and
    of the metadata only [modified] may differ. *)
Theorem expandCanvas_append_only app entropy now content focusNote direction :
  exists content',
    expandCanvas app entropy now content focusNote direction = Ok content' /\
    match content, content' with
    | Json canvasData, Json canvasData' =>
        canvas_nodes canvasData `prefix_of` canvas_nodes canvasData' /\
        canvas_edges canvasData `prefix_of` canvas_edges canvasData' /\
        created (canvas_meta canvasData') = created (canvas_meta canvasData)
    | Malformed raw, Malformed raw' => raw = raw'
    | _, _ => False
    end.
Proof.
  destruct content as [canvasData|raw]; [|by exists (Malformed raw)].
  destruct (expandCanvas_cases app entropy now canvasData focusNote direction)
    as [[_ Hrun]|(focusNode & ys & _ & _ & _ & _ & Hrun)].
  - by exists (Json canvasData).
  - eexists. split; [exact Hrun|]. simpl.
    split; [by eexists|]. split; [by eexists|done].
Qed.

(** C6.  Expanding twice from the same note in the same direction adds
    nodes and edges the first time only: the second call finds every link
    of the focus note on the canvas (or no focus node, as the first did) and
    returns the canvas file as the first call left it. *)
Theorem expandCanvas_idempotent app entropy now entropy' now' content focusNote direction :
  exists content',
    expandCanvas app entropy now content focusNote direction = Ok content' /\
    expandCanvas app entropy' now' content' focusNote direction = Ok content' /\
    forall canvasData',
      content' = Json canvasData' ->
      is_Some (findFocusNode canvasData' focusNote) ->
      nodesToAddOf app canvasData' focusNote direction = [].
Proof.
  destruct content as [canvasData|raw].
  2:{ exists (Malformed raw). by repeat split. }
  destruct (expandCanvas_cases app entropy now canvasData focusNote direction)
    as [[Habort Hrun]|(focusNode & ys & Hfocus & Htodo & Hlen & _ & Hrun)].
  - exists (Json canvasData). split; [done|]. split.
    + destruct (expandCanvas_cases app entropy' now' canvasData focusNote direction)
        as [[_ Hrun']|(focusNode & ys & Hfocus & Htodo & _)]; [done|].
      destruct Habort as [Hnone|Hnone]; [done|]. by rewrite Hfocus in Hnone.
    + intros d Hd [focusNode Hfocus]. simplify_eq.
      destruct Habort as [Hnone|Hnone]; [done|]. by rewrite Hfocus in Hnone.
  - eexists. split; [exact Hrun|].
    match goal with |- context [Json ?d] => set (canvasData' := d) end.
    assert (nodesToAddOf app canvasData' focusNote direction = []) as Hdone.
    { apply (nodesToAddOf_after app canvasData); simpl.
      - rewrite fmap_app, addedFrom_files by done.
        intros x Hx. apply elem_of_app. by right.
      - intros x Hx. apply elem_of_app. by left. }
    split; [|intros d Hd _; by simplify_eq].
    by apply expandCanvas_nothing_to_add.
Qed.

Lemma existingNodesAt_elem (targetX : Q) canvasNodes e :
  e ∈ canvasNodes -> (Qabs (node_x e - targetX) < nodeWidth + 100)%Q ->
  e ∈ existingNodesAt targetX canvasNodes.
Proof.
  intros He Hx. unfold existingNodesAt. apply list_elem_of_In, filter_In.
  split; [by apply list_elem_of_In|]. by apply Qltb_true.
Qed.

(** A node added by a call is clear of every node that was on the canvas
    before the call and lies in the column of the new node: the box of the
    new node does not reach into the box of the old one widened by the 20px
    buffer. *)
Lemma expandCanvas_new_clear_of_old app entropy now canvasData focusNote direction :
  exists canvasData' addedNodes,
    expandCanvas app entropy now (Json canvasData) focusNote direction
      = Ok (Json canvasData') /\
    canvas_nodes canvasData' = canvas_nodes canvasData ++ addedNodes /\
    forall n e,
      n ∈ addedNodes -> e ∈ canvas_nodes canvasData -> sameColumn e n ->
      overlaps (node_y n) (node_y e) = false.
Proof.
  destruct (expandCanvas_cases app entropy now canvasData focusNote direction)
    as [[_ Hrun]|(focusNode & ys & _ & _ & _ & Hclear & Hrun)].
  - exists canvasData, []. rewrite app_nil_r. split; [done|]. split; [done|].
    by intros n e ?%elem_of_nil.
  - eexists _, _. split; [exact Hrun|]. split; [done|].
    intros n e Hn He Hcol. apply addedFrom_positions in Hn as [Hx Hy].
    apply Hclear; [done|]. apply existingNodesAt_elem; [done|].
    unfold sameColumn in Hcol. by rewrite Hx in Hcol.
Qed.

Lemma overlaps_sym a b : overlaps a b = overlaps b a.
Proof.
  destruct (overlaps b a) eqn:Hba.
  - apply not_false_iff_true. intros Hab%overlaps_false.
    apply not_false_iff_true in Hba. apply Hba, overlaps_false. tauto.
  - apply overlaps_false. apply overlaps_false in Hba. tauto.
Qed.

Lemma sameColumn_sym a b : sameColumn a b -> sameColumn b a.
Proof.
  unfold sameColumn. by rewrite Qabs_Qminus.
Qed.

Lemma Crowded_canvas_noOverlap : noOverlap (canvas_nodes Crowded.canvas).
Proof.
  intros i j a b Hij Ha Hb Hcol. unfold sameColumn in Hcol.
  destruct i as [|[|i]], j as [|[|j]]; simpl in Ha, Hb; simplify_eq; try done;
    vm_compute in Hcol; discriminate Hcol.
Qed.

Lemma Tight_canvas_noOverlapPadded : noOverlapPadded (canvas_nodes Tight.canvas).
Proof.
  intros i j a b Hij Ha Hb Hcol. unfold sameColumn in Hcol.
  destruct i as [|[|i]], j as [|[|j]]; simpl in Ha, Hb; simplify_eq; try done;
    vm_compute in Hcol; discriminate Hcol.
Qed.

(** The test of the specification in closed form: the two centres are less
    than 240 apart.  It is the wider of the two tests. *)
Lemma overlapsPadded_false y1 y2 :
  overlapsPadded y1 y2 = false <-> (y2 + 240 <= y1)%Q \/ (y1 + 240 <= y2)%Q.
Proof.
  unfold overlapsPadded. rewrite andb_false_iff, !Qltb_false.
  split; (intros [H|H]; [left|right]); q_arith.
Qed.

Lemma overlapsPadded_overlaps y1 y2 :
  overlapsPadded y1 y2 = false -> overlaps y1 y2 = false.
Proof.
  rewrite overlapsPadded_false, overlaps_false. intros [H|H]; [left|right]; q_arith.
Qed.

Lemma noOverlapPadded_noOverlap ns : noOverlapPadded ns -> noOverlap ns.
Proof.
  intros Hns i j a b Hij Ha Hb Hcol. by eapply overlapsPadded_overlaps, Hns.
Qed.

Lemma expandCalls_app app calls1 calls2 content during :
  expandCalls app calls1 content = Ok during ->
  expandCalls app (calls1 ++ calls2) content = expandCalls app calls2 during.
Proof.
  revert content. induction calls1 as [|call calls1 IH]; intros content; simpl.
  - by intros [= ->].
  - destruct (expandCanvas _ _ _ _ _ _) as [content'|]; [|done]. simpl. apply IH.
Qed.

(** A sequence of calls only appends, and a node it adds is clear of every
    node of its column that was on the canvas when the sequence started. *)
Lemma expandCalls_clear_of_earlier app calls :
  forall canvasData,
    exists final,
      expandCalls app calls (Json canvasData) = Ok (Json final) /\
      canvas_nodes canvasData `prefix_of` canvas_nodes final /\
      forall i j a b,
        i < length (canvas_nodes canvasData) <= j ->
        canvas_nodes final !! i = Some a ->
        canvas_nodes final !! j = Some b ->
        sameColumn a b -> overlaps (node_y b) (node_y a) = false.
Proof.
  induction calls as [|call calls IH]; intros canvasData.
  { exists canvasData. split; [done|]. split; [done|].
    intros i j a b [_ Hj] _ Hb. apply lookup_lt_Some in Hb. lia. }
  destruct (expandCanvas_new_clear_of_old app (call_entropy call) (call_now call)
              canvasData (call_focus call) (call_direction call))
    as (next & addedNodes & Hrun & Hnodes & Hclear).
  destruct (IH next) as (final & Hrest & [later Hlater] & Hfinal).
  exists final. cbn [expandCalls]. rewrite Hrun. cbn [mbind Res_bind].
  split; [done|]. split.
  { rewrite Hlater, Hnodes, <- app_assoc. by apply prefix_app_r. }
  intros i j a b [Hi Hj] Ha Hb Hcol.
  destruct (decide (j < length (canvas_nodes next))) as [Hnext|Hnext].
  - assert (i < length (canvas_nodes next)) as Hi' by lia.
    rewrite Hlater in Ha, Hb.
    rewrite lookup_app_l in Ha by done. rewrite lookup_app_l in Hb by done.
    rewrite Hnodes in Ha, Hb.
    rewrite lookup_app_l in Ha by done. rewrite lookup_app_r in Hb by done.
    apply Hclear; [by eapply list_elem_of_lookup_2|by eapply list_elem_of_lookup_2|done].
  - apply (Hfinal i j a b); [|done|done|done].
    rewrite Hnodes, length_app in *. lia.
Qed.

(** C4, as the code has it.  After any sequence of calls (here cut in two at
    any point) on a canvas without overlap, two nodes of one column (within
    the tolerance of [nodeWidth + 100]) do not overlap, by the test of the
    code (the box of the new node against the box of the old one widened by
    the 20px buffer), when both were on the canvas at the start, or when one
    of them was on the canvas before the call that added the other.  Only
    the nodes added by one and the same call are not covered. *)
Theorem expandCalls_keep_earlier_nodes_clear app calls1 calls2 canvasData :
  noOverlap (canvas_nodes canvasData) ->
  exists during final,
    expandCalls app calls1 (Json canvasData) = Ok (Json during) /\
    expandCalls app calls2 (Json during) = Ok (Json final) /\
    expandCalls app (calls1 ++ calls2) (Json canvasData) = Ok (Json final) /\
    canvas_nodes canvasData `prefix_of` canvas_nodes during /\
    canvas_nodes during `prefix_of` canvas_nodes final /\
    forall i j a b,
      i <> j ->
      canvas_nodes final !! i = Some a ->
      canvas_nodes final !! j = Some b ->
      (i < length (canvas_nodes canvasData) /\ j < length (canvas_nodes canvasData)) \/
      i < length (canvas_nodes during) <= j \/
      j < length (canvas_nodes during) <= i ->
      sameColumn a b -> overlaps (node_y a) (node_y b) = false.
Proof.
  intros Hold.
  destruct (expandCalls_clear_of_earlier app calls1 canvasData)
    as (during & Hrun1 & Hpre1 & _).
  destruct (expandCalls_clear_of_earlier app calls2 during)
    as (final & Hrun2 & Hpre2 & Hclear).
  exists during, final. split; [done|]. split; [done|].
  split; [by rewrite (expandCalls_app _ _ _ _ _ Hrun1)|]. do 2 (split; [done|]).
  intros i j a b Hij Ha Hb [[Hi Hj]|[Hone|Hone]] Hcol.
  - destruct Hpre1 as [k1 Hk1], Hpre2 as [k2 Hk2].
    rewrite Hk2, Hk1, <- app_assoc in Ha, Hb.
    rewrite lookup_app_l in Ha, Hb by done. by eapply Hold.
  - rewrite overlaps_sym. by eapply Hclear.
  - eapply Hclear; [exact Hone|done|done|]. by apply sameColumn_sym.
Qed.

Lemma Tight_canvas_noOverlap : noOverlap (canvas_nodes Tight.canvas).
Proof. apply noOverlapPadded_noOverlap, Tight_canvas_noOverlapPadded. Qed.

Lemma expandCalls_keep_earlier_nodes_clear_witness :
  exists during final,
    expandCalls Tight.app [Tight.first] (Json Tight.canvas) = Ok (Json during) /\
    expandCalls Tight.app [Tight.second] (Json during) = Ok (Json final) /\
    expandCalls Tight.app ([Tight.first] ++ [Tight.second]) (Json Tight.canvas)
      = Ok (Json final) /\
    canvas_nodes Tight.canvas `prefix_of` canvas_nodes during /\
    canvas_nodes during `prefix_of` canvas_nodes final /\
    forall i j a b,
      i <> j ->
      canvas_nodes final !! i = Some a ->
      canvas_nodes final !! j = Some b ->
      (i < length (canvas_nodes Tight.canvas) /\ j < length (canvas_nodes Tight.canvas)) \/
      i < length (canvas_nodes during) <= j \/
      j < length (canvas_nodes during) <= i ->
      sameColumn a b -> overlaps (node_y a) (node_y b) = false.
Proof.
  apply (expandCalls_keep_earlier_nodes_clear Tight.app [Tight.first] [Tight.second]
           Tight.canvas).
  apply Tight_canvas_noOverlap.
Defined.

(** C4 as stated fails, twice over.  Two links whose ideal positions both
    collide with the same old node are both moved to the slot above it, onto
    each other: nodes of one call are not tested against each other.  And a
    new node is put 230 from an old node of its column: clear by the test of
    the code, which pads one box, but overlapping by the test of the
    specification, which pads both. *)
Lemma expandCanvas_overlap_counterexample :
  (exists canvasData',
     expandCanvas Crowded.app Crowded.entropy "t1" (Json Crowded.canvas) Crowded.A Right
       = Ok (Json canvasData') /\
     noOverlap (canvas_nodes Crowded.canvas) /\
     ~ noOverlap (canvas_nodes canvasData')) /\
  (exists canvasData' old new,
     expandCanvas Tight.app Crowded.entropy "t1" (Json Tight.canvas) Tight.A Right
       = Ok (Json canvasData') /\
     noOverlapPadded (canvas_nodes Tight.canvas) /\
     canvas_nodes canvasData' = canvas_nodes Tight.canvas ++ [new] /\
     old ∈ canvas_nodes Tight.canvas /\
     sameColumn old new /\
     overlaps (node_y new) (node_y old) = false /\
     overlapsPadded (node_y new) (node_y old) = true /\
     ~ noOverlapPadded (canvas_nodes canvasData')).
Proof.
  split.
  - eexists. split; [vm_compute; reflexivity|]. split; [apply Crowded_canvas_noOverlap|].
    intros Hno.
    pose proof (Hno 2 3 _ _ ltac:(done) eq_refl eq_refl) as Hclash.
    specialize (Hclash ltac:(by vm_compute)). vm_compute in Hclash. discriminate Hclash.
  - eexists _, (Crowded.fileNode "node-0" "E.md" 450 230), _.
    split; [vm_compute; reflexivity|].
    split; [apply Tight_canvas_noOverlapPadded|].
    split; [reflexivity|]. split; [right; left|].
    split; [by vm_compute|]. split; [by vm_compute|]. split; [by vm_compute|].
    intros Hno.
    pose proof (Hno 1 2 _ _ ltac:(done) eq_refl eq_refl) as Hclash.
    specialize (Hclash ltac:(by vm_compute)). vm_compute in Hclash. discriminate Hclash.
Qed.

(** ** Layers *)

Lemma layersHolding_cons p (layer : Layer) layers :
  layersHolding p (layer :: layers)
  = (if decide (p ∈ documents layer) then 1 else 0) + layersHolding p layers.
Proof. unfold layersHolding. rewrite filter_cons. by case_decide. Qed.

Lemma layersHolding_app p layers1 layers2 :
  layersHolding p (layers1 ++ layers2)
  = layersHolding p layers1 + layersHolding p layers2.
Proof. unfold layersHolding. by rewrite filter_app, length_app. Qed.

Lemma layersHolding_reverse p layers :
  layersHolding p (reverse layers) = layersHolding p layers.
Proof. unfold layersHolding. by rewrite filter_reverse, length_reverse. Qed.

Lemma layersHolding_nonempty p (layers : list Layer) :
  layersHolding p (filter (fun l : Layer => 0 < length l) layers)
  = layersHolding p layers.
Proof.
  unfold layersHolding. rewrite list_filter_filter. f_equal.
  apply list_filter_iff. intros layer. split; [by intros [? _]|].
  intros Hp. split; [done|]. destruct layer; [|simpl; lia].
  by apply elem_of_nil in Hp.
Qed.

Lemma layersHolding_sorted p (le : GraphNode -> GraphNode -> bool) (layers : list Layer) :
  layersHolding p (js_sort le <$> layers) = layersHolding p layers.
Proof.
  induction layers as [|layer layers IH]; [done|].
  rewrite fmap_cons, !layersHolding_cons, IH. f_equal.
  apply decide_ext. unfold documents. by rewrite js_sort_perm.
Qed.

Lemma layersHolding_replicate p n : layersHolding p (replicate n []) = 0.
Proof.
  induction n as [|n IH]; [done|]. simpl. rewrite layersHolding_cons, IH.
  rewrite decide_False; [done|]. by intros ?%elem_of_nil.
Qed.

Lemma documents_push (layer : Layer) m p :
  p ∈ documents (layer ++ [m]) <-> p ∈ documents layer \/ p = path (file m).
Proof.
  unfold documents. rewrite fmap_app, elem_of_app. simpl.
  by rewrite list_elem_of_singleton.
Qed.

(** Pushing a node of another document changes no count. *)
Lemma layersHolding_alter_other p m i (layers : list Layer) :
  path (file m) <> p ->
  layersHolding p (alter (fun l => l ++ [m]) i layers) = layersHolding p layers.
Proof.
  intros Hne. revert i. induction layers as [|layer layers IH]; intros [|i]; simpl;
    try done; rewrite !layersHolding_cons.
  - f_equal. apply decide_ext. rewrite documents_push.
    split; [intros [?|?]; [done|by subst]|by left].
  - f_equal. apply IH.
Qed.

(** Pushing the first node of a document makes its count one. *)
Lemma layersHolding_alter_new p m i (layers : list Layer) :
  path (file m) = p -> i < length layers -> layersHolding p layers = 0 ->
  layersHolding p (alter (fun l => l ++ [m]) i layers) = 1.
Proof.
  intros Hp. revert i. induction layers as [|layer layers IH]; intros [|i]; simpl;
    try lia; rewrite !layersHolding_cons; intros Hi Hzero.
  - rewrite decide_True by (apply documents_push; by right). lia.
  - case_decide; [lia|]. simpl. apply IH; lia.
Qed.

Lemma maxLevel_ge x levels : x ∈ levels -> x <= maxLevel levels.
Proof.
  induction levels as [|y levels IH]; simpl; [by intros ?%elem_of_nil|].
  intros [->|Hx]%elem_of_cons; [lia|]. specialize (IH Hx). lia.
Qed.

Section OrganizeFacts.
Variable localeCompare : string -> string -> Z.
Variable centerFile : TFile.

Lemma addToLayer_length ls node :
  length (addToLayer centerFile ls node).1 = length ls.1 /\
  length (addToLayer centerFile ls node).2 = length ls.2.
Proof.
  destruct ls as [bl fl]. unfold addToLayer.
  repeat (case_match || case_bool_decide); simpl; by rewrite ?length_alter.
Qed.

(** The count of a document is not changed by nodes of other documents, nor
    by nodes of the centre file, which the loop skips. *)
Lemma addToLayer_other p ls node :
  (path (file node) = p -> p = path centerFile) ->
  layersHolding p (addToLayer centerFile ls node).1 = layersHolding p ls.1 /\
  layersHolding p (addToLayer centerFile ls node).2 = layersHolding p ls.2.
Proof.
  intros Hp. destruct ls as [bl fl]. unfold addToLayer.
  destruct (String.eqb_spec (path (file node)) (path centerFile)) as [Heq|Hne]; [done|].
  assert (path (file node) <> p) by (intros Hn; apply Hne; rewrite Hn; by apply Hp).
  repeat (case_match || case_bool_decide); simpl;
    by rewrite ?layersHolding_alter_other.
Qed.

Lemma foldl_addToLayer_length ns :
  forall ls,
    length (foldl (addToLayer centerFile) ls ns).1 = length ls.1 /\
    length (foldl (addToLayer centerFile) ls ns).2 = length ls.2.
Proof.
  induction ns as [|n ns IH]; intros ls; simpl; [done|].
  destruct (IH (addToLayer centerFile ls n)) as [-> ->]. apply addToLayer_length.
Qed.

Lemma foldl_addToLayer_other p ns :
  forall ls,
    (forall n, n ∈ ns -> path (file n) = p -> p = path centerFile) ->
    layersHolding p (foldl (addToLayer centerFile) ls ns).1 = layersHolding p ls.1 /\
    layersHolding p (foldl (addToLayer centerFile) ls ns).2 = layersHolding p ls.2.
Proof.
  induction ns as [|n ns IH]; intros ls Hns; simpl; [done|].
  destruct (IH (addToLayer centerFile ls n)) as [-> ->].
  - intros m Hm. apply Hns. by right.
  - apply addToLayer_other, Hns. by left.
Qed.

(** A document that is listed once, away from the centre, and whose level
    fits the layer arrays, ends up in exactly one layer. *)
Lemma foldl_addToLayer_once n ns :
  forall ls,
    NoDup (documents ns) -> n ∈ ns -> path (file n) <> path centerFile ->
    (forall m, m ∈ ns ->
       if isBacklink m then level m < length ls.1 else level m < length ls.2) ->
    layersHolding (path (file n)) ls.1 + layersHolding (path (file n)) ls.2 = 0 ->
    layersHolding (path (file n)) (foldl (addToLayer centerFile) ls ns).1
    + layersHolding (path (file n)) (foldl (addToLayer centerFile) ls ns).2 = 1.
Proof.
  induction ns as [|m ns IH]; intros ls Hnd Hn Hne Hfit Hzero; simpl.
  { by apply elem_of_nil in Hn. }
  apply NoDup_cons in Hnd as [Hm Hnd].
  apply elem_of_cons in Hn as [->|Hn].
  - destruct (foldl_addToLayer_other (path (file m)) ns (addToLayer centerFile ls m))
      as [-> ->].
    { intros k Hk Heq. destruct Hm. rewrite <- Heq.
      apply list_elem_of_fmap. by exists k. }
    specialize (Hfit m ltac:(left)). destruct ls as [bl fl]. unfold addToLayer.
    simpl in *. destruct (String.eqb_spec (path (file m)) (path centerFile)); [done|].
    destruct (isBacklink m).
    + rewrite bool_decide_eq_true_2 by done. simpl.
      rewrite layersHolding_alter_new; [lia|done|done|lia].
    + rewrite bool_decide_eq_true_2 by done. simpl.
      rewrite (layersHolding_alter_new _ _ _ fl); [lia|done|done|lia].
  - assert (path (file m) <> path (file n)) as Hmn.
    { intros Heq. destruct Hm. rewrite Heq. apply list_elem_of_fmap. by exists n. }
    destruct (addToLayer_length ls m) as [Hl1 Hl2].
    destruct (addToLayer_other (path (file n)) ls m) as [Hc1 Hc2]; [done|].
    apply IH; try done.
    + intros k Hk. rewrite Hl1, Hl2. apply Hfit. by right.
    + by rewrite Hc1, Hc2.
Qed.
End OrganizeFacts.

Section OrganizeLayers.
Variable localeCompare : string -> string -> Z.
Variable centerFile : TFile.
Variable allNodes : list GraphNode.

Let maxBacklinkLevel : nat :=
  maxLevel (level <$> filter (fun n => isBacklink n = true) allNodes).
Let maxForwardLinkLevel : nat :=
  maxLevel (level <$> filter (fun n => isBacklink n = false) allNodes).
Let center : GraphNode := {| file := centerFile; level := 0; isBacklink := false |}.
Let backlinkLayers0 : list Layer :=
  alter (fun l => l ++ [center]) 0 (replicate (S maxBacklinkLevel) []).
Let forwardLinkLayers0 : list Layer :=
  alter (fun l => l ++ [center]) 0 (replicate (S maxForwardLinkLevel) []).

(** The count over the returned layers is the count over the two layer
    arrays the loop filled. *)
Lemma organizeNodesIntoLayers_count p :
  layersHolding p (organizeNodesIntoLayers localeCompare centerFile allNodes)
  = layersHolding p
      (foldl (addToLayer centerFile) (backlinkLayers0, forwardLinkLayers0) allNodes).1
    + layersHolding p
      (foldl (addToLayer centerFile) (backlinkLayers0, forwardLinkLayers0) allNodes).2.
Proof using Type.
  unfold organizeNodesIntoLayers.
  fold maxBacklinkLevel maxForwardLinkLevel center.
  fold backlinkLayers0 forwardLinkLayers0.
  destruct (foldl _ _ allNodes) as [bl fl]. simpl.
  by rewrite layersHolding_app, !layersHolding_nonempty, layersHolding_reverse,
    !layersHolding_sorted.
Qed.

Lemma levels_fit m :
  m ∈ allNodes ->
  if isBacklink m then level m < length backlinkLayers0
  else level m < length forwardLinkLayers0.
Proof using Type.
  intros Hm. unfold backlinkLayers0, forwardLinkLayers0.
  rewrite !length_alter, !length_replicate.
  destruct (isBacklink m) eqn:Hb; apply Nat.lt_succ_r, maxLevel_ge, list_elem_of_fmap;
    exists m; (split; [done|]); by apply list_elem_of_filter.
Qed.

Lemma organizeNodesIntoLayers_once n :
  NoDup (documents allNodes) -> n ∈ allNodes -> path (file n) <> path centerFile ->
  layersHolding (path (file n))
    (organizeNodesIntoLayers localeCompare centerFile allNodes) = 1.
Proof using Type.
  intros Hnd Hn Hne. rewrite organizeNodesIntoLayers_count.
  apply foldl_addToLayer_once; try done.
  - intros m Hm. by apply levels_fit.
  - simpl. unfold backlinkLayers0, forwardLinkLayers0.
    by rewrite !layersHolding_alter_other, !layersHolding_replicate.
Qed.

(** The centre file is in the level-0 layer of both directions. *)
Lemma organizeNodesIntoLayers_center :
  layersHolding (path centerFile)
    (organizeNodesIntoLayers localeCompare centerFile allNodes) = 2.
Proof using Type.
  rewrite organizeNodesIntoLayers_count.
  destruct (foldl_addToLayer_other centerFile (path centerFile) allNodes
              (backlinkLayers0, forwardLinkLayers0)) as [-> ->]; [done|].
  simpl. unfold backlinkLayers0, forwardLinkLayers0.
  rewrite !layersHolding_alter_new; try done;
    rewrite ?length_replicate, ?layersHolding_replicate; lia.
Qed.
End OrganizeLayers.

(** C2, as the code has it.  For the node list of an exploration, every node
    other than the seed is placed in exactly one returned layer; the level-0
    layer is not omitted, so the seed document does appear in the returned
    layers. *)
Theorem organize_places_explored_nodes app localeCompare fuel centerFile depth explored :
  getAllNodesAndConnections app fuel centerFile depth = Ok explored ->
  (forall n, n ∈ nodes explored -> path (file n) <> path centerFile ->
     layersHolding (path (file n))
       (organizeNodesIntoLayers localeCompare centerFile (nodes explored)) = 1) /\
  0 < layersHolding (path centerFile)
        (organizeNodesIntoLayers localeCompare centerFile (nodes explored)).
Proof.
  intros [Hnd _]%getAllNodesAndConnections_wellVisited. split.
  - intros n Hn Hne. by apply organizeNodesIntoLayers_once.
  - rewrite organizeNodesIntoLayers_center. lia.
Qed.

Lemma organize_places_explored_nodes_witness :
  match getAllNodesAndConnections Cyclic.app 3 Cyclic.A 2 with
  | Ok explored =>
      (forall n, n ∈ nodes explored -> path (file n) <> path Cyclic.A ->
         layersHolding (path (file n))
           (organizeNodesIntoLayers TwoNotes.localeCompare Cyclic.A (nodes explored)) = 1) /\
      0 < layersHolding (path Cyclic.A)
            (organizeNodesIntoLayers TwoNotes.localeCompare Cyclic.A (nodes explored))
  | Err _ => False
  end.
Proof.
  destruct (getAllNodesAndConnections Cyclic.app 3 Cyclic.A 2) as [explored|e] eqn:Hrun.
  - exact (organize_places_explored_nodes Cyclic.app TwoNotes.localeCompare 3 Cyclic.A 2
             explored Hrun).
  - vm_compute in Hrun. discriminate Hrun.
Defined.

(** C2 as stated fails: the seed is in the layers returned for the two-note
    vault. *)
Lemma organize_seed_counterexample :
  exists explored,
    getAllNodesAndConnections TwoNotes.app 2 TwoNotes.A 1 = Ok explored /\
    layersHolding (path TwoNotes.A)
      (organizeNodesIntoLayers TwoNotes.localeCompare TwoNotes.A (nodes explored)) <> 0.
Proof. eexists. split; [vm_compute; reflexivity|]. by vm_compute. Qed.

(** ** Edges of the from-scratch build *)

Lemma truthy_Some o s : truthy o = Some s -> o = Some s.
Proof.
  destruct o as [s'|]; simpl; [|done]. by destruct (String.eqb s' EmptyString); intros [= ->].
Qed.

Lemma edgesFrom_sound ids fromNodeId toPaths :
  forall acc e,
    e ∈ edgesFrom ids fromNodeId toPaths acc ->
    e ∈ acc \/
    (fromNode e = fromNodeId /\ fromNode e <> toNode e /\
     fromSide e = "right" /\ toSide e = "left" /\
     exists toPath, toPath ∈ toPaths /\
       truthy (JsMap.get toPath ids) = Some (toNode e)).
Proof.
  unfold edgesFrom.
  induction toPaths as [|toPath toPaths IH]; intros acc e; simpl; [by left|].
  intros [Hacc|(Hf & Hne & Hfs & Hts & tp & Htp & Hget)]%IH.
  - destruct (truthy (JsMap.get toPath ids)) as [toNodeId|] eqn:Hto; [|by left].
    destruct (String.eqb_spec fromNodeId toNodeId) as [Heq|Hne]; simpl in Hacc; [by left|].
    apply elem_of_app in Hacc as [Hacc|Hnew]; [by left|right].
    apply list_elem_of_singleton in Hnew as ->. simpl.
    repeat split; try done. exists toPath. split; [left|done].
  - right. repeat split; try done. exists tp. split; [by right|done].
Qed.

Lemma edgesFrom_mono ids fromNodeId toPaths :
  forall acc e, e ∈ acc -> e ∈ edgesFrom ids fromNodeId toPaths acc.
Proof.
  unfold edgesFrom.
  induction toPaths as [|toPath toPaths IH]; intros acc e He; simpl; [done|].
  apply IH. destruct (truthy _); [|done].
  destruct (negb _); [|done]. apply elem_of_app. by left.
Qed.

Lemma edgesFrom_complete ids fromNodeId toPaths toPath toNodeId :
  toPath ∈ toPaths -> truthy (JsMap.get toPath ids) = Some toNodeId ->
  fromNodeId <> toNodeId ->
  forall acc, exists e,
    e ∈ edgesFrom ids fromNodeId toPaths acc /\
    fromNode e = fromNodeId /\ toNode e = toNodeId.
Proof.
  intros Hin Hget Hne. unfold edgesFrom.
  induction toPaths as [|tp toPaths IH]; intros acc; [by apply elem_of_nil in Hin|].
  apply elem_of_cons in Hin as [<-|Hin]; simpl; [|by apply IH].
  rewrite Hget. destruct (String.eqb_spec fromNodeId toNodeId) as [|_]; [done|]. simpl.
  eexists. split; [apply (edgesFrom_mono ids fromNodeId toPaths), elem_of_app; right; left|].
  done.
Qed.

Lemma edgesOfEntry_mono ids entry acc e :
  e ∈ acc -> e ∈ edgesOfEntry ids acc entry.
Proof.
  destruct entry as [fromPath toPaths]. unfold edgesOfEntry.
  destruct (truthy _); [by apply edgesFrom_mono|done].
Qed.

Lemma foldl_edgesOfEntry_mono ids connections :
  forall acc e, e ∈ acc -> e ∈ foldl (edgesOfEntry ids) acc connections.
Proof.
  induction connections as [|entry connections IH]; intros acc e He; simpl; [done|].
  by apply IH, edgesOfEntry_mono.
Qed.

Lemma foldl_edgesOfEntry_sound ids connections e :
  forall acc,
    e ∈ foldl (edgesOfEntry ids) acc connections ->
    e ∈ acc \/
    exists fromPath toPaths toPath,
      (fromPath, toPaths) ∈ connections /\ toPath ∈ toPaths /\
      drawsPair ids fromPath toPath e.
Proof.
  induction connections as [|[fromPath toPaths] connections IH]; intros acc; simpl;
    [by left|].
  intros [Hacc|(fp & tps & tp & Hin & Htp & Hdraw)]%IH.
  - destruct (truthy (JsMap.get fromPath ids)) as [fromNodeId|] eqn:Hfrom; [|by left].
    apply edgesFrom_sound in Hacc
      as [Hacc|(Hf & Hne & Hfs & Hts & tp & Htp & Hget)]; [by left|right].
    exists fromPath, toPaths, tp. split; [left|]. split; [done|].
    unfold drawsPair. repeat split; try done. by rewrite Hfrom, Hf.
  - right. exists fp, tps, tp. split; [by right|done].
Qed.

(** The edge loop emits an edge only for a recorded pair whose two ends have
    node ids, the ids being different. *)
Lemma createEdges_sound ids connections e :
  e ∈ createEdges ids connections ->
  exists fromPath toPaths toPath,
    (fromPath, toPaths) ∈ connections /\ toPath ∈ toPaths /\
    drawsPair ids fromPath toPath e.
Proof.
  unfold createEdges.
  intros [Hnil|H]%foldl_edgesOfEntry_sound; [by apply elem_of_nil in Hnil|done].
Qed.

(** Conversely, every such pair is drawn. *)
Lemma createEdges_complete ids connections fromPath toPaths toPath f t :
  (fromPath, toPaths) ∈ connections -> toPath ∈ toPaths ->
  truthy (JsMap.get fromPath ids) = Some f ->
  truthy (JsMap.get toPath ids) = Some t -> f <> t ->
  exists e, e ∈ createEdges ids connections /\ fromNode e = f /\ toNode e = t.
Proof.
  intros Hin Htp Hf Ht Hne. unfold createEdges. generalize (@nil CanvasEdge).
  induction connections as [|[fp tps] connections IH]; intros acc;
    [by apply elem_of_nil in Hin|].
  apply elem_of_cons in Hin as [Heq|Hin]; simpl; [|by apply IH].
  injection Heq as <- <-. rewrite Hf.
  destruct (edgesFrom_complete ids f toPaths toPath t Htp Ht Hne acc) as (e & He & Hends).
  exists e. split; [|done]. by apply foldl_edgesOfEntry_mono.
Qed.

Section PlaceFacts.
Variable settings : CanvasAutoGenSettings.
Variable activeFile : TFile.

Lemma placeLayer_idsPlaced layerX layerStartY layer :
  forall nodeInLayerIndex acc,
    idsPlaced acc ->
    idsPlaced (placeLayer activeFile layerX layerStartY nodeInLayerIndex layer acc).
Proof using Type.
  induction layer as [|nodeInfo layer IH]; intros k acc Hacc; simpl; [done|].
  apply IH. destruct (negb _); [|done].
  intros p i. simpl. destruct (decide (path (file nodeInfo) = p)) as [<-|Hne].
  - rewrite JsMapFacts.get_set_eq. intros [= <-].
    eexists. split; [apply elem_of_app; right; left|done].
  - rewrite JsMapFacts.get_set_ne by done. intros (n & Hn & Hp & Hi)%Hacc.
    exists n. split; [apply elem_of_app; by left|done].
Qed.

Lemma placeLayers_idsPlaced centerLayerIndex layers :
  forall layerIndex acc,
    idsPlaced acc ->
    idsPlaced (placeLayers settings activeFile centerLayerIndex layerIndex layers acc).
Proof using Type.
  induction layers as [|layer layers IH]; intros k acc Hacc; simpl; [done|].
  by apply IH, placeLayer_idsPlaced.
Qed.
End PlaceFacts.

(** C10.  Every edge of a built canvas draws a recorded connection whose
    source and whose target are both placed nodes, with different node ids;
    it leaves the right side of its source and enters the left side of its
    target.  So no edge is a self-loop, and a connection with an unplaced
    end, source or target, has no edge. *)
Theorem createCanvasContent_edges_between_placed
    settings activeFile app localeCompare now fuel canvasData e :
  createCanvasContent settings activeFile app localeCompare now fuel = Ok canvasData ->
  e ∈ canvas_edges canvasData ->
  fromNode e <> toNode e /\ fromSide e = "right" /\ toSide e = "left" /\
  exists explored fromPath toPaths toPath n1 n2,
    getAllNodesAndConnections app fuel activeFile (linkDepth settings) = Ok explored /\
    (fromPath, toPaths) ∈ connections explored /\ toPath ∈ toPaths /\
    n1 ∈ canvas_nodes canvasData /\ node_file n1 = fromPath /\ node_id n1 = fromNode e /\
    n2 ∈ canvas_nodes canvasData /\ node_file n2 = toPath /\ node_id n2 = toNode e.
Proof.
  unfold createCanvasContent.
  intros (explored & Hexplored & Hbuild)%Res_bind_Ok He.
  injection Hbuild as <-. simpl in *.
  match type of He with context [fileToNodeId ?s] => set (st := s) in * end.
  assert (idsPlaced st) as Hplaced.
  { apply placeLayers_idsPlaced. intros p i. simpl.
    destruct (String.eqb_spec (path activeFile) p) as [<-|_]; [|done].
    intros [= <-]. eexists. split; [left|done]. }
  apply createEdges_sound in He
    as (fromPath & toPaths & toPath & Hin & Htp & Hfrom & Hto & Hne & Hfs & Hts).
  apply truthy_Some, Hplaced in Hfrom as (n1 & Hn1 & Hp1 & Hi1).
  apply truthy_Some, Hplaced in Hto as (n2 & Hn2 & Hp2 & Hi2).
  repeat split; try done.
  by exists explored, fromPath, toPaths, toPath, n1, n2.
Qed.

Lemma createCanvasContent_edges_between_placed_witness :
  match createCanvasContent TwoNotes.settings TwoNotes.A TwoNotes.app
          TwoNotes.localeCompare "t0" 2 with
  | Ok canvasData =>
      Forall (fun e =>
        fromNode e <> toNode e /\ fromSide e = "right" /\ toSide e = "left" /\
        exists explored fromPath toPaths toPath n1 n2,
          getAllNodesAndConnections TwoNotes.app 2 TwoNotes.A
            (linkDepth TwoNotes.settings) = Ok explored /\
          (fromPath, toPaths) ∈ connections explored /\ toPath ∈ toPaths /\
          n1 ∈ canvas_nodes canvasData /\ node_file n1 = fromPath /\
          node_id n1 = fromNode e /\
          n2 ∈ canvas_nodes canvasData /\ node_file n2 = toPath /\
          node_id n2 = toNode e) (canvas_edges canvasData)
  | Err _ => False
  end.
Proof.
  destruct (createCanvasContent TwoNotes.settings TwoNotes.A TwoNotes.app
              TwoNotes.localeCompare "t0" 2) as [canvasData|err] eqn:Hrun.
  - apply Forall_forall. intros e He.
    exact (createCanvasContent_edges_between_placed TwoNotes.settings TwoNotes.A
             TwoNotes.app TwoNotes.localeCompare "t0" 2 canvasData e Hrun He).
  - vm_compute in Hrun. discriminate Hrun.
Defined.

(** ** The seed with one forward link *)

Lemma ensureKey_present k st :
  JsMap.has k (connections st) = true -> ensureKey k st = st.
Proof. unfold ensureKey. by intros ->. Qed.

Lemma exploreAllConnections_beyond app fuel file maxDepth currentDepth st :
  0 < fuel -> maxDepth < currentDepth ->
  exploreAllConnections app fuel file maxDepth currentDepth st = Ok st.
Proof.
  destruct fuel as [|fuel]; [lia|]. intros _ Hdepth. simpl.
  by rewrite bool_decide_eq_true_2.
Qed.

Section SingleForwardLink.
Variable app : App.
Variables A B : TFile.
Hypothesis A_forward : getForwardLinks app A = [B].
Hypothesis A_back : getBacklinks app A = [].
Hypothesis B_not_A : path B <> path A.

Lemma explore_single_forward_link fuel :
  1 < fuel ->
  getAllNodesAndConnections app fuel A 1 =
  Ok {| visited := {[ path B ]} ∪ {[ path A ]};
        nodes := [{| file := A; level := 0; isBacklink := false |};
                  {| file := B; level := 1; isBacklink := false |}];
        connections := [(path A, [path B]); (path B, [])] |}.
Proof using Type*.
  destruct fuel as [|fuel]; [lia|]. intros Hfuel.
  assert (String.eqb (path A) (path B) = false) as HAB
    by (apply String.eqb_neq; congruence).
  unfold getAllNodesAndConnections. cbn [exploreAllConnections].
  rewrite bool_decide_eq_false_2 by lia.
  rewrite A_forward, A_back. cbn [for_of].
  rewrite ensureKey_present by apply JsMapFacts.has_set_eq.
  unfold addConnection. cbn [connections]. rewrite JsMapFacts.get_set_eq.
  cbn [mbind Res_bind visited].
  rewrite bool_decide_eq_false_2 by set_solver.
  rewrite exploreAllConnections_beyond by lia.
  unfold resetKey, visit, JsSet.add, JsSet.has. cbn [connections visited nodes].
  rewrite bool_decide_eq_false_2 by apply not_elem_of_nil.
  cbn [JsMap.set List.app]. rewrite !String.eqb_refl. cbn [JsMap.set].
  by rewrite HAB.
Qed.

Lemma organize_single_forward_link localeCompare :
  organizeNodesIntoLayers localeCompare A
    [{| file := A; level := 0; isBacklink := false |};
     {| file := B; level := 1; isBacklink := false |}]
  = [[{| file := A; level := 0; isBacklink := false |}];
     [{| file := A; level := 0; isBacklink := false |}];
     [{| file := B; level := 1; isBacklink := false |}]].
Proof using B_not_A.
  assert (String.eqb (path B) (path A) = false) as HBA by by apply String.eqb_neq.
  unfold organizeNodesIntoLayers. simpl. rewrite String.eqb_refl. simpl.
  by rewrite HBA.
Qed.
End SingleForwardLink.

(** C1, against the claim.  For a seed [A] whose only link is a forward link
    to [B], explored to depth 1, the build puts [A] at the canvas centre and
    [B] at the vertical centre, but two [horizontalSpacing]s to the right of
    it, not one: the layer list holds the centre layer twice, and the offset
    of the forward layer is counted from the first of the two. *)
Theorem createCanvasContent_single_forward_link
    settings app A B localeCompare now fuel :
  getForwardLinks app A = [B] -> getBacklinks app A = [] -> path B <> path A ->
  linkDepth settings = 1 -> 1 < fuel ->
  exists canvasData center b,
    createCanvasContent settings A app localeCompare now fuel = Ok canvasData /\
    canvas_nodes canvasData = [center; b] /\
    node_file center = path A /\
    node_x center = (canvasWidth settings / 2)%Q /\
    node_y center = (canvasHeight settings / 2)%Q /\
    node_file b = path B /\
    (node_x b == canvasWidth settings / 2 + 2 * horizontalSpacing)%Q /\
    (node_y b == canvasHeight settings / 2)%Q /\
    ~ (node_x b == canvasWidth settings / 2 + horizontalSpacing)%Q.
Proof.
  intros Hfwd Hback HBA Hdepth Hfuel.
  assert (String.eqb (path B) (path A) = false) as HBA' by by apply String.eqb_neq.
  unfold createCanvasContent. rewrite Hdepth.
  rewrite (explore_single_forward_link app A B) by done.
  cbn [mbind Res_bind nodes connections].
  rewrite (organize_single_forward_link A B) by done.
  cbn [findIndex existsb file path placeLayers placeLayer].
  rewrite !String.eqb_refl, HBA'.
  cbn [orb negb placed nodeIndex fileToNodeId length List.app].
  eexists _, _, _. split; [reflexivity|]. cbn [canvas_nodes].
  split; [reflexivity|]. cbn [node_file node_x node_y].
  repeat split; try reflexivity.
  - change (inject_Z (Z.of_nat 1 - 1)) with 0%Q.
    change (inject_Z (Z.of_nat 0)) with 0%Q. q_arith.
  - unfold layerXOf. change (Z.of_nat 2 =? 0)%Z with false. cbv iota.
    change (inject_Z (Z.of_nat 2 - 0)) with 2%Q. intros Hone. q_arith.
Qed.

Lemma createCanvasContent_single_forward_link_witness :
  exists canvasData center b,
    createCanvasContent TwoNotes.settings TwoNotes.A TwoNotes.app
      TwoNotes.localeCompare "t0" 2 = Ok canvasData /\
    canvas_nodes canvasData = [center; b] /\
    node_file center = path TwoNotes.A /\
    node_x center = (canvasWidth TwoNotes.settings / 2)%Q /\
    node_y center = (canvasHeight TwoNotes.settings / 2)%Q /\
    node_file b = path TwoNotes.B /\
    (node_x b == canvasWidth TwoNotes.settings / 2 + 2 * horizontalSpacing)%Q /\
    (node_y b == canvasHeight TwoNotes.settings / 2)%Q /\
    ~ (node_x b == canvasWidth TwoNotes.settings / 2 + horizontalSpacing)%Q.
Proof.
  apply (createCanvasContent_single_forward_link TwoNotes.settings TwoNotes.app
           TwoNotes.A TwoNotes.B TwoNotes.localeCompare "t0" 2).
  - reflexivity.
  - reflexivity.
  - discriminate.
  - reflexivity.
  - lia.
Defined.

(** The mirror case: a seed whose only link is a backlink from [B].  The
    build puts [B] one [horizontalSpacing] to the left of the centre. *)
Lemma createCanvasContent_single_backlink :
  exists canvasData center b,
    createCanvasContent TwoNotes.settings BackNote.A BackNote.app
      TwoNotes.localeCompare "t0" 2 = Ok canvasData /\
    canvas_nodes canvasData = [center; b] /\
    node_file b = path BackNote.B /\
    (node_x center == canvasWidth TwoNotes.settings / 2)%Q /\
    (node_x b == canvasWidth TwoNotes.settings / 2 - horizontalSpacing)%Q /\
    (node_y b == canvasHeight TwoNotes.settings / 2)%Q.
Proof.
  eexists _, _, _. split; [vm_compute; reflexivity|].
  split; [reflexivity|]. by vm_compute.
Qed.

(** * Further properties *)

(** ** The link index *)

Lemma mdFile_elem app p f :
  f ∈ mdFile app p ->
  getAbstractFileByPath app p = Some (AFile f) /\ extension f = "md".
Proof.
  unfold mdFile. destruct (getAbstractFileByPath app p) as [[g|d]|];
    try by intros ?%elem_of_nil.
  destruct (String.eqb_spec (extension g) "md") as [Hmd|_]; [|by intros ?%elem_of_nil].
  by intros ->%list_elem_of_singleton.
Qed.

Lemma getForwardLinks_elem app file l :
  l ∈ getForwardLinks app file ->
  exists links targetPath count,
    obj_get (path file) (resolvedLinks app) = Some links /\
    (targetPath, count) ∈ links /\ l ∈ mdFile app targetPath.
Proof.
  unfold getForwardLinks. destruct (obj_get _ _) as [links|]; [|by intros ?%elem_of_nil].
  intros Hl. apply list_elem_of_In, in_flat_map in Hl as ([targetPath count] & Hin & Hl).
  exists links, targetPath, count.
  split; [done|]. split; by apply list_elem_of_In.
Qed.

Lemma getBacklinks_elem app file l :
  l ∈ getBacklinks app file ->
  exists sourcePath links count,
    (sourcePath, links) ∈ resolvedLinks app /\
    obj_get (path file) links = Some (S count) /\ l ∈ mdFile app sourcePath.
Proof.
  unfold getBacklinks. intros Hl.
  apply list_elem_of_In, in_flat_map in Hl as ([sourcePath links] & Hin & Hl).
  destruct (obj_get (path file) links) as [[|count]|] eqn:Hget; try destruct Hl.
  exists sourcePath, links, count.
  split; [by apply list_elem_of_In|]. split; [done|by apply list_elem_of_In].
Qed.

Lemma obj_get_NoDup {V : Type} (k : string) (v : V) m :
  NoDup m.*1 -> (k, v) ∈ m -> obj_get k m = Some v.
Proof.
  induction m as [|[k' w] m IH]; simpl; [by intros _ ?%elem_of_nil|].
  intros [Hk' Hnd]%NoDup_cons [Heq|Hin]%elem_of_cons.
  - injection Heq as <- <-. by rewrite String.eqb_refl.
  - destruct (String.eqb_spec k' k) as [->|_]; [|by apply IH].
    destruct Hk'. apply list_elem_of_fmap. by exists (k, v).
Qed.

Lemma mdFile_vaultNote app f : vaultNote app f -> f ∈ mdFile app (path f).
Proof.
  intros [Hget Hmd]. unfold mdFile. rewrite Hget, Hmd. simpl. left.
Qed.

(** X1.  On a well-formed index and a coherent vault the two getters are
    each other's inverse on the notes of the vault: [l] is a backlink of [f]
    exactly when [f] is a forward link of [l]. *)
Theorem backlinks_inverse_of_forward_links app f l :
  indexOk app -> vaultCoherent app -> vaultNote app f -> vaultNote app l ->
  l ∈ getBacklinks app f <-> f ∈ getForwardLinks app l.
Proof.
  intros [Hkeys Hlinks] Hcoh Hf Hl. split.
  - intros (sourcePath & links & count & Hin & Hget & Hmd)%getBacklinks_elem.
    apply mdFile_elem in Hmd as [Hvault _]. apply Hcoh in Hvault as <-.
    unfold getForwardLinks. rewrite (obj_get_NoDup _ links) by done.
    apply list_elem_of_In, in_flat_map. exists (path f, S count).
    split; apply list_elem_of_In; [by apply obj_get_elem_of|by apply mdFile_vaultNote].
  - intros (links & targetPath & count & Hget & Hin & Hmd)%getForwardLinks_elem.
    apply mdFile_elem in Hmd as [Hvault _]. apply Hcoh in Hvault as <-.
    apply obj_get_elem_of in Hget.
    destruct (Hlinks _ _ Hget) as [Hnd Hcount].
    unfold getBacklinks. apply list_elem_of_In, in_flat_map.
    exists (path l, links). split; [by apply list_elem_of_In|].
    rewrite (obj_get_NoDup _ count) by done.
    destruct count as [|count]; [by destruct (Hcount _ _ Hin)|].
    by apply list_elem_of_In, mdFile_vaultNote.
Qed.

Lemma Cyclic_vaultCoherent : vaultCoherent Cyclic.app.
Proof.
  intros p f. unfold Cyclic.app. cbn [getAbstractFileByPath].
  destruct (String.eqb_spec p "A.md") as [->|_]; [by intros [= <-]|].
  destruct (String.eqb_spec p "B.md") as [->|_]; [by intros [= <-]|done].
Qed.

Lemma Cyclic_indexOk : indexOk Cyclic.app.
Proof.
  split.
  - apply (bool_decide_unpack _). by vm_compute.
  - intros sourcePath links Hin. cbn [resolvedLinks Cyclic.app] in Hin.
    repeat (apply elem_of_cons in Hin as [Hin|Hin]; [injection Hin as -> ->|]).
    + split; [apply (bool_decide_unpack _); by vm_compute|].
      intros t c Ht.
      repeat (apply elem_of_cons in Ht as [Ht|Ht]; [by injection Ht as -> ->|]).
      by apply elem_of_nil in Ht.
    + split; [apply (bool_decide_unpack _); by vm_compute|].
      intros t c Ht.
      repeat (apply elem_of_cons in Ht as [Ht|Ht]; [by injection Ht as -> ->|]).
      by apply elem_of_nil in Ht.
    + by apply elem_of_nil in Hin.
Qed.

Lemma backlinks_inverse_of_forward_links_witness :
  Cyclic.B ∈ getBacklinks Cyclic.app Cyclic.A <->
  Cyclic.A ∈ getForwardLinks Cyclic.app Cyclic.B.
Proof.
  apply (backlinks_inverse_of_forward_links Cyclic.app Cyclic.A Cyclic.B).
  - apply Cyclic_indexOk.
  - apply Cyclic_vaultCoherent.
  - split; reflexivity.
  - split; reflexivity.
Defined.

(** ** Exploration in context *)

Lemma grows_refl st : grows st st.
Proof. by split. Qed.

Lemma grows_trans st1 st2 st3 : grows st1 st2 -> grows st2 st3 -> grows st1 st3.
Proof. intros [Hv1 Hn1] [Hv2 Hn2]. split; by etrans. Qed.

Lemma grows_same st st' :
  visited st' = visited st -> nodes st' = nodes st -> grows st st'.
Proof. intros Hv Hn. unfold grows. by rewrite Hv, Hn. Qed.

Lemma grows_visit f lvl back st : grows st (visit f lvl back st).
Proof. split; simpl; [set_solver|by apply prefix_app_r]. Qed.

Lemma grows_ensureKey k st : grows st (ensureKey k st).
Proof. unfold ensureKey. destruct (JsMap.has _ _); [apply grows_refl|by apply grows_same]. Qed.

Lemma grows_addConnection from to st st' :
  addConnection from to st = Ok st' -> grows st st'.
Proof. intros (targets & _ & ->)%addConnection_Ok. by apply grows_same. Qed.

Lemma exploreAllConnections_grows app fuel file maxDepth currentDepth st st' :
  exploreAllConnections app fuel file maxDepth currentDepth st = Ok st' -> grows st st'.
Proof.
  intros Hrun.
  apply (exploreAllConnections_preserves app (grows st) (fun _ _ => True))
    with (fuel := fuel) (file := file) (maxDepth := maxDepth)
         (currentDepth := currentDepth) (st := st); try done.
  - intros k s Hs. eapply grows_trans; [exact Hs|apply grows_ensureKey].
  - intros from to s s' _ Hs Hadd.
    eapply grows_trans; [exact Hs|by eapply grows_addConnection].
  - intros f lvl back s _ Hs. eapply grows_trans; [exact Hs|apply grows_visit].
Qed.

(** An invariant [I] that may lean on what is known of the file being
    expanded ([K file currentDepth], kept while the state grows) holds after
    the traversal when every round of its two loops keeps it. *)
Section ExploreContext.
Variable app : App.
Variable maxDepth : nat.
Variable I : ExploreState -> Prop.
Variable K : TFile -> nat -> ExploreState -> Prop.
Hypothesis K_mono : forall f c st st', K f c st -> grows st st' -> K f c st'.
Hypothesis I_ensure : forall f c st, K f c st -> I st -> I (ensureKey (path f) st).
Hypothesis forward_seen :
  forall f c l st st1,
    K f c st -> I st -> l ∈ getForwardLinks app f ->
    addConnection (path f) (path l) st = Ok st1 ->
    path l ∈ visited st1 -> I st1.
Hypothesis forward_new :
  forall f c l st st1,
    K f c st -> I st -> l ∈ getForwardLinks app f ->
    addConnection (path f) (path l) st = Ok st1 ->
    path l ∉ visited st1 -> c <= maxDepth ->
    I (resetKey (path l) (visit l c false st1)) /\
    K l (S c) (resetKey (path l) (visit l c false st1)).
Hypothesis back_seen :
  forall f c l st st1,
    K f c st -> I st -> l ∈ getBacklinks app f ->
    addConnection (path l) (path f) (ensureKey (path l) st) = Ok st1 ->
    path l ∈ visited st1 -> I st1.
Hypothesis back_new :
  forall f c l st st1,
    K f c st -> I st -> l ∈ getBacklinks app f ->
    addConnection (path l) (path f) (ensureKey (path l) st) = Ok st1 ->
    path l ∉ visited st1 -> c <= maxDepth ->
    I (visit l c true st1) /\ K l (S c) (visit l c true st1).

Lemma exploreAllConnections_invariant fuel :
  forall f c st st',
    K f c st -> I st ->
    exploreAllConnections app fuel f maxDepth c st = Ok st' -> I st'.
Proof using Type*.
  induction fuel as [|fuel IH]; intros f c st st' HK HI; simpl; [done|].
  case_bool_decide as Hdepth; [by intros [= <-]|].
  intros (st1 & Hfwd & Hback)%Res_bind_Ok.
  assert (c <= maxDepth) as Hc by lia.
  enough (I st' /\ K f c st') by tauto.
  eapply (for_of_preserves (fun s => I s /\ K f c s)) in Hback; [exact Hback| |].
  - intros l s s' Hl [Hs HKs] (s1 & Hadd & Hrest)%Res_bind_Ok.
    pose proof (grows_trans _ _ _ (grows_ensureKey (path l) s)
                  (grows_addConnection _ _ _ _ Hadd)) as Hg1.
    case_bool_decide as Hseen.
    + injection Hrest as <-. split; [by eapply back_seen|by eapply K_mono].
    + destruct (back_new f c l s s1) as [HI2 HK2]; try done.
      split; [by eapply IH|].
      eapply K_mono; [exact HKs|].
      eapply grows_trans; [exact Hg1|].
      eapply grows_trans; [apply grows_visit|by eapply exploreAllConnections_grows].
  - eapply (for_of_preserves (fun s => I s /\ K f c s)) in Hfwd; [exact Hfwd| |].
    + intros l s s' Hl [Hs HKs] (s1 & Hadd & Hrest)%Res_bind_Ok.
      pose proof (grows_addConnection _ _ _ _ Hadd) as Hg1.
      case_bool_decide as Hseen.
      * injection Hrest as <-. split; [by eapply forward_seen|by eapply K_mono].
      * destruct (forward_new f c l s s1) as [HI2 HK2]; try done.
        split; [by eapply IH|].
        eapply K_mono; [exact HKs|].
        eapply grows_trans; [exact Hg1|].
        eapply grows_trans; [|by eapply exploreAllConnections_grows].
        eapply grows_trans; [apply grows_visit|by apply grows_same].
    + split; [by eapply I_ensure|]. eapply K_mono; [exact HK|apply grows_ensureKey].
Qed.
End ExploreContext.

Lemma closedIn_mono V V' c : V ⊆ V' -> closedIn V c -> closedIn V' c.
Proof.
  intros HV Hc src targets Hin. destruct (Hc _ _ Hin) as [Hsrc Htg].
  split; [by apply HV|]. intros t Ht. by apply HV, Htg.
Qed.

Lemma closedIn_set V k targets c :
  k ∈ V -> (forall t, t ∈ targets -> t ∈ V) -> closedIn V c ->
  closedIn V (JsMap.set k targets c).
Proof.
  intros Hk Htg Hc src tg [[-> ->]|Hin]%JsMapFacts.elem_of_set; [done|by apply Hc].
Qed.

Lemma closedIn_ensureKey V k st :
  k ∈ V -> closedIn V (connections st) -> closedIn V (connections (ensureKey k st)).
Proof.
  intros Hk Hc. unfold ensureKey. destruct (JsMap.has _ _); [done|]. simpl.
  apply closedIn_set; [done| |done]. by intros t ?%elem_of_nil.
Qed.

Lemma closedIn_addConnection V from to st st' :
  from ∈ V -> to ∈ V -> closedIn V (connections st) ->
  addConnection from to st = Ok st' -> closedIn V (connections st').
Proof.
  intros Hfrom Hto Hc (targets & Hget & ->)%addConnection_Ok. simpl.
  apply closedIn_set; [done| |done].
  intros t [->|Ht]%elem_of_JsSet_add; [done|].
  by apply (Hc from targets); [apply obj_get_elem_of|].
Qed.

Lemma addConnection_visited from to st st' :
  addConnection from to st = Ok st' -> visited st' = visited st.
Proof. by intros (targets & _ & ->)%addConnection_Ok. Qed.

Lemma ensureKey_visited k st : visited (ensureKey k st) = visited st.
Proof. unfold ensureKey. by destruct (JsMap.has _ _). Qed.

Lemma exploreAllConnections_closedIn app fuel file maxDepth currentDepth st st' :
  path file ∈ visited st -> closedIn (visited st) (connections st) ->
  exploreAllConnections app fuel file maxDepth currentDepth st = Ok st' ->
  closedIn (visited st') (connections st').
Proof.
  apply (exploreAllConnections_invariant app maxDepth
           (fun s => closedIn (visited s) (connections s))
           (fun f _ s => path f ∈ visited s)).
  - intros f c s s' Hf [Hv _]. by apply Hv.
  - intros f c s Hf Hc. rewrite ensureKey_visited. by apply closedIn_ensureKey.
  - intros f c l s s1 Hf Hc _ Hadd Hl.
    pose proof (addConnection_visited _ _ _ _ Hadd) as Hv. rewrite Hv in *.
    eapply closedIn_addConnection; [| | |exact Hadd]; done.
  - intros f c l s s1 Hf Hc _ Hadd Hl _.
    pose proof (addConnection_visited _ _ _ _ Hadd) as Hv. simpl. split; [|set_solver].
    apply closedIn_set; [set_solver|by intros t ?%elem_of_nil|].
    eapply closedIn_addConnection; [| |eapply closedIn_mono; [|exact Hc]|exact Hadd];
      set_solver.
  - intros f c l s s1 Hf Hc _ Hadd Hl.
    pose proof (addConnection_visited _ _ _ _ Hadd) as Hv.
    rewrite ensureKey_visited in Hv. rewrite Hv in *.
    eapply closedIn_addConnection; [| | |exact Hadd]; [done|done|].
    by apply closedIn_ensureKey.
  - intros f c l s s1 Hf Hc _ Hadd Hl _.
    pose proof (addConnection_visited _ _ _ _ Hadd) as Hv.
    rewrite ensureKey_visited in Hv. simpl. split; [|set_solver].
    eapply closedIn_addConnection; [| | |exact Hadd]; [set_solver|set_solver|].
    apply closedIn_ensureKey; [set_solver|].
    eapply closedIn_mono; [|exact Hc]. set_solver.
Qed.

Lemma exploreAllConnections_visited_listed app fuel file maxDepth currentDepth st st' :
  (forall p, p ∈ visited st -> p ∈ documents (nodes st)) ->
  exploreAllConnections app fuel file maxDepth currentDepth st = Ok st' ->
  forall p, p ∈ visited st' -> p ∈ documents (nodes st').
Proof.
  apply (exploreAllConnections_preserves app
           (fun s => forall p, p ∈ visited s -> p ∈ documents (nodes s))
           (fun _ _ => True)); try done.
  - intros k s Hs. unfold ensureKey. by destruct (JsMap.has _ _).
  - by intros from to s s' _ Hs (targets & _ & ->)%addConnection_Ok.
  - intros f lvl back s _ Hs p. simpl. unfold documents. rewrite fmap_app, elem_of_app.
    intros [->%elem_of_singleton|Hp]%elem_of_union; [right; left|left; by apply Hs].
Qed.

Lemma getAllNodesAndConnections_closed app fuel centerFile depth st :
  getAllNodesAndConnections app fuel centerFile depth = Ok st ->
  connectionsClosed st.
Proof.
  unfold getAllNodesAndConnections. intros Hrun.
  pose proof Hrun as Hclosed. apply exploreAllConnections_closedIn in Hclosed; simpl.
  - assert (forall p, p ∈ visited st -> p ∈ documents (nodes st)) as Hlisted.
    { eapply exploreAllConnections_visited_listed; [|exact Hrun]. simpl.
      intros p ->%elem_of_singleton. left. }
    intros src targets Hin. destruct (Hclosed _ _ Hin) as [Hsrc Htg].
    split; [by apply Hlisted|]. intros t Ht. by apply Hlisted, Htg.
  - by apply elem_of_singleton.
  - intros src targets Hin. apply list_elem_of_singleton in Hin. simplify_eq.
    split; [by apply elem_of_singleton|]. by intros t ?%elem_of_nil.
Qed.

(** X2.  Both ends of every connection an exploration records are documents
    of its node list: the traversal lists a document before it leaves the
    round that recorded a link to or from it. *)
Theorem explore_connections_closed app fuel centerFile depth st :
  getAllNodesAndConnections app fuel centerFile depth = Ok st ->
  connectionsClosed st.
Proof. apply getAllNodesAndConnections_closed. Qed.

Lemma explore_connections_closed_witness :
  match getAllNodesAndConnections Cyclic.app 3 Cyclic.A 2 with
  | Ok st => connectionsClosed st
  | Err _ => False
  end.
Proof.
  destruct (getAllNodesAndConnections Cyclic.app 3 Cyclic.A 2) as [st|e] eqn:Hrun.
  - exact (explore_connections_closed Cyclic.app 3 Cyclic.A 2 st Hrun).
  - vm_compute in Hrun. discriminate Hrun.
Defined.

(** X3.  An exploration records only links of the index, in the direction
    of the link: every recorded pair [src -> tgt] is a forward link of a file
    at [src] or a backlink of a file at [tgt]. *)
Theorem explore_connections_are_links app fuel centerFile depth st :
  getAllNodesAndConnections app fuel centerFile depth = Ok st ->
  forall src targets tgt,
    (src, targets) ∈ connections st -> tgt ∈ targets -> isLink app src tgt.
Proof.
  unfold getAllNodesAndConnections.
  apply (exploreAllConnections_preserves app
           (fun s => forall src targets tgt,
              (src, targets) ∈ connections s -> tgt ∈ targets -> isLink app src tgt)
           (isLink app)).
  - intros f l Hl. exists f, l. by repeat split; [..|left].
  - intros f l Hl. exists l, f. by repeat split; [..|right].
  - intros k s Hs. unfold ensureKey. destruct (JsMap.has _ _); [done|]. simpl.
    intros src targets tgt [[_ ->]|Hin]%JsMapFacts.elem_of_set;
      [by intros ?%elem_of_nil|by apply Hs].
  - intros k s Hs. simpl.
    intros src targets tgt [[_ ->]|Hin]%JsMapFacts.elem_of_set;
      [by intros ?%elem_of_nil|by apply Hs].
  - intros from to s s' Hlink Hs (targets & Hget & ->)%addConnection_Ok. simpl.
    intros src tg tgt [[-> ->]|Hin]%JsMapFacts.elem_of_set; [|by apply Hs].
    intros [->|Ht]%elem_of_JsSet_add; [done|].
    by apply (Hs from targets); [apply obj_get_elem_of|].
  - done.
  - simpl. intros src targets tgt Hin. apply list_elem_of_singleton in Hin.
    simplify_eq. by intros ?%elem_of_nil.
Qed.

Lemma explore_connections_are_links_witness :
  match getAllNodesAndConnections Cyclic.app 3 Cyclic.A 2 with
  | Ok st =>
      forall src targets tgt,
        (src, targets) ∈ connections st -> tgt ∈ targets -> isLink Cyclic.app src tgt
  | Err _ => False
  end.
Proof.
  destruct (getAllNodesAndConnections Cyclic.app 3 Cyclic.A 2) as [st|e] eqn:Hrun.
  - exact (explore_connections_are_links Cyclic.app 3 Cyclic.A 2 st Hrun).
  - vm_compute in Hrun. discriminate Hrun.
Defined.

Lemma exploreAllConnections_discovered app fuel start maxDepth currentDepth seed st st' :
  (exists p, p ∈ nodes st /\ file p = start /\ S (level p) = currentDepth) ->
  (forall n, n ∈ nodes st ->
     n = seed \/ (level n <= maxDepth /\
                  exists parent, parent ∈ nodes st /\ discoveredFrom app parent n)) ->
  exploreAllConnections app fuel start maxDepth currentDepth st = Ok st' ->
  forall n, n ∈ nodes st' ->
    n = seed \/ (level n <= maxDepth /\
                 exists parent, parent ∈ nodes st' /\ discoveredFrom app parent n).
Proof.
  set (I := fun s : ExploreState => forall n, n ∈ nodes s ->
     n = seed \/ (level n <= maxDepth /\
                  exists parent, parent ∈ nodes s /\ discoveredFrom app parent n)).
  set (K := fun (f : TFile) (c : nat) (s : ExploreState) =>
     exists p, p ∈ nodes s /\ file p = f /\ S (level p) = c).
  assert (forall l c back s (parent : GraphNode),
            I s -> parent ∈ nodes s -> c <= maxDepth ->
            discoveredFrom app parent {| file := l; level := c; isBacklink := back |} ->
            I (visit l c back s) /\ K l (S c) (visit l c back s)) as Hvisit.
  { intros l c back s parent Hs Hparent Hc Hdisc. split.
    - intros n. simpl. intros [Hn| ->%list_elem_of_singleton]%elem_of_app.
      + destruct (Hs n Hn) as [->|(Hlevel & q & Hq & Hdq)]; [by left|right].
        split; [done|]. exists q. split; [apply elem_of_app; by left|done].
      + right. split; [done|]. exists parent. split; [apply elem_of_app; by left|done].
    - eexists. split; [apply elem_of_app; right; left|done]. }
  apply (exploreAllConnections_invariant app maxDepth I K).
  - intros f c s s' (p & Hp & Hf & Hc) [_ Hprefix]. exists p.
    split; [by eapply elem_of_prefix|done].
  - intros f c s _ Hs. unfold ensureKey. by destruct (JsMap.has _ _).
  - by intros f c l s s1 _ Hs _ (targets & _ & ->)%addConnection_Ok _.
  - intros f c l s s1 (p & Hp & Hf & Hc) Hs Hl (targets & _ & ->)%addConnection_Ok _ Hdepth.
    apply (Hvisit l c false _ p); try done.
    split; simpl; [done|by rewrite Hf].
  - intros f c l s s1 _ Hs _ (targets & _ & ->)%addConnection_Ok _.
    unfold ensureKey. by destruct (JsMap.has _ _).
  - intros f c l s s1 (p & Hp & Hf & Hc) Hs Hl (targets & _ & ->)%addConnection_Ok _ Hdepth.
    assert (nodes (ensureKey (path l) s) = nodes s) as Hnodes
      by (unfold ensureKey; by destruct (JsMap.has _ _)).
    unfold visit. simpl. rewrite Hnodes.
    apply (Hvisit l c true s p); try done.
    split; simpl; [done|by rewrite Hf].
Qed.

(** X4.  The node list of an exploration starts with the seed at level 0;
    every other node lies at a level between 1 and [depth] and was discovered
    from a listed node one level above it, over a forward link of that node
    when it is classed as a forward link and over a backlink to that node
    when it is classed as a backlink. *)
Theorem explore_nodes_discovered_from_parents app fuel centerFile depth st :
  getAllNodesAndConnections app fuel centerFile depth = Ok st ->
  let seed := {| file := centerFile; level := 0; isBacklink := false |} in
  (exists rest, nodes st = seed :: rest) /\
  forall n, n ∈ nodes st ->
    n = seed \/
    (1 <= level n <= depth /\
     exists parent, parent ∈ nodes st /\ discoveredFrom app parent n).
Proof.
  intros Hrun. cbv zeta. unfold getAllNodesAndConnections in Hrun.
  set (seed := {| file := centerFile; level := 0; isBacklink := false |}) in *. split.
  - apply exploreAllConnections_grows in Hrun as [_ [rest Hrest]]. by exists rest.
  - intros n Hn.
    eapply (exploreAllConnections_discovered _ _ _ _ _ seed) in Hrun; [| | |exact Hn].
    + destruct Hrun as [->|(Hlevel & parent & Hparent & Hdisc)]; [by left|right].
      split; [|by exists parent]. destruct Hdisc as [Hlv _]. lia.
    + exists seed. split; [left|done].
    + intros m ->%list_elem_of_singleton. by left.
Qed.

Lemma explore_nodes_discovered_from_parents_witness :
  match getAllNodesAndConnections Cyclic.app 3 Cyclic.A 2 with
  | Ok st =>
      let seed := {| file := Cyclic.A; level := 0; isBacklink := false |} in
      (exists rest, nodes st = seed :: rest) /\
      forall n, n ∈ nodes st ->
        n = seed \/
        (1 <= level n <= 2 /\
         exists parent, parent ∈ nodes st /\ discoveredFrom Cyclic.app parent n)
  | Err _ => False
  end.
Proof.
  destruct (getAllNodesAndConnections Cyclic.app 3 Cyclic.A 2) as [st|e] eqn:Hrun.
  - exact (explore_nodes_discovered_from_parents Cyclic.app 3 Cyclic.A 2 st Hrun).
  - vm_compute in Hrun. discriminate Hrun.
Defined.

(** ** Layers as a whole *)

Lemma concat_alter_push {A : Type} (m : A) i (ls : list (list A)) :
  i < length ls -> concat (alter (fun l => l ++ [m]) i ls) ≡ₚ m :: concat ls.
Proof.
  revert i. induction ls as [|l ls IH]; intros [|i] Hi; simpl in *; try lia.
  - rewrite <- app_assoc. simpl. by rewrite <- Permutation_middle.
  - change (list_alter ?f i ls) with (alter f i ls).
    rewrite IH by lia. by rewrite <- Permutation_middle.
Qed.

Lemma concat_reverse_perm {A : Type} (ls : list (list A)) :
  concat (reverse ls) ≡ₚ concat ls.
Proof.
  induction ls as [|l ls IH]; [done|].
  rewrite reverse_cons, concat_app. simpl. rewrite app_nil_r, IH.
  apply Permutation_app_comm.
Qed.

Lemma concat_sorted_perm {A : Type} (le : A -> A -> bool) (ls : list (list A)) :
  concat (js_sort le <$> ls) ≡ₚ concat ls.
Proof.
  induction ls as [|l ls IH]; [done|].
  rewrite fmap_cons. simpl. by rewrite IH, js_sort_perm.
Qed.

Lemma concat_nonempty {A : Type}
    `{!forall l : list A, Decision (0 < length l)} (ls : list (list A)) :
  concat (filter (fun l => 0 < length l) ls) = concat ls.
Proof.
  induction ls as [|l ls IH]; [done|].
  rewrite filter_cons. case_decide as Hl; simpl; [by rewrite IH|].
  destruct l; [done|simpl in Hl; lia].
Qed.

Section OrganizeConcat.
Variable localeCompare : string -> string -> Z.
Variable centerFile : TFile.

Lemma foldl_addToLayer_concat ns :
  forall ls,
    (forall m, m ∈ ns ->
       if isBacklink m then level m < length ls.1 else level m < length ls.2) ->
    concat (foldl (addToLayer centerFile) ls ns).1
      ++ concat (foldl (addToLayer centerFile) ls ns).2
    ≡ₚ concat ls.1 ++ concat ls.2
       ++ filter (fun n => path (file n) <> path centerFile) ns.
Proof using Type.
  induction ns as [|n ns IH]; intros ls Hfit; simpl.
  { by rewrite filter_nil, app_nil_r. }
  destruct (addToLayer_length centerFile ls n) as [Hl1 Hl2].
  rewrite IH by (intros m Hm; rewrite Hl1, Hl2; apply Hfit; by right).
  specialize (Hfit n ltac:(left)). rewrite filter_cons.
  destruct ls as [bl fl]. unfold addToLayer. simpl in *.
  destruct (String.eqb_spec (path (file n)) (path centerFile)) as [Heq|Hne].
  { by rewrite decide_False by (by intros ?). }
  rewrite decide_True by done.
  destruct (isBacklink n); rewrite bool_decide_eq_true_2 by done; simpl.
  - rewrite concat_alter_push by done. simpl.
    rewrite !app_assoc. by rewrite <- Permutation_middle.
  - rewrite concat_alter_push by done. simpl. f_equiv. apply Permutation_middle.
Qed.

(** The returned layers hold the centre file twice and every other listed
    node once. *)
Lemma organizeNodesIntoLayers_concat allNodes :
  concat (organizeNodesIntoLayers localeCompare centerFile allNodes)
  ≡ₚ {| file := centerFile; level := 0; isBacklink := false |}
     :: {| file := centerFile; level := 0; isBacklink := false |}
     :: filter (fun n => path (file n) <> path centerFile) allNodes.
Proof using Type.
  unfold organizeNodesIntoLayers.
  match goal with |- context [foldl _ (?b, ?f) allNodes] =>
    pose proof (foldl_addToLayer_concat allNodes (b, f)) as Hfold end.
  destruct (foldl _ _ allNodes) as [bl fl]. simpl in Hfold. unfold Layer in *.
  rewrite concat_app, !concat_nonempty, concat_reverse_perm, !concat_sorted_perm.
  rewrite Hfold.
  - assert (forall k, concat (replicate k (@nil GraphNode)) = []) as Hrep
      by (induction k; [done|by simpl]).
    by rewrite !Hrep.
  - intros m Hm. apply (levels_fit centerFile allNodes m Hm).
Qed.
End OrganizeConcat.

(** ** Nodes and ids of the from-scratch build *)

Lemma nodeIdOf_inj k k' : nodeIdOf k = nodeIdOf k' -> k = k'.
Proof. unfold nodeIdOf. intros H. simpl in H. by simplify_eq. Qed.

Lemma edgeIdOf_inj k k' : edgeIdOf k = edgeIdOf k' -> k = k'.
Proof. unfold edgeIdOf. intros H. simpl in H. by simplify_eq. Qed.

Lemma nodeIdOf_not_center k : nodeIdOf k <> "center-node".
Proof. unfold nodeIdOf. simpl. discriminate. Qed.

Lemma nodeIdOf_truthy k : truthy (Some (nodeIdOf k)) = Some (nodeIdOf k).
Proof. done. Qed.

Section PlaceMore.
Variable settings : CanvasAutoGenSettings.
Variable activeFile : TFile.

Lemma placeLayer_files layerX layerStartY (layer : list GraphNode) :
  forall k acc,
    node_file <$> placed (placeLayer activeFile layerX layerStartY k layer acc)
    = (node_file <$> placed acc)
      ++ documents (filter (fun n => path (file n) <> path activeFile) layer).
Proof using Type.
  induction layer as [|nodeInfo layer IH]; intros k acc.
  { simpl. by rewrite app_nil_r. }
  cbn [placeLayer]. rewrite IH, filter_cons.
  destruct (String.eqb_spec (path (file nodeInfo)) (path activeFile)) as [Heq|Hne];
    cbn [negb placed].
  - by rewrite decide_False by (by intros ?).
  - rewrite decide_True by done. rewrite fmap_app. unfold documents.
    rewrite fmap_cons. simpl. by rewrite <- app_assoc.
Qed.

Lemma placeLayers_files centerLayerIndex (layers : list (list GraphNode)) :
  forall k acc,
    node_file <$> placed (placeLayers settings activeFile centerLayerIndex k layers acc)
    = (node_file <$> placed acc)
      ++ documents (filter (fun n => path (file n) <> path activeFile) (concat layers)).
Proof using Type.
  induction layers as [|layer layers IH]; intros k acc.
  { simpl. by rewrite app_nil_r. }
  cbn [placeLayers concat]. rewrite IH, placeLayer_files, filter_app. unfold documents.
  by rewrite fmap_app, app_assoc.
Qed.

Lemma placeLayer_placeInv layerX layerStartY layer :
  forall k acc,
    placeInv activeFile acc ->
    placeInv activeFile (placeLayer activeFile layerX layerStartY k layer acc).
Proof using Type.
  induction layer as [|nodeInfo layer IH]; intros k acc Hacc; simpl; [done|].
  apply IH.
  destruct (String.eqb_spec (path (file nodeInfo)) (path activeFile)) as [Heq|Hne];
    simpl; [done|].
  destruct Hacc as (Hids & Hrange & Hinj & Htotal).
  assert (forall p i,
            JsMap.get p (JsMap.set (path (file nodeInfo)) (nodeIdOf (nodeIndex acc))
                           (fileToNodeId acc)) = Some i ->
            (p = path (file nodeInfo) /\ i = nodeIdOf (nodeIndex acc)) \/
            (p <> path (file nodeInfo) /\ JsMap.get p (fileToNodeId acc) = Some i))
    as Hget.
  { intros p i. destruct (decide (path (file nodeInfo) = p)) as [<-|Hp].
    - rewrite JsMapFacts.get_set_eq. intros [= <-]. by left.
    - rewrite JsMapFacts.get_set_ne by done. intros Hi. right. by split. }
  assert (forall p, JsMap.get p (fileToNodeId acc) <> Some (nodeIdOf (nodeIndex acc)))
    as Hfresh.
  { intros p Hp. destruct (Hrange _ _ Hp) as [[_ Hc]|(_ & j & Hj & Heq)].
    - by apply nodeIdOf_not_center in Hc.
    - apply nodeIdOf_inj in Heq. lia. }
  split; [|split; [|split]]; cbn [placed nodeIndex fileToNodeId].
  - rewrite fmap_app, Hids, seq_S, fmap_app. done.
  - intros p i [[-> ->]|[Hp Hi]]%Hget.
    + right. split; [done|]. exists (nodeIndex acc). split; [lia|done].
    + destruct (Hrange _ _ Hi) as [?|(Hpa & j & Hj & ->)]; [by left|right].
      split; [done|]. exists j. split; [lia|done].
  - intros p q i [[-> ->]|[Hp Hi]]%Hget [[-> Hq]|[Hq Hi']]%Hget; try done.
    + by destruct (Hfresh q).
    + subst i. by destruct (Hfresh p).
    + by eapply Hinj.
  - intros n [Hn| ->%list_elem_of_singleton]%elem_of_app; simpl.
    + destruct (Htotal n Hn) as [i Hi].
      destruct (decide (path (file nodeInfo) = node_file n)) as [<-|Hp].
      * rewrite JsMapFacts.get_set_eq. by eexists.
      * rewrite JsMapFacts.get_set_ne by done. by eexists.
    + rewrite JsMapFacts.get_set_eq. by eexists.
Qed.

Lemma placeLayers_placeInv centerLayerIndex layers :
  forall k acc,
    placeInv activeFile acc ->
    placeInv activeFile (placeLayers settings activeFile centerLayerIndex k layers acc).
Proof using Type.
  induction layers as [|layer layers IH]; intros k acc Hacc; simpl; [done|].
  by apply IH, placeLayer_placeInv.
Qed.

Lemma placeInv_init (centerNode : CanvasNode) :
  node_id centerNode = "center-node" -> node_file centerNode = path activeFile ->
  placeInv activeFile
    {| placed := [centerNode];
       fileToNodeId := JsMap.set (path activeFile) "center-node" [];
       nodeIndex := 0 |}.
Proof using Type.
  intros Hid Hfile.
  assert (forall p i, JsMap.get p (JsMap.set (path activeFile) "center-node" []) = Some i ->
            p = path activeFile /\ i = "center-node") as Hget.
  { intros p i. simpl. destruct (String.eqb_spec (path activeFile) p) as [<-|_]; [|done].
    by intros [= <-]. }
  split; [|split; [|split]]; simpl.
  - by rewrite Hid.
  - intros p i Hi%Hget. by left.
  - intros p q i [-> _]%Hget [-> _]%Hget. done.
  - intros n ->%list_elem_of_singleton. rewrite Hfile, String.eqb_refl. by eexists.
Qed.
End PlaceMore.

Lemma edgesFrom_ids ids fromNodeId toPaths :
  forall acc,
    edge_id <$> acc = edgeIdOf <$> seq 0 (length acc) ->
    edge_id <$> edgesFrom ids fromNodeId toPaths acc
    = edgeIdOf <$> seq 0 (length (edgesFrom ids fromNodeId toPaths acc)).
Proof.
  unfold edgesFrom. induction toPaths as [|toPath toPaths IH]; intros acc Hacc; [done|].
  cbn [foldl]. apply IH. destruct (truthy _); [|done]. destruct (negb _); [|done].
  by rewrite fmap_app, length_app, Nat.add_1_r, seq_S, fmap_app, Hacc.
Qed.

Lemma createEdges_ids ids connections :
  edge_id <$> createEdges ids connections
  = edgeIdOf <$> seq 0 (length (createEdges ids connections)).
Proof.
  unfold createEdges.
  enough (forall acc,
            edge_id <$> acc = edgeIdOf <$> seq 0 (length acc) ->
            edge_id <$> foldl (edgesOfEntry ids) acc connections
            = edgeIdOf <$> seq 0 (length (foldl (edgesOfEntry ids) acc connections)))
    as Hgen by by apply Hgen.
  induction connections as [|[fromPath toPaths] connections IH]; intros acc Hacc; [done|].
  cbn [foldl]. apply IH. unfold edgesOfEntry.
  destruct (truthy _); [by apply edgesFrom_ids|done].
Qed.

Lemma NoDup_ids (idOf : nat -> string) n :
  (forall k k', idOf k = idOf k' -> k = k') -> NoDup (idOf <$> seq 0 n).
Proof.
  intros Hinj. apply NoDup_fmap_2; [|apply NoDup_seq].
  intros k k'. apply Hinj.
Qed.

(** What a successful build is made of. *)
Lemma createCanvasContent_Ok settings activeFile app localeCompare now fuel canvasData :
  createCanvasContent settings activeFile app localeCompare now fuel = Ok canvasData ->
  exists explored st,
    getAllNodesAndConnections app fuel activeFile (linkDepth settings) = Ok explored /\
    placeInv activeFile st /\ idsPlaced st /\
    canvas_nodes canvasData = placed st /\
    canvas_edges canvasData = createEdges (fileToNodeId st) (connections explored) /\
    canvas_meta canvasData = {| created := now; modified := now |} /\
    node_file <$> placed st
    = path activeFile
      :: documents
           (filter (fun n => path (file n) <> path activeFile)
              (concat (organizeNodesIntoLayers localeCompare activeFile
                         (nodes explored)))).
Proof.
  unfold createCanvasContent.
  intros (explored & Hexplored & Hbuild)%Res_bind_Ok. injection Hbuild as <-.
  eexists explored, _. split; [done|]. cbn [canvas_nodes canvas_edges canvas_meta].
  split; [|split; [|split; [done|split; [done|split; [done|]]]]].
  - by apply placeLayers_placeInv, placeInv_init.
  - apply placeLayers_idsPlaced. intros p i. simpl.
    destruct (String.eqb_spec (path activeFile) p) as [<-|_]; [|done].
    intros [= <-]. eexists. split; [left|done].
  - by rewrite placeLayers_files.
Qed.

Lemma explored_nodes_seed_first app fuel centerFile depth st :
  getAllNodesAndConnections app fuel centerFile depth = Ok st ->
  exists rest,
    nodes st = {| file := centerFile; level := 0; isBacklink := false |} :: rest /\
    filter (fun n => path (file n) <> path centerFile) (nodes st) = rest.
Proof.
  intros Hrun.
  pose proof (getAllNodesAndConnections_wellVisited _ _ _ _ _ Hrun) as [Hnd _].
  unfold getAllNodesAndConnections in Hrun.
  apply exploreAllConnections_grows in Hrun as [_ [rest Hrest]]. simpl in Hrest.
  exists rest. split; [done|]. rewrite Hrest in *.
  rewrite filter_cons_False by (by intros ?).
  unfold documents in Hnd. rewrite fmap_cons in Hnd. apply NoDup_cons in Hnd as [Hseed _].
  clear Hrest. induction rest as [|n rest IH]; [done|].
  rewrite filter_cons_True.
  - f_equal. apply IH. intros Hin. apply Hseed. simpl. by right.
  - intros Heq. apply Hseed. simpl. rewrite <- Heq. left.
Qed.

Lemma createCanvasContent_one_node_per_document_aux
    settings activeFile app localeCompare now fuel canvasData :
  createCanvasContent settings activeFile app localeCompare now fuel = Ok canvasData ->
  NoDup (node_file <$> canvas_nodes canvasData) /\
  exists explored,
    getAllNodesAndConnections app fuel activeFile (linkDepth settings) = Ok explored /\
    node_file <$> canvas_nodes canvasData ≡ₚ documents (nodes explored).
Proof.
  intros (explored & st & Hexplored & _ & _ & -> & _ & _ & Hfiles)%createCanvasContent_Ok.
  destruct (explored_nodes_seed_first _ _ _ _ _ Hexplored) as (rest & Hnodes & Hrest).
  assert (node_file <$> placed st ≡ₚ documents (nodes explored)) as Hperm.
  { rewrite Hfiles, Hnodes. unfold documents. rewrite fmap_cons. simpl.
    apply Permutation_skip, fmap_Permutation.
    rewrite organizeNodesIntoLayers_concat.
    rewrite !filter_cons_False by (by intros ?).
    rewrite list_filter_filter, (list_filter_iff _ (fun n => path (file n) <> path activeFile))
      by tauto.
    rewrite Hnodes in Hrest. rewrite filter_cons_False in Hrest by (by intros ?).
    by rewrite Hrest. }
  split; [|by exists explored].
  rewrite Hperm. by apply (getAllNodesAndConnections_wellVisited _ _ _ _ _ Hexplored).
Qed.

(** X5.  A built canvas has exactly one node per explored document: the
    documents of its nodes are the documents of the explored node list, each
    once. *)
Theorem createCanvasContent_one_node_per_document
    settings activeFile app localeCompare now fuel canvasData :
  createCanvasContent settings activeFile app localeCompare now fuel = Ok canvasData ->
  NoDup (node_file <$> canvas_nodes canvasData) /\
  exists explored,
    getAllNodesAndConnections app fuel activeFile (linkDepth settings) = Ok explored /\
    node_file <$> canvas_nodes canvasData ≡ₚ documents (nodes explored).
Proof. apply createCanvasContent_one_node_per_document_aux. Qed.

Lemma createCanvasContent_one_node_per_document_witness :
  match createCanvasContent TwoNotes.settings Cyclic.A Cyclic.app
          TwoNotes.localeCompare "t0" 2 with
  | Ok canvasData =>
      NoDup (node_file <$> canvas_nodes canvasData) /\
      exists explored,
        getAllNodesAndConnections Cyclic.app 2 Cyclic.A (linkDepth TwoNotes.settings)
          = Ok explored /\
        node_file <$> canvas_nodes canvasData ≡ₚ documents (nodes explored)
  | Err _ => False
  end.
Proof.
  destruct (createCanvasContent TwoNotes.settings Cyclic.A Cyclic.app
              TwoNotes.localeCompare "t0" 2) as [canvasData|err] eqn:Hrun.
  - exact (createCanvasContent_one_node_per_document TwoNotes.settings Cyclic.A
             Cyclic.app TwoNotes.localeCompare "t0" 2 canvasData Hrun).
  - vm_compute in Hrun. discriminate Hrun.
Defined.

(** X6.  Ids are unique within a built canvas: no two nodes share an id and
    no two edges share an id. *)
Theorem createCanvasContent_ids_unique
    settings activeFile app localeCompare now fuel canvasData :
  createCanvasContent settings activeFile app localeCompare now fuel = Ok canvasData ->
  NoDup (node_id <$> canvas_nodes canvasData) /\
  NoDup (edge_id <$> canvas_edges canvasData).
Proof.
  intros (explored & st & _ & (Hids & _) & _ & -> & -> & _)%createCanvasContent_Ok. split.
  - rewrite Hids. apply NoDup_cons. split; [|apply NoDup_ids, nodeIdOf_inj].
    intros (k & Hk & _)%list_elem_of_fmap. by destruct (nodeIdOf_not_center k).
  - rewrite createEdges_ids. apply NoDup_ids, edgeIdOf_inj.
Qed.

Lemma createCanvasContent_ids_unique_witness :
  match createCanvasContent TwoNotes.settings Cyclic.A Cyclic.app
          TwoNotes.localeCompare "t0" 2 with
  | Ok canvasData =>
      NoDup (node_id <$> canvas_nodes canvasData) /\
      NoDup (edge_id <$> canvas_edges canvasData)
  | Err _ => False
  end.
Proof.
  destruct (createCanvasContent TwoNotes.settings Cyclic.A Cyclic.app
              TwoNotes.localeCompare "t0" 2) as [canvasData|err] eqn:Hrun.
  - exact (createCanvasContent_ids_unique TwoNotes.settings Cyclic.A
             Cyclic.app TwoNotes.localeCompare "t0" 2 canvasData Hrun).
  - vm_compute in Hrun. discriminate Hrun.
Defined.

Lemma placeInv_truthy activeFile st p i :
  placeInv activeFile st -> JsMap.get p (fileToNodeId st) = Some i ->
  truthy (JsMap.get p (fileToNodeId st)) = Some i.
Proof.
  intros (_ & Hrange & _) Hget. rewrite Hget.
  by destruct (Hrange _ _ Hget) as [[_ ->]|(_ & k & _ & ->)].
Qed.

Lemma createCanvasContent_draws_connection
    settings activeFile app localeCompare now fuel canvasData explored
    src targets tgt :
  createCanvasContent settings activeFile app localeCompare now fuel = Ok canvasData ->
  getAllNodesAndConnections app fuel activeFile (linkDepth settings) = Ok explored ->
  (src, targets) ∈ connections explored -> tgt ∈ targets -> src <> tgt ->
  exists e n1 n2,
    e ∈ canvas_edges canvasData /\
    n1 ∈ canvas_nodes canvasData /\ n2 ∈ canvas_nodes canvasData /\
    node_file n1 = src /\ node_file n2 = tgt /\
    fromNode e = node_id n1 /\ toNode e = node_id n2.
Proof.
  intros Hbuild Hexplored Hin Htgt Hne.
  pose proof Hbuild as
    (_ & ex1 & Hex1 & Hperm)%createCanvasContent_one_node_per_document_aux.
  pose proof Hbuild as
    (ex2 & st & Hex2 & Hinv & Hplaced & Hnodes & Hedges & _)%createCanvasContent_Ok.
  assert (ex1 = explored) as -> by congruence.
  assert (ex2 = explored) as -> by congruence.
  destruct (getAllNodesAndConnections_closed _ _ _ _ _ Hexplored _ _ Hin) as [Hsrc Htargets].
  specialize (Htargets _ Htgt). rewrite <- Hperm, Hnodes in Hsrc, Htargets.
  apply list_elem_of_fmap in Hsrc as (m1 & -> & Hm1).
  apply list_elem_of_fmap in Htargets as (m2 & -> & Hm2).
  pose proof Hinv as (_ & _ & Hinj & Htotal).
  destruct (Htotal _ Hm1) as [i1 Hi1]. destruct (Htotal _ Hm2) as [i2 Hi2].
  destruct (createEdges_complete (fileToNodeId st) (connections explored)
              (node_file m1) targets (node_file m2) i1 i2) as (e & He & Hfrom & Hto);
    try done; try by eapply placeInv_truthy.
  { intros <-. apply Hne. by eapply Hinj. }
  destruct (Hplaced _ _ Hi1) as (n1 & Hn1 & Hf1 & Hid1).
  destruct (Hplaced _ _ Hi2) as (n2 & Hn2 & Hf2 & Hid2).
  exists e, n1, n2. rewrite Hnodes, Hedges. repeat split; try done; congruence.
Qed.

(** X7.  The build draws every recorded connection between two different
    documents: both ends are placed nodes, and an edge runs from the node of
    the source to the node of the target.  Only the pairs of a document with
    itself have no edge. *)
Theorem createCanvasContent_draws_every_connection
    settings activeFile app localeCompare now fuel canvasData explored
    src targets tgt :
  createCanvasContent settings activeFile app localeCompare now fuel = Ok canvasData ->
  getAllNodesAndConnections app fuel activeFile (linkDepth settings) = Ok explored ->
  (src, targets) ∈ connections explored -> tgt ∈ targets -> src <> tgt ->
  exists e n1 n2,
    e ∈ canvas_edges canvasData /\
    n1 ∈ canvas_nodes canvasData /\ n2 ∈ canvas_nodes canvasData /\
    node_file n1 = src /\ node_file n2 = tgt /\
    fromNode e = node_id n1 /\ toNode e = node_id n2.
Proof. apply createCanvasContent_draws_connection. Qed.

Lemma createCanvasContent_draws_every_connection_witness :
  match createCanvasContent TwoNotes.settings Cyclic.A Cyclic.app
          TwoNotes.localeCompare "t0" 2 with
  | Ok canvasData =>
      exists e n1 n2,
        e ∈ canvas_edges canvasData /\
        n1 ∈ canvas_nodes canvasData /\ n2 ∈ canvas_nodes canvasData /\
        node_file n1 = "A.md" /\ node_file n2 = "B.md" /\
        fromNode e = node_id n1 /\ toNode e = node_id n2
  | Err _ => False
  end.
Proof.
  destruct (createCanvasContent TwoNotes.settings Cyclic.A Cyclic.app
              TwoNotes.localeCompare "t0" 2) as [canvasData|err] eqn:Hbuild;
    [|vm_compute in Hbuild; discriminate Hbuild].
  destruct (getAllNodesAndConnections Cyclic.app 2 Cyclic.A
              (linkDepth TwoNotes.settings)) as [explored|err] eqn:Hexplored;
    [|vm_compute in Hexplored; discriminate Hexplored].
  apply (createCanvasContent_draws_every_connection TwoNotes.settings Cyclic.A
           Cyclic.app TwoNotes.localeCompare "t0" 2 canvasData explored
           "A.md" ["A.md"; "B.md"] "B.md" Hbuild Hexplored).
  - vm_compute in Hexplored. injection Hexplored as <-. left.
  - right. left.
  - discriminate.
Defined.

(** X8.  With a link depth of 0 the build explores nothing: whatever the
    link index holds, the canvas is the centre node alone, at the canvas
    centre, without edges. *)
Theorem createCanvasContent_depth_zero settings activeFile app localeCompare now fuel :
  linkDepth settings = 0 -> 0 < fuel ->
  createCanvasContent settings activeFile app localeCompare now fuel
  = Ok {| canvas_nodes :=
            [{| node_id := "center-node"; node_type := "file";
                node_file := path activeFile;
                node_x := (canvasWidth settings / 2)%Q;
                node_y := (canvasHeight settings / 2)%Q;
                node_width := nodeWidth; node_height := nodeHeight |}];
          canvas_edges := [];
          canvas_meta := {| created := now; modified := now |} |}.
Proof.
  intros Hdepth Hfuel. unfold createCanvasContent, getAllNodesAndConnections.
  rewrite Hdepth, exploreAllConnections_beyond by lia.
  cbn [mbind Res_bind nodes connections]. unfold organizeNodesIntoLayers. simpl.
  rewrite !String.eqb_refl. simpl. rewrite !String.eqb_refl. simpl.
  unfold createEdges, edgesOfEntry. simpl. by rewrite !String.eqb_refl.
Qed.

Lemma createCanvasContent_depth_zero_witness :
  createCanvasContent {| canvasWidth := 800; canvasHeight := 600; linkDepth := 0 |}
    Cyclic.A Cyclic.app TwoNotes.localeCompare "t0" 1
  = Ok {| canvas_nodes :=
            [{| node_id := "center-node"; node_type := "file";
                node_file := path Cyclic.A;
                node_x := (800 / 2)%Q; node_y := (600 / 2)%Q;
                node_width := nodeWidth; node_height := nodeHeight |}];
          canvas_edges := [];
          canvas_meta := {| created := "t0"; modified := "t0" |} |}.
Proof.
  apply (createCanvasContent_depth_zero
           {| canvasWidth := 800; canvasHeight := 600; linkDepth := 0 |}
           Cyclic.A Cyclic.app TwoNotes.localeCompare "t0" 1).
  - reflexivity.
  - lia.
Defined.

(** ** The getters on a well-formed index *)

Lemma flat_map_paths_NoDup {V : Type} (g : string * V -> list TFile)
    (entries : list (string * V)) :
  NoDup entries.*1 ->
  (forall x, g x = [] \/ exists f, g x = [f] /\ path f = x.1) ->
  NoDup (path <$> flat_map g entries) /\
  forall p, p ∈ path <$> flat_map g entries -> p ∈ entries.*1.
Proof.
  intros Hnd Hg. induction entries as [|x entries IH]; simpl.
  { split; [constructor|]. by intros p ?%elem_of_nil. }
  rewrite fmap_cons in Hnd. apply NoDup_cons in Hnd as [Hx Hnd].
  destruct (IH Hnd) as [IHnd IHin]. rewrite fmap_app.
  destruct (Hg x) as [->|(f & -> & Hf)]; simpl.
  - split; [done|]. intros p Hp. right. by apply IHin.
  - split.
    + apply NoDup_cons. split; [|done]. rewrite Hf. intros Hin. by apply Hx, IHin.
    + intros p [->|Hp]%elem_of_cons; [rewrite Hf; left|right; by apply IHin].
Qed.

Lemma mdFile_at_most_one app p :
  vaultCoherent app ->
  mdFile app p = [] \/ exists f, mdFile app p = [f] /\ path f = p.
Proof.
  intros Hcoh. unfold mdFile.
  destruct (getAbstractFileByPath app p) as [[f|d]|] eqn:Hget; try by left.
  destruct (String.eqb _ _); [|by left]. right. exists f. split; [done|by apply Hcoh].
Qed.

Lemma getForwardLinks_NoDup app file :
  indexOk app -> vaultCoherent app -> NoDup (path <$> getForwardLinks app file).
Proof.
  intros [_ Hlinks] Hcoh. unfold getForwardLinks.
  destruct (obj_get _ _) as [links|] eqn:Hget; [|constructor].
  apply obj_get_elem_of, Hlinks in Hget as [Hnd _].
  apply (flat_map_paths_NoDup (fun '(targetPath, _) => mdFile app targetPath)); [done|].
  intros [targetPath count]. by apply mdFile_at_most_one.
Qed.

Lemma getBacklinks_NoDup app file :
  indexOk app -> vaultCoherent app -> NoDup (path <$> getBacklinks app file).
Proof.
  intros [Hkeys _] Hcoh. unfold getBacklinks.
  apply (flat_map_paths_NoDup _ (resolvedLinks app)); [done|].
  intros [sourcePath links]. destruct (obj_get _ _) as [[|count]|]; try by left.
  by apply mdFile_at_most_one.
Qed.

(** X9.  On a well-formed index and a coherent vault neither getter returns
    a note twice. *)
Theorem getters_return_each_note_once app file :
  indexOk app -> vaultCoherent app ->
  NoDup (path <$> getForwardLinks app file) /\
  NoDup (path <$> getBacklinks app file).
Proof.
  intros Hok Hcoh. split; [by apply getForwardLinks_NoDup|by apply getBacklinks_NoDup].
Qed.

Lemma getters_return_each_note_once_witness :
  NoDup (path <$> getForwardLinks Cyclic.app Cyclic.A) /\
  NoDup (path <$> getBacklinks Cyclic.app Cyclic.A).
Proof.
  apply (getters_return_each_note_once Cyclic.app Cyclic.A).
  - apply Cyclic_indexOk.
  - apply Cyclic_vaultCoherent.
Defined.

(** ** More on one expansion *)

Lemma positionStep_run existing (targetX idealStartY : Q) count :
  forall a (acc positions : list (Q * Q)),
    for_of (seq a count) (positionStep existing targetX idealStartY) acc = Ok positions ->
    exists ps,
      positions = acc ++ ps /\ length ps = count /\
      forall i p, ps !! i = Some p ->
        p.1 = targetX /\
        bestYFor existing
          (idealStartY + inject_Z (Z.of_nat (a + i)) * verticalSpacing)%Q = Ok p.2.
Proof.
  induction count as [|count IH]; intros a acc positions; simpl.
  - intros [= <-]. exists []. rewrite app_nil_r. by repeat split.
  - unfold positionStep at 1.
    destruct (bestYFor existing _) as [y|] eqn:Hy; [|done]. cbn [mbind Res_bind].
    intros (ps & -> & Hlen & Hps)%IH.
    exists ((targetX, y) :: ps). split; [by rewrite <- app_assoc|].
    split; [simpl; lia|].
    intros [|i] p; simpl.
    + intros [= <-]. by rewrite Nat.add_0_r.
    + intros Hp. destruct (Hps i p Hp) as [Hx Hbest]. split; [done|].
      by rewrite Nat.add_succ_r.
Qed.

Lemma addedFrom_lookup entropy direction focusNode todo :
  forall k i n,
    (addedFrom entropy direction focusNode k todo).*1 !! i = Some n ->
    exists linkedFile position,
      todo !! i = Some (linkedFile, position) /\
      n = newNodeOf entropy (k + i) linkedFile position.
Proof.
  induction todo as [|[linkedFile position] todo IH]; intros k [|i] n; simpl; try done.
  - intros [= <-]. exists linkedFile, position. by rewrite Nat.add_0_r.
  - intros Hn. destruct (IH (S k) i n Hn) as (f & pos & Hlook & ->).
    exists f, pos. split; [done|]. by rewrite Nat.add_succ_r.
Qed.

(** The nodes a call adds, one for one with the missing links and with the
    positions the placement loop chose. *)
Lemma expandCanvas_added app entropy now canvasData focusNote direction focusNode :
  findFocusNode canvasData focusNote = Some focusNode ->
  let nodesToAdd := nodesToAddOf app canvasData focusNote direction in
  let targetX := targetXOf focusNode direction in
  let existing := existingNodesAt targetX (canvas_nodes canvasData) in
  exists canvasData' added,
    expandCanvas app entropy now (Json canvasData) focusNote direction
      = Ok (Json canvasData') /\
    canvas_nodes canvasData' = canvas_nodes canvasData ++ added.*1 /\
    canvas_edges canvasData' = canvas_edges canvasData ++ added.*2 /\
    length added = length nodesToAdd /\
    (forall n e, (n, e) ∈ added -> joinsFocus direction focusNode n e) /\
    forall i n, added.*1 !! i = Some n ->
      exists linkedFile,
        nodesToAdd !! i = Some linkedFile /\
        node_file n = path linkedFile /\ node_x n = targetX /\
        node_width n = nodeWidth /\ node_height n = nodeHeight /\
        bestYFor existing (idealYOf (node_y focusNode) (length nodesToAdd) i)
          = Ok (node_y n).
Proof.
  intros Hfocus nodesToAdd targetX existing.
  destruct (decide (nodesToAdd = [])) as [Hnil|Hsome].
  { exists canvasData, []. rewrite Hnil. simpl. rewrite !app_nil_r.
    split; [by apply expandCanvas_nothing_to_add|].
    do 3 (split; [done|]). split; [by intros n e ?%elem_of_nil|done]. }
  unfold expandCanvas. fold nodesToAdd. rewrite Hfocus.
  replace (length nodesToAdd =? 0)%nat with false
    by (destruct nodesToAdd; [done|reflexivity]).
  fold targetX. fold existing. unfold newNodePositionsFor.
  destruct (for_of _ _ _) as [positions|err] eqn:Hpos.
  2:{ destruct (newNodePositionsFor_spec existing targetX
                  (node_y focusNode
                   - (inject_Z (Z.of_nat (length nodesToAdd) - 1) * verticalSpacing) / 2)%Q
                  (length nodesToAdd)) as (ys & Hrun & _).
      unfold newNodePositionsFor in Hrun. congruence. }
  apply positionStep_run in Hpos as (ps & -> & Hlen & Hps). simpl.
  rewrite addNodes_spec. cbn [acc_nodes acc_edges newNodes]. rewrite app_nil_l.
  set (added := addedFrom entropy direction focusNode 0 (zip nodesToAdd ps)).
  assert (length added = length nodesToAdd) as Hadded
    by (unfold added; rewrite addedFrom_length, length_zip; lia).
  replace (0 <? length added.*1)%nat with true
    by (rewrite length_fmap, Hadded; destruct nodesToAdd; [done|reflexivity]).
  eexists _, added. split; [reflexivity|]. simpl. do 3 (split; [done|]).
  split; [intros n e; apply addedFrom_joins|].
  intros i n (linkedFile & position & Hzip & ->)%addedFrom_lookup.
  apply lookup_zip_with_Some in Hzip as (f & pos & Heq & Hf & Hp). simplify_eq.
  destruct (Hps i pos Hp) as [Hx Hbest].
  exists f. by repeat split.
Qed.

Lemma Crowded_vaultCoherent : vaultCoherent Crowded.app.
Proof.
  intros p f. unfold Crowded.app. cbn [getAbstractFileByPath].
  destruct (String.eqb_spec p "A.md") as [->|_]; [by intros [= <-]|].
  destruct (String.eqb_spec p "C.md") as [->|_]; [by intros [= <-]|].
  destruct (String.eqb_spec p "D.md") as [->|_]; [by intros [= <-]|done].
Qed.

Lemma Crowded_indexOk : indexOk Crowded.app.
Proof.
  split.
  - apply (bool_decide_unpack _). by vm_compute.
  - intros sourcePath links Hin. cbn [resolvedLinks Crowded.app] in Hin.
    repeat (apply elem_of_cons in Hin as [Hin|Hin]; [injection Hin as -> ->|]).
    + split; [apply (bool_decide_unpack _); by vm_compute|].
      intros t c Ht.
      repeat (apply elem_of_cons in Ht as [Ht|Ht]; [by injection Ht as -> ->|]).
      by apply elem_of_nil in Ht.
    + split; [apply (bool_decide_unpack _); by vm_compute|].
      intros t c Ht.
      repeat (apply elem_of_cons in Ht as [Ht|Ht]; [by injection Ht as -> ->|]).
      by apply elem_of_nil in Ht.
    + by apply elem_of_nil in Hin.
Qed.

Lemma findFocusNode_Some canvasData focusNote focusNode :
  findFocusNode canvasData focusNote = Some focusNode ->
  focusNode ∈ canvas_nodes canvasData /\ node_file focusNode = path focusNote.
Proof.
  unfold findFocusNode. intros [Hin Heq]%find_some. split.
  - by apply list_elem_of_In.
  - by apply String.eqb_eq.
Qed.

Lemma lookup_fmap_fst_elem {A B : Type} (l : list (A * B)) i a :
  l.*1 !! i = Some a -> exists b, (a, b) ∈ l.
Proof.
  rewrite list_lookup_fmap. destruct (l !! i) as [[a' b]|] eqn:Hl; [|done].
  intros [= <-]. exists b. by eapply list_elem_of_lookup_2.
Qed.

(** X10.  A call whose focus note has a node on the canvas appends one node
    per link that was not yet on the canvas, in the order the link getter
    returns them, all of them in the column one [horizontalSpacing] beside
    the focus node and of the fixed size. *)
Theorem expandCanvas_adds_the_missing_links
    app entropy now canvasData focusNote direction focusNode :
  findFocusNode canvasData focusNote = Some focusNode ->
  exists canvasData' addedNodes,
    expandCanvas app entropy now (Json canvasData) focusNote direction
      = Ok (Json canvasData') /\
    canvas_nodes canvasData' = canvas_nodes canvasData ++ addedNodes /\
    node_file <$> addedNodes
      = path <$> nodesToAddOf app canvasData focusNote direction /\
    Forall (fun n =>
              node_x n = targetXOf focusNode direction /\
              node_width n = nodeWidth /\ node_height n = nodeHeight) addedNodes.
Proof.
  intros Hfocus.
  destruct (expandCanvas_added app entropy now canvasData focusNote direction
              focusNode Hfocus)
    as (canvasData' & added & Hrun & Hnodes & _ & Hlen & _ & Hith).
  exists canvasData', added.*1. do 2 (split; [done|]). split.
  - apply list_eq. intros i.
    rewrite (list_lookup_fmap node_file), (list_lookup_fmap path).
    destruct (added.*1 !! i) as [n|] eqn:Hn.
    + destruct (Hith i n Hn) as (l & -> & Hfile & _). simpl. by rewrite Hfile.
    + apply lookup_ge_None in Hn. rewrite length_fmap, Hlen in Hn.
      apply lookup_ge_None in Hn. by rewrite Hn.
  - apply Forall_lookup. intros i n Hn.
    by destruct (Hith i n Hn) as (l & _ & _ & ? & ? & ? & _).
Qed.

Lemma expandCanvas_adds_the_missing_links_witness :
  exists canvasData' addedNodes,
    expandCanvas Crowded.app Crowded.entropy "t1" (Json Crowded.canvas) Crowded.A Right
      = Ok (Json canvasData') /\
    canvas_nodes canvasData' = canvas_nodes Crowded.canvas ++ addedNodes /\
    node_file <$> addedNodes
      = path <$> nodesToAddOf Crowded.app Crowded.canvas Crowded.A Right /\
    Forall (fun n =>
              node_x n = targetXOf (Crowded.fileNode "center-node" "A.md" 0 0) Right /\
              node_width n = nodeWidth /\ node_height n = nodeHeight) addedNodes.
Proof.
  apply (expandCanvas_adds_the_missing_links Crowded.app Crowded.entropy "t1"
           Crowded.canvas Crowded.A Right (Crowded.fileNode "center-node" "A.md" 0 0)).
  reflexivity.
Defined.

(** X11.  The [i]-th new node of a call goes to its ideal height, the slots
    being spaced [verticalSpacing] apart and centred on the focus node,
    whenever no node of the target column is in the way there. *)
Theorem expandCanvas_takes_free_ideal_slot
    app entropy now canvasData focusNote direction focusNode :
  findFocusNode canvasData focusNote = Some focusNode ->
  let count := length (nodesToAddOf app canvasData focusNote direction) in
  let column :=
    existingNodesAt (targetXOf focusNode direction) (canvas_nodes canvasData) in
  exists canvasData' addedNodes,
    expandCanvas app entropy now (Json canvasData) focusNote direction
      = Ok (Json canvasData') /\
    canvas_nodes canvasData' = canvas_nodes canvasData ++ addedNodes /\
    length addedNodes = count /\
    forall i n,
      addedNodes !! i = Some n ->
      conflictsAt column (idealYOf (node_y focusNode) count i) = [] ->
      node_y n = idealYOf (node_y focusNode) count i.
Proof.
  intros Hfocus count column.
  destruct (expandCanvas_added app entropy now canvasData focusNote direction
              focusNode Hfocus)
    as (canvasData' & added & Hrun & Hnodes & _ & Hlen & _ & Hith).
  exists canvasData', added.*1. do 2 (split; [done|]).
  split; [by rewrite length_fmap|].
  intros i n Hn Hfree.
  destruct (Hith i n Hn) as (l & _ & _ & _ & _ & _ & Hbest).
  unfold bestYFor in Hbest. fold column count in Hbest. rewrite Hfree in Hbest.
  by injection Hbest as <-.
Qed.

Lemma expandCanvas_takes_free_ideal_slot_witness :
  exists canvasData' addedNodes,
    expandCanvas Crowded.app Crowded.entropy "t1" (Json Crowded.alone) Crowded.A Right
      = Ok (Json canvasData') /\
    canvas_nodes canvasData' = canvas_nodes Crowded.alone ++ addedNodes /\
    length addedNodes = 2 /\
    forall i n,
      addedNodes !! i = Some n ->
      conflictsAt
        (existingNodesAt (targetXOf (Crowded.fileNode "center-node" "A.md" 0 0) Right)
           (canvas_nodes Crowded.alone))
        (idealYOf 0 2 i) = [] ->
      node_y n = idealYOf 0 2 i.
Proof.
  apply (expandCanvas_takes_free_ideal_slot Crowded.app Crowded.entropy "t1"
           Crowded.alone Crowded.A Right (Crowded.fileNode "center-node" "A.md" 0 0)).
  reflexivity.
Defined.

(** X12.  A call keeps the canvas free of dangling edges: when every edge
    read from the file starts and ends at a node of the file, so does every
    edge written back. *)
Theorem expandCanvas_keeps_edges_resolved
    app entropy now canvasData focusNote direction :
  edgesResolved canvasData ->
  exists canvasData',
    expandCanvas app entropy now (Json canvasData) focusNote direction
      = Ok (Json canvasData') /\
    edgesResolved canvasData'.
Proof.
  intros Hres.
  destruct (expandCanvas_cases app entropy now canvasData focusNote direction)
    as [[_ Hrun]|(focusNode & ys & Hfocus & _ & _ & _ & Hrun)].
  { by exists canvasData. }
  eexists. split; [exact Hrun|]. cbv zeta.
  set (added := addedFrom _ _ _ _ _).
  apply findFocusNode_Some in Hfocus as [Hfocus _].
  intros e. cbn [canvas_edges canvas_nodes]. rewrite fmap_app.
  intros [He|He]%elem_of_app.
  - destruct (Hres e He) as [Hfrom Hto]. split; apply elem_of_app; by left.
  - apply list_elem_of_fmap in He as ([n e'] & -> & Hin). cbn [snd].
    assert (node_id n ∈ node_id <$> added.*1) as Hn.
    { apply list_elem_of_fmap. exists n. split; [done|].
      apply list_elem_of_fmap. by exists (n, e'). }
    assert (node_id focusNode ∈ node_id <$> canvas_nodes canvasData) as Hf.
    { apply list_elem_of_fmap. by exists focusNode. }
    apply addedFrom_joins in Hin as (_ & _ & Hends).
    destruct direction, Hends as [-> ->]; split; apply elem_of_app; auto.
Qed.

Lemma expandCanvas_keeps_edges_resolved_witness :
  exists canvasData',
    expandCanvas Crowded.app Crowded.entropy "t1" (Json Crowded.alone) Crowded.A Right
      = Ok (Json canvasData') /\
    edgesResolved canvasData'.
Proof.
  apply (expandCanvas_keeps_edges_resolved Crowded.app Crowded.entropy "t1"
           Crowded.alone Crowded.A Right).
  intros e He. by apply elem_of_nil in He.
Defined.

Lemma nodesToAddOf_fresh app canvasData focusNote direction :
  indexOk app -> vaultCoherent app ->
  NoDup (path <$> nodesToAddOf app canvasData focusNote direction) /\
  forall p, p ∈ path <$> nodesToAddOf app canvasData focusNote direction ->
    p ∉ node_file <$> canvas_nodes canvasData.
Proof.
  intros Hok Hcoh. unfold nodesToAddOf. split.
  - assert (NoDup (path <$> newConnectionsOf app focusNote direction)) as Hnd.
    { destruct direction; [by apply getBacklinks_NoDup|by apply getForwardLinks_NoDup]. }
    revert Hnd. generalize (newConnectionsOf app focusNote direction).
    intros links. induction links as [|l links IH]; [done|].
    rewrite fmap_cons. intros [Hl Hnd]%NoDup_cons. rewrite filter_cons.
    case_decide; [|by apply IH]. rewrite fmap_cons. apply NoDup_cons.
    split; [|by apply IH]. intros (l' & Heq & Hin%list_elem_of_filter)%list_elem_of_fmap.
    apply Hl, list_elem_of_fmap. exists l'. by destruct Hin.
  - intros p (l & -> & [Hfresh _]%list_elem_of_filter)%list_elem_of_fmap Hin.
    by apply Hfresh, elem_of_list_to_set.
Qed.

(** X13.  On a well-formed index and a coherent vault a call keeps the
    canvas at one node per document. *)
Theorem expandCanvas_keeps_one_node_per_document
    app entropy now canvasData focusNote direction :
  indexOk app -> vaultCoherent app ->
  NoDup (node_file <$> canvas_nodes canvasData) ->
  exists canvasData',
    expandCanvas app entropy now (Json canvasData) focusNote direction
      = Ok (Json canvasData') /\
    NoDup (node_file <$> canvas_nodes canvasData').
Proof.
  intros Hok Hcoh Hnd.
  destruct (findFocusNode canvasData focusNote) as [focusNode|] eqn:Hfocus.
  2:{ exists canvasData. split; [|done].
      destruct (expandCanvas_cases app entropy now canvasData focusNote direction)
        as [[_ Hrun]|(focusNode & ys & Hsome & _)]; [done|congruence]. }
  destruct (expandCanvas_added app entropy now canvasData focusNote direction
              focusNode Hfocus)
    as (canvasData' & added & Hrun & Hnodes & _ & Hlen & _ & Hith).
  exists canvasData'. split; [done|]. rewrite Hnodes, fmap_app.
  assert (node_file <$> added.*1
          = path <$> nodesToAddOf app canvasData focusNote direction) as Hfiles.
  { apply list_eq. intros i.
    rewrite (list_lookup_fmap node_file), (list_lookup_fmap path).
    destruct (added.*1 !! i) as [n|] eqn:Hn.
    - destruct (Hith i n Hn) as (l & -> & Hfile & _). simpl. by rewrite Hfile.
    - apply lookup_ge_None in Hn. rewrite length_fmap, Hlen in Hn.
      apply lookup_ge_None in Hn. by rewrite Hn. }
  rewrite Hfiles.
  destruct (nodesToAddOf_fresh app canvasData focusNote direction Hok Hcoh)
    as [Hnew Hfresh].
  apply NoDup_app. split; [done|]. split; [|done].
  intros p Hold Hp. by apply (Hfresh p).
Qed.

Lemma expandCanvas_keeps_one_node_per_document_witness :
  exists canvasData',
    expandCanvas Crowded.app Crowded.entropy "t1" (Json Crowded.canvas) Crowded.A Right
      = Ok (Json canvasData') /\
    NoDup (node_file <$> canvas_nodes canvasData').
Proof.
  apply (expandCanvas_keeps_one_node_per_document Crowded.app Crowded.entropy "t1"
           Crowded.canvas Crowded.A Right).
  - apply Crowded_indexOk.
  - apply Crowded_vaultCoherent.
  - apply (bool_decide_unpack _). by vm_compute.
Defined.

(** ** The expansion commands *)

Lemma extends_refl canvasData : extends canvasData canvasData.
Proof. by repeat split. Qed.

Lemma extends_trans a b c : extends a b -> extends b c -> extends a c.
Proof.
  intros (Hn1 & He1 & Hc1) (Hn2 & He2 & Hc2). repeat split.
  - by etrans.
  - by etrans.
  - congruence.
Qed.

(** One call never fails and returns a canvas that extends the one read. *)
Lemma expandCanvas_extends app entropy now canvasData focusNote direction :
  exists canvasData',
    expandCanvas app entropy now (Json canvasData) focusNote direction
      = Ok (Json canvasData') /\
    extends canvasData canvasData'.
Proof.
  destruct (expandCanvas_cases app entropy now canvasData focusNote direction)
    as [[_ Hrun]|(focusNode & ys & _ & _ & _ & _ & Hrun)].
  - exists canvasData. split; [done|apply extends_refl].
  - eexists. split; [exact Hrun|]. repeat split; simpl; by apply prefix_app_r.
Qed.

(** A call that finds its focus node adds the nodes of the missing links. *)
Lemma expandCanvas_proceeds app entropy now canvasData focusNote direction focusNode :
  findFocusNode canvasData focusNote = Some focusNode ->
  exists canvasData' addedNodes,
    expandCanvas app entropy now (Json canvasData) focusNote direction
      = Ok (Json canvasData') /\
    canvas_nodes canvasData' = canvas_nodes canvasData ++ addedNodes /\
    node_file <$> addedNodes
      = path <$> nodesToAddOf app canvasData focusNote direction.
Proof.
  intros Hfocus.
  destruct (expandCanvas_added app entropy now canvasData focusNote direction
              focusNode Hfocus)
    as (canvasData' & added & Hrun & Hnodes & _ & Hlen & _ & Hith).
  exists canvasData', added.*1. do 2 (split; [done|]).
  apply list_eq. intros i.
  rewrite (list_lookup_fmap node_file), (list_lookup_fmap path).
  destruct (added.*1 !! i) as [n|] eqn:Hn.
  - destruct (Hith i n Hn) as (l & -> & Hfile & _). simpl. by rewrite Hfile.
  - apply lookup_ge_None in Hn. rewrite length_fmap, Hlen in Hn.
    apply lookup_ge_None in Hn. by rewrite Hn.
Qed.

Lemma findFocusNode_found canvasData focusNote node :
  node ∈ canvas_nodes canvasData -> node_file node = path focusNote ->
  exists focusNode, findFocusNode canvasData focusNote = Some focusNode.
Proof.
  intros Hin Hfile. unfold findFocusNode.
  destruct (find _ _) as [focusNode|] eqn:Hfind; [eauto|].
  apply list_elem_of_In in Hin. apply (find_none _ _ Hfind node) in Hin.
  rewrite Hfile, String.eqb_refl in Hin. done.
Qed.

Lemma forEachNode_inv (J : list CanvasNode -> CommandState -> Prop) body todo :
  (forall seen n st, n ∈ todo -> J seen st ->
     exists st', body n st = Done st' /\ J (seen ++ [n]) st') ->
  forall seen st, J seen st ->
    exists st', forEachNode body todo st = Done st' /\ J (seen ++ todo) st'.
Proof.
  induction todo as [|n todo IH]; intros Hbody seen st Hst; simpl.
  - exists st. by rewrite app_nil_r.
  - destruct (Hbody seen n st) as (st1 & -> & Hst1); [left|done|]. simpl.
    destruct (IH (fun seen' n' st' Hn' => Hbody seen' n' st' (list_elem_of_further _ _ _ Hn'))
                (seen ++ [n]) st1 Hst1) as (st' & Hrun & Hst').
    exists st'. split; [done|]. by rewrite <- app_assoc in Hst'.
Qed.

Section CommandFacts.
Variable app : App.
Variable clock : nat -> (nat -> string) * string.
Variable canvasData : CanvasData.

Lemma commandInv_ext (P Q : CanvasNode -> Direction -> Prop) st :
  (forall n d, P n d <-> Q n d) ->
  commandInv app canvasData P st -> commandInv app canvasData Q st.
Proof.
  intros HPQ (current & added & Hfile & Hnodes & Hpaths & Hflag & Hadded & Hsat).
  exists current, added. do 4 (split; [done|]). split.
  - intros p Hp. destruct (Hadded p Hp) as (Hnew & node & d & HP & Hin & Hl).
    split; [done|]. exists node, d. by rewrite <- HPQ.
  - intros node d p HQ. apply Hsat. by rewrite HPQ.
Qed.

Lemma commandInv_initial :
  commandInv app canvasData (fun _ _ => False) (initialState canvasData).
Proof.
  exists canvasData, []. simpl. rewrite app_nil_r.
  split; [done|]. split; [done|]. split; [intros p; by rewrite elem_of_list_to_set|].
  split; [done|]. split; [by intros p ?%elem_of_nil|done].
Qed.

(** A node the vault has no note for is passed over. *)
Lemma commandInv_skip P node direction st :
  noteOf app node = None ->
  commandInv app canvasData P st ->
  commandInv app canvasData
    (fun n d => P n d \/ (n = node /\ d = direction)) st.
Proof.
  intros Hnone (current & added & Hfile & Hnodes & Hpaths & Hflag & Hadded & Hsat).
  exists current, added. do 4 (split; [done|]). split.
  - intros p Hp. destruct (Hadded p Hp) as (Hnew & n & d & HP & Hin & Hl).
    split; [done|]. exists n, d. auto.
  - intros n d p [HP|[-> ->]]; [by apply Hsat|].
    intros (nodeNote & l & Hnote & _). congruence.
Qed.

(** The block that expands from one node in one direction keeps the loop
    in order and deals with that node and direction. *)
Lemma expandIfNew_inv P node nodeNote direction st :
  vaultCoherent app ->
  node ∈ canvas_nodes canvasData ->
  noteOf app node = Some nodeNote ->
  commandInv app canvasData P st ->
  exists st',
    expandIfNew app clock nodeNote direction st = Done st' /\
    commandInv app canvasData
      (fun n d => P n d \/ (n = node /\ d = direction)) st'.
Proof.
  intros Hcoh Hnode Hnote
    (current & added & Hfile & Hnodes & Hpaths & Hflag & Hadded & Hsat).
  assert (node_file node = path nodeNote) as Hpath.
  { unfold noteOf in Hnote.
    destruct (getAbstractFileByPath app (node_file node)) as [[f|?]|] eqn:Hget;
      try done.
    injection Hnote as ->. symmetry. by apply Hcoh. }
  assert (filter (fun link => path link ∉ existingPaths st)
            (newConnectionsOf app nodeNote direction)
          = nodesToAddOf app current nodeNote direction) as Hnew.
  { unfold nodesToAddOf. apply list_filter_iff. intros l.
    by rewrite Hpaths, elem_of_list_to_set. }
  assert (forall p, linkedFrom app node direction p ->
            p ∈ node_file <$> canvas_nodes current \/
            p ∈ path <$> nodesToAddOf app current nodeNote direction) as Hlinks.
  { intros p (nodeNote' & l & Hnote' & Hl & <-).
    assert (nodeNote' = nodeNote) as -> by congruence.
    destruct (decide (path l ∈ node_file <$> canvas_nodes current)) as [?|Hout];
      [by left|right].
    apply list_elem_of_fmap. exists l. split; [done|].
    unfold nodesToAddOf. apply list_elem_of_filter. split; [|done].
    by rewrite elem_of_list_to_set. }
  unfold expandIfNew. rewrite Hnew.
  destruct (nodesToAddOf app current nodeNote direction) as [|l0 rest] eqn:Htodo.
  { exists st. split; [done|]. exists current, added. do 4 (split; [done|]). split.
    - intros p Hp. destruct (Hadded p Hp) as (Hfresh & n & d & HP & Hin & Hl).
      split; [done|]. exists n, d. auto.
    - intros n d p [HP|[-> ->]]; [by apply Hsat|]. intros Hl.
      destruct (Hlinks p Hl) as [?|Hnil]; [done|]. by apply elem_of_nil in Hnil. }
  cbn [length Nat.ltb Nat.leb]. rewrite Hfile.
  destruct (findFocusNode_found current nodeNote node) as [focusNode Hfocus];
    [rewrite Hnodes; apply elem_of_app; by left|done|].
  destruct (expandCanvas_proceeds app (clock (calls st)).1 (clock (calls st)).2
              current nodeNote direction focusNode Hfocus)
    as (updatedData & addedNodes & -> & Hnodes' & Hfiles).
  rewrite Htodo in Hfiles.
  eexists. split; [reflexivity|].
  exists updatedData, (added ++ addedNodes). cbn [canvas_file existingPaths expanded].
  split; [done|]. split; [by rewrite Hnodes', Hnodes, app_assoc|]. split.
  { intros p. rewrite elem_of_union, elem_of_list_to_set, Hpaths, Hnodes', fmap_app,
      elem_of_app. naive_solver. }
  split.
  { split; [|done]. intros _ Hnil. apply app_eq_nil in Hnil as [_ ->]. done. }
  split.
  - intros p. rewrite fmap_app. intros [Hp|Hp]%elem_of_app.
    + destruct (Hadded p Hp) as (Hfresh & n & d & HP & Hin & Hl).
      split; [done|]. exists n, d. auto.
    + rewrite Hfiles, <- Htodo in Hp.
      apply list_elem_of_fmap in Hp as (l & -> & Hl).
      unfold nodesToAddOf in Hl. apply list_elem_of_filter in Hl as [Hfresh Hl].
      rewrite elem_of_list_to_set, Hnodes, fmap_app, elem_of_app in Hfresh.
      split; [tauto|]. exists node, direction. split; [by right|]. split; [done|].
      by exists nodeNote, l.
  - intros n d p HP Hl. rewrite Hnodes', fmap_app, elem_of_app.
    destruct HP as [HP|[-> ->]]; [left; by eapply Hsat|].
    destruct (Hlinks p Hl) as [?|Hp]; [by left|right].
    by rewrite Hfiles.
Qed.
End CommandFacts.

Lemma directionLoop_inv app clock direction canvasData :
  vaultCoherent app ->
  exists st,
    forEachNode (directionStep app clock direction) (canvas_nodes canvasData)
      (initialState canvasData) = Done st /\
    commandInv app canvasData
      (fun n d => n ∈ canvas_nodes canvasData /\ d = direction) st.
Proof.
  intros Hcoh.
  destruct (forEachNode_inv
              (fun seen st =>
                 commandInv app canvasData (fun n d => n ∈ seen /\ d = direction) st)
              (directionStep app clock direction) (canvas_nodes canvasData))
    with (seen := @nil CanvasNode) (st := initialState canvasData)
    as (st & Hrun & Hst).
  - intros seen node st Hnode Hst. unfold directionStep.
    destruct (noteOf app node) as [nodeNote|] eqn:Hnote.
    + destruct (expandIfNew_inv app clock canvasData _ node nodeNote direction st
                  Hcoh Hnode Hnote Hst) as (st' & Hrun & Hst').
      exists st'. split; [done|]. eapply commandInv_ext; [|exact Hst'].
      intros n d. rewrite elem_of_app, list_elem_of_singleton. naive_solver.
    + exists st. split; [done|].
      eapply commandInv_ext;
        [|exact (commandInv_skip app canvasData _ node direction st Hnote Hst)].
      intros n d. rewrite elem_of_app, list_elem_of_singleton. naive_solver.
  - eapply commandInv_ext; [|apply commandInv_initial].
    intros n d. simpl. rewrite elem_of_nil. naive_solver.
  - by exists st.
Qed.

Lemma manualLoop_inv app clock canvasData :
  vaultCoherent app ->
  exists st,
    forEachNode (manualStep app clock) (canvas_nodes canvasData)
      (initialState canvasData) = Done st /\
    commandInv app canvasData (fun n _ => n ∈ canvas_nodes canvasData) st.
Proof.
  intros Hcoh.
  destruct (forEachNode_inv
              (fun seen st => commandInv app canvasData (fun n _ => n ∈ seen) st)
              (manualStep app clock) (canvas_nodes canvasData))
    with (seen := @nil CanvasNode) (st := initialState canvasData)
    as (st & Hrun & Hst).
  - intros seen node st Hnode Hst. unfold manualStep.
    destruct (noteOf app node) as [nodeNote|] eqn:Hnote.
    + destruct (expandIfNew_inv app clock canvasData _ node nodeNote Right st
                  Hcoh Hnode Hnote Hst) as (st1 & -> & Hst1). simpl.
      destruct (expandIfNew_inv app clock canvasData _ node nodeNote Left st1
                  Hcoh Hnode Hnote Hst1) as (st2 & -> & Hst2).
      exists st2. split; [done|]. eapply commandInv_ext; [|exact Hst2].
      intros n d. rewrite elem_of_app, list_elem_of_singleton.
      destruct d; naive_solver.
    + exists st. split; [done|].
      pose proof (commandInv_skip app canvasData _ node Right st Hnote Hst) as Hst1.
      pose proof (commandInv_skip app canvasData _ node Left st Hnote Hst1) as Hst2.
      eapply commandInv_ext; [|exact Hst2].
      intros n d. rewrite elem_of_app, list_elem_of_singleton.
      destruct d; naive_solver.
  - eapply commandInv_ext; [|apply commandInv_initial].
    intros n d. simpl. rewrite elem_of_nil. naive_solver.
  - by exists st.
Qed.

(** What a loop that ended in order has added. *)
Lemma commandInv_added app canvasData (P : CanvasNode -> Direction -> Prop) st :
  (forall n d, P n d -> n ∈ canvas_nodes canvasData) ->
  commandInv app canvasData P st ->
  exists canvasData' added,
    canvas_file st = Json canvasData' /\
    canvas_nodes canvasData' = canvas_nodes canvasData ++ added /\
    expanded st = match added with [] => false | _ :: _ => true end /\
    forall p,
      p ∈ node_file <$> added <->
      (p ∉ node_file <$> canvas_nodes canvasData) /\
      exists node direction, P node direction /\ linkedFrom app node direction p.
Proof.
  intros HP (current & added & Hfile & Hnodes & _ & Hflag & Hadded & Hsat).
  exists current, added. do 2 (split; [done|]). split.
  { destruct added; destruct (expanded st); try done.
    - by destruct Hflag as [Hflag _]; destruct Hflag.
    - by destruct Hflag as [_ Hflag]; discriminate Hflag. }
  intros p. split.
  - intros Hp. destruct (Hadded p Hp) as (Hfresh & n & d & Hn & _ & Hl).
    split; [done|]. by exists n, d.
  - intros (Hfresh & n & d & Hn & Hl).
    pose proof (Hsat n d p Hn Hl) as Hin.
    rewrite Hnodes, fmap_app, elem_of_app in Hin. by destruct Hin.
Qed.

(** X14.  One run of a direction command on the canvas of a top-level note
    expands the canvas by exactly one level: the nodes it appends are the
    documents that were not on the canvas and are a link, in the chosen
    direction, of the note of a node that was on it; the notice is shown
    exactly when a node was appended. *)
Theorem expandCanvasInDirection_one_level
    app clock direction canvasFile originalNote canvasData :
  vaultCoherent app ->
  js_endsWith (path canvasFile) ".canvas" = true ->
  originalNoteOf app canvasFile = Some originalNote ->
  exists canvasData' added,
    expandCanvasInDirection app clock direction (Some canvasFile) (Json canvasData)
      = (Json canvasData',
         match added with
         | [] => None
         | _ :: _ => Some ("Canvas expanded " +:+ directionName direction +:+ "!")
         end) /\
    canvas_nodes canvasData' = canvas_nodes canvasData ++ added /\
    forall p,
      p ∈ node_file <$> added <->
      (p ∉ node_file <$> canvas_nodes canvasData) /\
      exists node,
        node ∈ canvas_nodes canvasData /\ linkedFrom app node direction p.
Proof.
  intros Hcoh Hcanvas Hnote.
  destruct (directionLoop_inv app clock direction canvasData Hcoh) as (st & Hrun & Hst).
  apply commandInv_added in Hst as (canvasData' & added & Hfile & Hnodes & Hflag & Hadded);
    [|by intros n d [Hn _]].
  exists canvasData', added. unfold expandCanvasInDirection.
  rewrite Hcanvas, Hnote, Hrun, Hfile, Hflag. split; [by destruct added|].
  split; [done|]. intros p. rewrite Hadded. naive_solver.
Qed.

Lemma expandCanvasInDirection_one_level_witness :
  exists canvasData' added,
    expandCanvasInDirection Crowded.app Desk.clock Right (Some Desk.canvasFile)
      (Json Crowded.alone)
      = (Json canvasData',
         match added with
         | [] => None
         | _ :: _ => Some ("Canvas expanded " +:+ directionName Right +:+ "!")
         end) /\
    canvas_nodes canvasData' = canvas_nodes Crowded.alone ++ added /\
    forall p,
      p ∈ node_file <$> added <->
      (p ∉ node_file <$> canvas_nodes Crowded.alone) /\
      exists node,
        node ∈ canvas_nodes Crowded.alone /\ linkedFrom Crowded.app node Right p.
Proof.
  apply (expandCanvasInDirection_one_level Crowded.app Desk.clock Right
           Desk.canvasFile Crowded.A Crowded.alone).
  - apply Crowded_vaultCoherent.
  - vm_compute. reflexivity.
  - vm_compute. reflexivity.
Defined.

(** X15.  One run of the manual command expands the canvas by exactly one
    level in both directions, and reports success exactly when it appended
    a node. *)
Theorem expandCanvasManually_one_level
    app clock canvasFile originalNote canvasData :
  vaultCoherent app ->
  js_endsWith (path canvasFile) ".canvas" = true ->
  originalNoteOf app canvasFile = Some originalNote ->
  exists canvasData' added,
    expandCanvasManually app clock (Some canvasFile) (Json canvasData)
      = (Json canvasData',
         Some match added with
              | [] => "No new connections found to expand the canvas."
              | _ :: _ => "Canvas expanded successfully!"
              end) /\
    canvas_nodes canvasData' = canvas_nodes canvasData ++ added /\
    forall p,
      p ∈ node_file <$> added <->
      (p ∉ node_file <$> canvas_nodes canvasData) /\
      exists node direction,
        node ∈ canvas_nodes canvasData /\ linkedFrom app node direction p.
Proof.
  intros Hcoh Hcanvas Hnote.
  destruct (manualLoop_inv app clock canvasData Hcoh) as (st & Hrun & Hst).
  apply commandInv_added in Hst as (canvasData' & added & Hfile & Hnodes & Hflag & Hadded);
    [|done].
  exists canvasData', added. unfold expandCanvasManually.
  rewrite Hcanvas, Hnote, Hrun, Hfile, Hflag. split; [by destruct added|].
  split; [done|]. intros p. rewrite Hadded. naive_solver.
Qed.

Lemma expandCanvasManually_one_level_witness :
  exists canvasData' added,
    expandCanvasManually Crowded.app Desk.clock (Some Desk.canvasFile)
      (Json Crowded.alone)
      = (Json canvasData',
         Some match added with
              | [] => "No new connections found to expand the canvas."
              | _ :: _ => "Canvas expanded successfully!"
              end) /\
    canvas_nodes canvasData' = canvas_nodes Crowded.alone ++ added /\
    forall p,
      p ∈ node_file <$> added <->
      (p ∉ node_file <$> canvas_nodes Crowded.alone) /\
      exists node direction,
        node ∈ canvas_nodes Crowded.alone /\ linkedFrom Crowded.app node direction p.
Proof.
  apply (expandCanvasManually_one_level Crowded.app Desk.clock
           Desk.canvasFile Crowded.A Crowded.alone).
  - apply Crowded_vaultCoherent.
  - vm_compute. reflexivity.
  - vm_compute. reflexivity.
Defined.

Lemma keeps_refl content : keeps content content.
Proof.
  destruct content as [canvasData|raw]; simpl; [|done].
  exists canvasData. split; [done|apply extends_refl].
Qed.

Lemma expandIfNew_extends app clock nodeNote direction st current :
  canvas_file st = Json current ->
  exists st' current',
    expandIfNew app clock nodeNote direction st = Done st' /\
    canvas_file st' = Json current' /\ extends current current'.
Proof.
  intros Hfile. unfold expandIfNew.
  destruct (0 <? length _)%nat.
  - rewrite Hfile.
    destruct (expandCanvas_extends app (clock (calls st)).1 (clock (calls st)).2
                current nodeNote direction) as (updatedData & -> & Hext).
    eexists _, updatedData. split; [reflexivity|]. split; [reflexivity|exact Hext].
  - exists st, current. split; [done|]. split; [done|apply extends_refl].
Qed.

Lemma commandLoop_extends app clock body canvasData :
  body = directionStep app clock Left \/ body = directionStep app clock Right \/
  body = manualStep app clock ->
  exists st canvasData',
    forEachNode body (canvas_nodes canvasData) (initialState canvasData) = Done st /\
    canvas_file st = Json canvasData' /\ extends canvasData canvasData'.
Proof.
  intros Hbody.
  destruct (forEachNode_inv
              (fun _ st => exists current,
                 canvas_file st = Json current /\ extends canvasData current)
              body (canvas_nodes canvasData))
    with (seen := @nil CanvasNode) (st := initialState canvasData)
    as (st & Hrun & current & Hfile & Hext).
  - intros _ node st _ (current & Hfile & Hext).
    assert (forall direction st0 current0,
              canvas_file st0 = Json current0 -> extends canvasData current0 ->
              exists st',
                directionStep app clock direction node st0 = Done st' /\
                exists current',
                  canvas_file st' = Json current' /\ extends canvasData current')
      as Hdir.
    { intros direction st0 current0 Hfile0 Hext0. unfold directionStep.
      destruct (noteOf app node) as [nodeNote|]; [|by eauto].
      destruct (expandIfNew_extends app clock nodeNote direction st0 current0 Hfile0)
        as (st' & current' & -> & Hfile' & Hext').
      exists st'. split; [done|]. exists current'. split; [done|].
      by eapply extends_trans. }
    destruct Hbody as [->|[->| ->]]; [by eapply Hdir|by eapply Hdir|].
    unfold manualStep. destruct (noteOf app node) as [nodeNote|]; [|by eauto].
    destruct (expandIfNew_extends app clock nodeNote Right st current Hfile)
      as (st1 & current1 & -> & Hfile1 & Hext1). simpl.
    destruct (expandIfNew_extends app clock nodeNote Left st1 current1 Hfile1)
      as (st2 & current2 & -> & Hfile2 & Hext2).
    exists st2. split; [done|]. exists current2. split; [done|].
    eapply extends_trans; [exact Hext|]. by eapply extends_trans.
  - exists canvasData. split; [done|apply extends_refl].
  - by exists st, current.
Qed.

(** X16.  On a canvas file that holds a canvas or text that does not parse,
    whatever the vault, the link index and the active file, the two commands
    never take anything from the file: text that does not parse is left
    untouched, and a canvas keeps its nodes and edges as the first of the
    new ones and its creation stamp. *)
Theorem expand_commands_only_append app clock direction activeFile content :
  keeps content (expandCanvasInDirection app clock direction activeFile content).1 /\
  keeps content (expandCanvasManually app clock activeFile content).1.
Proof.
  unfold expandCanvasInDirection, expandCanvasManually.
  destruct activeFile as [canvasFile|]; [|by split; apply keeps_refl].
  destruct (js_endsWith _ _); [|by split; apply keeps_refl].
  destruct (originalNoteOf app canvasFile) as [originalNote|];
    [|by split; apply keeps_refl].
  destruct content as [canvasData|raw]; [|by split].
  destruct (commandLoop_extends app clock (directionStep app clock direction) canvasData)
    as (st1 & data1 & -> & Hfile1 & Hext1); [destruct direction; auto|].
  destruct (commandLoop_extends app clock (manualStep app clock) canvasData)
    as (st2 & data2 & -> & Hfile2 & Hext2); [auto|].
  cbn [fst snd]. split; [by exists data1|by exists data2].
Qed.

(** ** Canvas names and paths *)

Lemma append_cons c (s r : string) : String c s +:+ r = String c (s +:+ r).
Proof. reflexivity. Qed.

Lemma prefix_true p : forall s, String.prefix p s = true <-> exists r, s = p +:+ r.
Proof.
  induction p as [|a p IH]; intros s.
  - split; [intros _; by exists s|]. intros _. by destruct s.
  - destruct s as [|b s].
    { split; [done|]. intros [r Hr]. by rewrite append_cons in Hr. }
    change (String.prefix (String a p) (String b s))
      with (if Ascii.ascii_dec a b then String.prefix p s else false).
    destruct (Ascii.ascii_dec a b) as [->|Hne].
    + rewrite IH. split; intros [r Hr]; exists r.
      * by rewrite append_cons, Hr.
      * rewrite append_cons in Hr. by injection Hr.
    + split; [done|]. intros [r Hr]. rewrite append_cons in Hr.
      injection Hr as Hb _. by destruct Hne.
Qed.

(** An occurrence of [_canvas] at the start of [b] followed by [_canvas]
    lies in [b]: no proper end of [_canvas] is a start of it. *)
Lemma prefix_canvas_app b :
  b <> EmptyString ->
  String.prefix "_canvas" (b +:+ "_canvas") = true ->
  String.prefix "_canvas" b = true.
Proof.
  intros Hb [r Hr]%prefix_true. apply prefix_true.
  repeat rewrite append_cons in Hr. change (EmptyString +:+ r) with r in Hr.
  destruct b as [|c1 b]; [done|]. clear Hb.
  do 6 (rewrite append_cons in Hr; injection Hr as -> Hr;
        destruct b as [|? b]; [discriminate Hr|]).
  rewrite append_cons in Hr. injection Hr as -> Hr.
  by exists b.
Qed.

(** Taking [_canvas] off the name of a canvas gives the name of the note
    back, when the note's name has no [_canvas] of its own. *)
Lemma originalNoteNameOf_canvasFileNameOf b :
  occursIn "_canvas" b = false ->
  originalNoteNameOf (canvasFileNameOf b) = b.
Proof.
  unfold originalNoteNameOf, canvasFileNameOf.
  induction b as [|c b IH]; [done|].
  intros Hocc. cbn [occursIn] in Hocc. apply orb_false_iff in Hocc as [Hhere Hrest].
  change (String c b +:+ "_canvas") with (String c (b +:+ "_canvas")).
  cbn [js_replace].
  destruct (String.prefix "_canvas" (String c (b +:+ "_canvas"))) eqn:Hpre.
  - apply (prefix_canvas_app (String c b)) in Hpre; [congruence|done].
  - by rewrite (IH Hrest).
Qed.

(** X17.  The commands find the note of a canvas that was generated for a
    note at the top of the vault whose name has no [_canvas] in it: the
    name of the canvas, less its first [_canvas], is the name of the note. *)
Theorem generated_canvas_finds_its_note app note canvasFile :
  occursIn "_canvas" (basename note) = false ->
  basename canvasFile = canvasFileNameOf (basename note) ->
  getAbstractFileByPath app (basename note +:+ ".md") = Some (AFile note) ->
  originalNoteOf app canvasFile = Some note.
Proof.
  intros Hocc Hname Hget. unfold originalNoteOf. cbv zeta.
  by rewrite Hname, (originalNoteNameOf_canvasFileNameOf _ Hocc), Hget.
Qed.

Lemma generated_canvas_finds_its_note_witness :
  originalNoteOf Crowded.app Desk.canvasFile = Some Crowded.A.
Proof.
  apply (generated_canvas_finds_its_note Crowded.app Crowded.A Desk.canvasFile).
  - vm_compute. reflexivity.
  - reflexivity.
  - reflexivity.
Defined.

Lemma collapseBackslashes_clean s :
  forall inRun, hasBackslash (collapseBackslashes inRun s) = false.
Proof.
  induction s as [|c s IH]; intros inRun; [done|]. cbn [collapseBackslashes].
  destruct (Ascii.eqb c backslash) eqn:Hc.
  - destruct inRun; [apply IH|]. cbn [hasBackslash]. by rewrite IH.
  - cbn [hasBackslash]. by rewrite Hc, IH.
Qed.

Lemma collapseBackslashes_id s :
  hasBackslash s = false -> collapseBackslashes false s = s.
Proof.
  induction s as [|c s IH]; [done|]. cbn [hasBackslash collapseBackslashes].
  intros [Hc Hs]%orb_false_iff. by rewrite Hc, (IH Hs).
Qed.

Lemma stripLeadingSlashes_spec s :
  startsWithSlash (stripLeadingSlashes s) = false /\
  (hasBackslash s = false -> hasBackslash (stripLeadingSlashes s) = false).
Proof.
  induction s as [|c s [IH1 IH2]]; [done|]. cbn [stripLeadingSlashes].
  destruct (Ascii.eqb c slash) eqn:Hc.
  - split; [done|]. cbn [hasBackslash]. intros [_ Hs]%orb_false_iff. by apply IH2.
  - split; [|done]. by cbn [startsWithSlash].
Qed.

Lemma stripLeadingSlashes_id s :
  startsWithSlash s = false -> stripLeadingSlashes s = s.
Proof. destruct s as [|c s]; [done|]. cbn. by intros ->. Qed.

Lemma stripTrailingSlashes_spec s :
  endsWithSlash (stripTrailingSlashes s) = false /\
  (startsWithSlash s = false -> startsWithSlash (stripTrailingSlashes s) = false) /\
  (hasBackslash s = false -> hasBackslash (stripTrailingSlashes s) = false).
Proof.
  induction s as [|c s (IH1 & _ & IH3)]; [done|].
  cbn [stripTrailingSlashes startsWithSlash hasBackslash].
  destruct (stripTrailingSlashes s) as [|d kept] eqn:Hkept.
  - destruct (Ascii.eqb c slash) eqn:Hc; [done|]. cbn. rewrite Hc.
    split; [done|]. split; [done|]. intros [-> _]%orb_false_iff. done.
  - split; [exact IH1|]. split; [done|].
    intros [Hc Hs]%orb_false_iff.
    change (Ascii.eqb c backslash || hasBackslash (String d kept) = false).
    by rewrite Hc, (IH3 Hs).
Qed.

Lemma stripTrailingSlashes_id s :
  endsWithSlash s = false -> stripTrailingSlashes s = s.
Proof.
  induction s as [|c s IH]; [done|]. cbn [stripTrailingSlashes].
  destruct s as [|d s].
  - cbn. by intros ->.
  - intros Hs. by rewrite (IH Hs).
Qed.

(** X18.  Whatever the path of the parent folder, the directory a canvas
    is created in has no backslash, no slash at its start and no slash at
    its end. *)
Theorem normalizedDirOf_trimmed parent :
  hasBackslash (normalizedDirOf parent) = false /\
  startsWithSlash (normalizedDirOf parent) = false /\
  endsWithSlash (normalizedDirOf parent) = false.
Proof.
  unfold normalizedDirOf, trimSlashes. cbv zeta.
  set (s := collapseBackslashes false (default EmptyString parent)).
  assert (hasBackslash s = false) as Hs by apply collapseBackslashes_clean.
  destruct (String.eqb s "."); [done|].
  destruct (stripLeadingSlashes_spec s) as [Hlead Hback].
  destruct (stripTrailingSlashes_spec (stripLeadingSlashes s)) as (Hend & Hstart & Hclean).
  auto.
Qed.

Lemma append_assoc (a b c : string) : (a +:+ b) +:+ c = a +:+ (b +:+ c).
Proof. induction a as [|x a IH]; [done|]. by rewrite !append_cons, IH. Qed.

(** X19.  For a note in a folder whose path is already clean (no backslash,
    no slash at either end, not a single dot, not empty) the canvas is
    created in that folder, under the note's name followed by
    [_canvas.canvas]. *)
Theorem canvasPathOf_clean_folder dir noteBasename :
  hasBackslash dir = false ->
  startsWithSlash dir = false ->
  endsWithSlash dir = false ->
  dir <> "." -> dir <> EmptyString ->
  canvasPathOf (Some dir) noteBasename
    = dir +:+ "/" +:+ noteBasename +:+ "_canvas.canvas".
Proof.
  intros Hback Hstart Hend Hdot Hempty.
  unfold canvasPathOf, normalizedDirOf, trimSlashes, canvasFileNameOf. cbv zeta.
  change (default EmptyString (Some dir)) with dir.
  rewrite (collapseBackslashes_id _ Hback).
  destruct (String.eqb_spec dir ".") as [?|_]; [done|].
  rewrite (stripLeadingSlashes_id _ Hstart), (stripTrailingSlashes_id _ Hend).
  destruct (String.eqb_spec dir EmptyString) as [?|_]; [done|].
  by rewrite (append_assoc noteBasename).
Qed.

Lemma canvasPathOf_clean_folder_witness :
  canvasPathOf (Some "notes/projects") "Plan"
    = "notes/projects" +:+ "/" +:+ "Plan" +:+ "_canvas.canvas".
Proof.
  apply (canvasPathOf_clean_folder "notes/projects" "Plan").
  - vm_compute. reflexivity.
  - vm_compute. reflexivity.
  - vm_compute. reflexivity.
  - discriminate.
  - discriminate.
Defined.

(** ** The generated canvas has no overlap *)

Section OrganizeSeed.
Variable localeCompare : string -> string -> Z.
Variable centerFile : TFile.

Lemma foldl_addToLayer_seed ns :
  forall ls,
    (forall n, n ∈ ns -> path (file n) <> path centerFile -> 1 <= level n) ->
    (forall i layer, ls.1 !! i = Some layer ->
       match i with
       | 0 => forall n, n ∈ layer -> path (file n) = path centerFile
       | S _ => forall n, n ∈ layer -> path (file n) <> path centerFile
       end) ->
    (forall i layer, ls.2 !! i = Some layer ->
       match i with
       | 0 => forall n, n ∈ layer -> path (file n) = path centerFile
       | S _ => forall n, n ∈ layer -> path (file n) <> path centerFile
       end) ->
    forall i layer,
      (foldl (addToLayer centerFile) ls ns).1 !! i = Some layer \/
      (foldl (addToLayer centerFile) ls ns).2 !! i = Some layer ->
      match i with
      | 0 => forall n, n ∈ layer -> path (file n) = path centerFile
      | S _ => forall n, n ∈ layer -> path (file n) <> path centerFile
      end.
Proof using Type.
  induction ns as [|m ns IH]; intros ls Hlevel Hb Hf; simpl.
  { intros i layer [H|H]; [by apply Hb|by apply Hf]. }
  assert (forall (layers : list Layer),
            (forall i layer, layers !! i = Some layer ->
               match i with
               | 0 => forall n, n ∈ layer -> path (file n) = path centerFile
               | S _ => forall n, n ∈ layer -> path (file n) <> path centerFile
               end) ->
            path (file m) <> path centerFile ->
            forall i layer,
              alter (fun l => l ++ [m]) (level m) layers !! i = Some layer ->
              match i with
              | 0 => forall n, n ∈ layer -> path (file n) = path centerFile
              | S _ => forall n, n ∈ layer -> path (file n) <> path centerFile
              end) as Hpush.
  { intros layers Hgood Hm i layer Hlook.
    assert (1 <= level m) as Hlvl by (apply Hlevel; [left|done]).
    destruct (decide (i = level m)) as [->|Hne].
    - rewrite list_lookup_alter, decide_True in Hlook by done.
      destruct (layers !! level m) as [l0|] eqn:Hl0; [|done].
      injection Hlook as <-. specialize (Hgood _ _ Hl0).
      destruct (level m) as [|k]; [lia|].
      intros n [Hn| ->%list_elem_of_singleton]%elem_of_app; [by apply Hgood|done].
    - rewrite list_lookup_alter_ne in Hlook by done. by apply Hgood. }
  apply IH.
  - intros n Hn. apply Hlevel. by right.
  - destruct ls as [bl fl]. unfold addToLayer. simpl in *.
    destruct (String.eqb_spec (path (file m)) (path centerFile)) as [Heq|Hne]; [done|].
    destruct (isBacklink m); case_bool_decide; simpl; try done.
    by apply Hpush.
  - destruct ls as [bl fl]. unfold addToLayer. simpl in *.
    destruct (String.eqb_spec (path (file m)) (path centerFile)) as [Heq|Hne]; [done|].
    destruct (isBacklink m); case_bool_decide; simpl; try done.
    by apply Hpush.
Qed.

Lemma seedAlone_of_index (layers : list Layer) :
  (forall i layer, layers !! i = Some layer ->
     match i with
     | 0 => forall n, n ∈ layer -> path (file n) = path centerFile
     | S _ => forall n, n ∈ layer -> path (file n) <> path centerFile
     end) ->
  forall layer,
    layer ∈ js_sort (byBasename localeCompare) <$> layers ->
    seedAlone centerFile layer.
Proof using Type.
  intros Hgood layer (l0 & -> & Hin)%list_elem_of_fmap.
  apply list_elem_of_lookup in Hin as [i Hi]. specialize (Hgood i l0 Hi).
  destruct i; [left|right]; intros n Hn; apply Hgood;
    by rewrite <- (js_sort_perm (byBasename localeCompare) l0).
Qed.

(** Every layer the organiser returns holds the centre file alone or not
    at all, when only the centre file is at level 0. *)
Lemma organizeNodesIntoLayers_seedAlone allNodes :
  (forall n, n ∈ allNodes -> path (file n) <> path centerFile -> 1 <= level n) ->
  forall layer,
    layer ∈ organizeNodesIntoLayers localeCompare centerFile allNodes ->
    seedAlone centerFile layer.
Proof using Type.
  intros Hlevel layer. unfold organizeNodesIntoLayers.
  match goal with |- context [foldl _ (?b, ?f) allNodes] =>
    pose proof (foldl_addToLayer_seed allNodes (b, f) Hlevel) as Hfold end.
  destruct (foldl _ _ allNodes) as [bl fl]. cbn [fst snd] in Hfold.
  assert (forall k i (l0 : Layer),
            alter (fun l => l ++ [{| file := centerFile; level := 0; isBacklink := false |}])
              0 (replicate (S k) []) !! i = Some l0 ->
            match i with
            | 0 => forall n, n ∈ l0 -> path (file n) = path centerFile
            | S _ => forall n, n ∈ l0 -> path (file n) <> path centerFile
            end) as Hinit.
  { intros k [|i] l0; simpl.
    - intros [= <-] n ->%list_elem_of_singleton. done.
    - intros [-> _]%lookup_replicate n Hn. by apply elem_of_nil in Hn. }
  specialize (Hfold (Hinit _) (Hinit _)).
  intros [Hin|Hin]%elem_of_app.
  - apply list_elem_of_filter in Hin as [_ Hin]. rewrite elem_of_reverse in Hin.
    apply (seedAlone_of_index bl); [|done]. intros i l0 Hi. apply Hfold. by left.
  - apply list_elem_of_filter in Hin as [_ Hin].
    apply (seedAlone_of_index fl); [|done]. intros i l0 Hi. apply Hfold. by right.
Qed.
End OrganizeSeed.

Lemma explored_levels_positive app fuel centerFile depth st :
  getAllNodesAndConnections app fuel centerFile depth = Ok st ->
  forall n, n ∈ nodes st -> path (file n) <> path centerFile -> 1 <= level n.
Proof.
  intros Hrun n Hn Hne. unfold getAllNodesAndConnections in Hrun.
  set (seed := {| file := centerFile; level := 0; isBacklink := false |}) in *.
  eapply (exploreAllConnections_discovered _ _ _ _ _ seed) in Hrun; [| | |exact Hn].
  - destruct Hrun as [->|(_ & parent & _ & Hlv & _)]; [done|lia].
  - exists seed. split; [left|done].
  - intros m ->%list_elem_of_singleton. by left.
Qed.

Lemma findIndex_Some {A : Type} (p : A -> bool) (l : list A) :
  forall k, findIndex p l = Z.of_nat k -> exists a, l !! k = Some a /\ p a = true.
Proof.
  induction l as [|a l IH]; intros k; simpl; [lia|].
  destruct (p a) eqn:Hp.
  - intros Hk. assert (k = 0) as -> by lia. by exists a.
  - destruct (Z.ltb_spec (findIndex p l) 0) as [Hneg|Hpos]; [lia|].
    intros Hk. destruct k as [|k]; [lia|]. simpl. apply IH. lia.
Qed.

Lemma inject_Z_step a b : (a < b)%Z -> (inject_Z a + 1 <= inject_Z b)%Q.
Proof.
  intros H.
  assert (inject_Z (a + 1) <= inject_Z b)%Q as Hle by (rewrite <- Zle_Qle; lia).
  by rewrite inject_Z_plus in Hle.
Qed.

Lemma layerXOf_inColumn settings centerLayerIndex layerIndex n :
  node_x n = layerXOf settings centerLayerIndex layerIndex ->
  inColumn settings centerLayerIndex layerIndex n.
Proof.
  unfold inColumn, layerXOf. intros ->.
  destruct (Z.eqb_spec (Z.of_nat layerIndex) centerLayerIndex) as [->|_]; [|reflexivity].
  rewrite Z.sub_diag. change (inject_Z 0) with 0%Q. q_arith.
Qed.

(** Two layers are a column apart, and so is every other layer from the
    centre. *)
Lemma columns_apart settings centerLayerIndex i i' a b :
  inColumn settings centerLayerIndex i a ->
  inColumn settings centerLayerIndex i' b ->
  sameColumn a b -> i = i'.
Proof.
  unfold inColumn, sameColumn. intros Ha Hb [H1 H2]%Qabs_Qlt_condition.
  destruct (Nat.lt_trichotomy i i') as [H|[H|H]]; [exfalso|done|exfalso].
  - assert (Z.of_nat i - centerLayerIndex < Z.of_nat i' - centerLayerIndex)%Z
      as Hlt%inject_Z_step by lia.
    q_arith.
  - assert (Z.of_nat i' - centerLayerIndex < Z.of_nat i - centerLayerIndex)%Z
      as Hlt%inject_Z_step by lia.
    q_arith.
Qed.

Lemma center_apart settings centerLayerIndex i (a b : CanvasNode) :
  node_x a = (canvasWidth settings / 2)%Q ->
  Z.of_nat i <> centerLayerIndex ->
  inColumn settings centerLayerIndex i b ->
  sameColumn a b -> False.
Proof.
  unfold inColumn, sameColumn. intros -> Hne Hb [H1 H2]%Qabs_Qlt_condition.
  destruct (Z.lt_trichotomy (Z.of_nat i - centerLayerIndex) 0) as [H|[H|H]]; [|lia|].
  - apply inject_Z_step in H. change (inject_Z 0) with 0%Q in H. q_arith.
  - apply inject_Z_step in H. change (inject_Z 0) with 0%Q in H. q_arith.
Qed.

(** Two slots of one layer are [verticalSpacing] apart. *)
Lemma rows_apart (layerStartY ya yb : Q) (j j' : nat) :
  (ya == layerStartY + inject_Z (Z.of_nat j) * verticalSpacing)%Q ->
  (yb == layerStartY + inject_Z (Z.of_nat j') * verticalSpacing)%Q ->
  j <> j' -> overlaps ya yb = false.
Proof.
  intros Ha Hb Hne. apply overlaps_false.
  destruct (Nat.lt_trichotomy j j') as [H|[H|H]]; [right|done|left].
  - assert (Z.of_nat j < Z.of_nat j')%Z as Hlt%inject_Z_step by lia. q_arith.
  - assert (Z.of_nat j' < Z.of_nat j)%Z as Hlt%inject_Z_step by lia. q_arith.
Qed.

Lemma noOverlap_snoc ns new :
  noOverlap ns ->
  (forall a, a ∈ ns -> sameColumn a new ->
     overlaps (node_y a) (node_y new) = false) ->
  noOverlap (ns ++ [new]).
Proof.
  intros Hold Hnew i j a b Hij Ha Hb Hcol.
  destruct (decide (i < length ns)) as [Hi|Hi], (decide (j < length ns)) as [Hj|Hj].
  - rewrite lookup_app_l in Ha, Hb by done. by eapply Hold.
  - rewrite lookup_app_l in Ha by done. rewrite lookup_app_r in Hb by lia.
    apply list_lookup_singleton_Some in Hb as [_ <-].
    apply Hnew; [by eapply list_elem_of_lookup_2|done].
  - rewrite lookup_app_r in Ha by lia. rewrite lookup_app_l in Hb by done.
    apply list_lookup_singleton_Some in Ha as [_ <-].
    rewrite overlaps_sym.
    apply Hnew; [by eapply list_elem_of_lookup_2|by apply sameColumn_sym].
  - rewrite lookup_app_r in Ha, Hb by lia.
    apply list_lookup_singleton_Some in Ha as [Ha _].
    apply list_lookup_singleton_Some in Hb as [Hb _]. lia.
Qed.

Section PlaceClear.
Variable settings : CanvasAutoGenSettings.
Variable activeFile : TFile.
Variable centerLayerIndex : Z.

Lemma placedClear_later layerIndex layerStartY j j' st :
  j <= j' ->
  placedClear settings activeFile centerLayerIndex layerIndex layerStartY j st ->
  placedClear settings activeFile centerLayerIndex layerIndex layerStartY j' st.
Proof.
  intros Hj [(rest & Hplaced & Hrest) Hno]. split; [|done].
  exists rest. split; [done|]. intros n Hn.
  destruct (Hrest n Hn) as [?|(? & ? & k & ? & ?)]; [by left|right].
  do 2 (split; [done|]). exists k. split; [lia|done].
Qed.

Lemma placedClear_next layerIndex layerStartY layerStartY' j st :
  placedClear settings activeFile centerLayerIndex layerIndex layerStartY j st ->
  placedClear settings activeFile centerLayerIndex (S layerIndex) layerStartY' 0 st.
Proof.
  intros [(rest & Hplaced & Hrest) Hno]. split; [|done].
  exists rest. split; [done|]. intros n Hn. left.
  destruct (Hrest n Hn) as [(i & ? & ? & ?)|(? & ? & _)].
  - exists i. split; [lia|done].
  - exists layerIndex. split; [lia|done].
Qed.

Lemma placedClear_start layerIndex layerStartY layerStartY' st :
  placedClear settings activeFile centerLayerIndex layerIndex layerStartY 0 st ->
  placedClear settings activeFile centerLayerIndex layerIndex layerStartY' 0 st.
Proof.
  intros [(rest & Hplaced & Hrest) Hno]. split; [|done].
  exists rest. split; [done|]. intros n Hn.
  destruct (Hrest n Hn) as [?|(_ & _ & k & ? & _)]; [by left|lia].
Qed.

Lemma placeLayer_clear layerIndex layerStartY layer :
  (Z.of_nat layerIndex = centerLayerIndex ->
   forall n, n ∈ layer -> path (file n) = path activeFile) ->
  forall j st,
    placedClear settings activeFile centerLayerIndex layerIndex layerStartY j st ->
    placedClear settings activeFile centerLayerIndex layerIndex layerStartY
      (j + length layer)
      (placeLayer activeFile (layerXOf settings centerLayerIndex layerIndex)
         layerStartY j layer st).
Proof using Type.
  induction layer as [|m layer IH]; intros Hcenter j st Hst.
  { simpl. by rewrite Nat.add_0_r. }
  cbn [placeLayer length]. replace (j + S (length layer)) with (S j + length layer) by lia.
  apply IH; [intros Hc n Hn; apply Hcenter; [done|by right]|].
  destruct (String.eqb_spec (path (file m)) (path activeFile)) as [Heq|Hne];
    cbn [negb]; [apply (placedClear_later _ _ j); [lia|done]|].
  assert (Z.of_nat layerIndex <> centerLayerIndex) as Hoff
    by (intros Hc; apply Hne, Hcenter; [done|left]).
  destruct Hst as [(rest & Hplaced & Hrest) Hno].
  set (new := {| node_id := _ |}).
  assert (inColumn settings centerLayerIndex layerIndex new) as Hcol
    by by apply layerXOf_inColumn.
  split.
  - exists (rest ++ [new]). cbn [placed]. split; [by rewrite Hplaced|].
    intros n [Hn| ->%list_elem_of_singleton]%elem_of_app.
    + destruct (Hrest n Hn) as [?|(? & ? & k & ? & ?)]; [by left|right].
      do 2 (split; [done|]). exists k. split; [lia|done].
    + right. do 2 (split; [done|]). exists j. split; [lia|reflexivity].
  - cbn [placed]. apply noOverlap_snoc; [done|].
    intros a Ha Hsame. rewrite Hplaced in Ha. apply elem_of_cons in Ha as [->|Ha].
    + exfalso.
      eapply (center_apart settings centerLayerIndex layerIndex _ new);
        [|exact Hoff|exact Hcol|exact Hsame]. reflexivity.
    + destruct (Hrest a Ha) as [(i & Hi & _ & Ha')|(_ & _ & k & Hk & Hy)].
      * pose proof (columns_apart _ _ _ _ _ _ Ha' Hcol Hsame). lia.
      * eapply (rows_apart layerStartY _ _ k j); [done|reflexivity|lia].
Qed.

Lemma placeLayers_clear layers :
  forall layerIndex layerStartY st,
    (forall k layer, layers !! k = Some layer ->
       Z.of_nat (layerIndex + k) = centerLayerIndex ->
       forall n, n ∈ layer -> path (file n) = path activeFile) ->
    placedClear settings activeFile centerLayerIndex layerIndex layerStartY 0 st ->
    noOverlap (placed (placeLayers settings activeFile centerLayerIndex layerIndex
                         layers st)).
Proof using Type.
  induction layers as [|layer layers IH]; intros layerIndex layerStartY st Hcenter Hst.
  { by destruct Hst as [_ Hno]. }
  cbn [placeLayers]. cbv zeta.
  eapply (IH (S layerIndex) 0%Q).
  - intros k l Hl Hk. apply (Hcenter (S k) l Hl). by rewrite <- Hk, Nat.add_succ_r.
  - eapply placedClear_next. apply (placeLayer_clear _ _ layer).
    + intros Hc. apply (Hcenter 0 layer); [done|by rewrite Nat.add_0_r].
    + eapply placedClear_start; exact Hst.
Qed.
End PlaceClear.

Lemma createCanvasContent_clear settings activeFile app localeCompare now fuel canvasData :
  createCanvasContent settings activeFile app localeCompare now fuel = Ok canvasData ->
  noOverlap (canvas_nodes canvasData).
Proof.
  unfold createCanvasContent.
  intros (explored & Hexplored & Hbuild)%Res_bind_Ok. injection Hbuild as <-.
  cbn [canvas_nodes].
  set (layers := organizeNodesIntoLayers localeCompare activeFile (nodes explored)).
  apply (placeLayers_clear settings activeFile _ layers 0 0%Q).
  - intros k layer Hlayer Hk n Hn. simpl in Hk. symmetry in Hk.
    apply findIndex_Some in Hk as (layer' & Hlayer' & Hseed).
    assert (layer' = layer) as -> by congruence.
    apply existsb_exists in Hseed as (m & Hm & Heq).
    apply list_elem_of_In in Hm. apply String.eqb_eq in Heq.
    destruct (organizeNodesIntoLayers_seedAlone localeCompare activeFile
                (nodes explored) (explored_levels_positive _ _ _ _ _ Hexplored) layer)
      as [Hall|Hnone].
    + by eapply list_elem_of_lookup_2.
    + by apply Hall.
    + by destruct (Hnone m Hm).
  - split.
    + exists []. split; [done|]. by intros n ?%elem_of_nil.
    + intros [|i] [|j] a b Hij Ha Hb; simpl in Ha, Hb; try done.
Qed.

(** X20.  A canvas generated from scratch has no two nodes of one column
    that overlap vertically, by the test the expansion uses: nodes of one
    layer are [verticalSpacing] apart, and different layers, the centre
    included, are at least [horizontalSpacing] apart. *)
Theorem createCanvasContent_noOverlap
    settings activeFile app localeCompare now fuel canvasData :
  createCanvasContent settings activeFile app localeCompare now fuel = Ok canvasData ->
  noOverlap (canvas_nodes canvasData).
Proof. apply createCanvasContent_clear. Qed.

Lemma createCanvasContent_noOverlap_witness :
  match createCanvasContent TwoNotes.settings Cyclic.A Cyclic.app
          TwoNotes.localeCompare "t0" 2 with
  | Ok canvasData => noOverlap (canvas_nodes canvasData)
  | Err _ => False
  end.
Proof.
  destruct (createCanvasContent TwoNotes.settings Cyclic.A Cyclic.app
              TwoNotes.localeCompare "t0" 2) as [canvasData|err] eqn:Hrun.
  - exact (createCanvasContent_noOverlap TwoNotes.settings Cyclic.A
             Cyclic.app TwoNotes.localeCompare "t0" 2 canvasData Hrun).
  - vm_compute in Hrun. discriminate Hrun.
Defined.

(** X21.  Generation and expansion fit together: on a canvas generated from
    scratch, an expansion from any note in any direction puts no new node
    over a generated one. *)
Theorem expandCanvas_clear_of_generated
    settings activeFile app localeCompare now fuel canvasData
    entropy now' focusNote direction :
  createCanvasContent settings activeFile app localeCompare now fuel = Ok canvasData ->
  exists canvasData',
    expandCanvas app entropy now' (Json canvasData) focusNote direction
      = Ok (Json canvasData') /\
    forall i j a b,
      i <> j ->
      canvas_nodes canvasData' !! i = Some a ->
      canvas_nodes canvasData' !! j = Some b ->
      i < length (canvas_nodes canvasData) \/ j < length (canvas_nodes canvasData) ->
      sameColumn a b -> overlaps (node_y a) (node_y b) = false.
Proof.
  intros Hold%createCanvasContent_clear.
  destruct (expandCanvas_new_clear_of_old app entropy now' canvasData focusNote direction)
    as (canvasData' & addedNodes & Hrun & Hnodes & Hclear).
  exists canvasData'. split; [done|]. rewrite Hnodes.
  intros i j a b Hij Ha Hb Hone Hcol.
  destruct (decide (i < length (canvas_nodes canvasData))) as [Hi|Hi],
    (decide (j < length (canvas_nodes canvasData))) as [Hj|Hj].
  - rewrite lookup_app_l in Ha, Hb by done. by eapply Hold.
  - rewrite lookup_app_l in Ha by done. rewrite lookup_app_r in Hb by lia.
    rewrite overlaps_sym. apply Hclear; [|by eapply list_elem_of_lookup_2|done].
    by eapply list_elem_of_lookup_2.
  - rewrite lookup_app_r in Ha by lia. rewrite lookup_app_l in Hb by done.
    apply Hclear; [by eapply list_elem_of_lookup_2|by eapply list_elem_of_lookup_2|].
    by apply sameColumn_sym.
  - lia.
Qed.

Lemma expandCanvas_clear_of_generated_witness :
  match createCanvasContent TwoNotes.settings Crowded.A Crowded.app
          TwoNotes.localeCompare "t0" 2 with
  | Ok canvasData =>
      exists canvasData',
        expandCanvas Crowded.app Crowded.entropy "t1" (Json canvasData) Crowded.C Right
          = Ok (Json canvasData') /\
        forall i j a b,
          i <> j ->
          canvas_nodes canvasData' !! i = Some a ->
          canvas_nodes canvasData' !! j = Some b ->
          i < length (canvas_nodes canvasData) \/ j < length (canvas_nodes canvasData) ->
          sameColumn a b -> overlaps (node_y a) (node_y b) = false
  | Err _ => False
  end.
Proof.
  destruct (createCanvasContent TwoNotes.settings Crowded.A Crowded.app
              TwoNotes.localeCompare "t0" 2) as [canvasData|err] eqn:Hrun.
  - exact (expandCanvas_clear_of_generated TwoNotes.settings Crowded.A Crowded.app
             TwoNotes.localeCompare "t0" 2 canvasData Crowded.entropy "t1"
             Crowded.C Right Hrun).
  - vm_compute in Hrun. discriminate Hrun.
Defined.

(** ** The one-direction explorer *)

Lemma walkGrows_refl st : walkGrows st st.
Proof. by split. Qed.

Lemma walkGrows_trans st1 st2 st3 :
  walkGrows st1 st2 -> walkGrows st2 st3 -> walkGrows st1 st3.
Proof. intros [? ?] [? ?]. split; by etrans. Qed.

Lemma walkGrows_list_node f lvl back st : walkGrows st (list_node f lvl back st).
Proof. split; simpl; [set_solver|by apply prefix_app_r]. Qed.

Lemma exploreLinks_grows app fuel :
  forall file maxDepth currentDepth st back st',
    exploreLinks app fuel file maxDepth currentDepth st back = Ok st' ->
    walkGrows st st'.
Proof.
  induction fuel as [|fuel IH]; intros f maxDepth c st back st'; simpl; [done|].
  case_bool_decide; [intros [= <-]; apply walkGrows_refl|].
  intros Hrun.
  eapply (for_of_preserves (walkGrows st)) in Hrun; [done| |apply walkGrows_refl].
  intros l s s' _ Hs. case_bool_decide; [by intros [= <-]|].
  intros Hrec%IH. eapply walkGrows_trans; [exact Hs|].
  eapply walkGrows_trans; [apply walkGrows_list_node|exact Hrec].
Qed.

(** The walk returns: its recursion depth is bounded by [maxDepth]. *)
Lemma exploreLinks_total app fuel :
  forall file maxDepth currentDepth st back,
    0 < fuel -> maxDepth + 1 < fuel + currentDepth ->
    exists st', exploreLinks app fuel file maxDepth currentDepth st back = Ok st'.
Proof.
  induction fuel as [|fuel IH]; intros f maxDepth c st back Hpos Hfuel; simpl; [lia|].
  case_bool_decide; [eauto|].
  match goal with |- context [for_of ?links ?body st] =>
    destruct (for_of_total (fun _ => True) body links) with (s := st)
      as (st' & -> & _); [|done|eauto] end.
  intros l s _ _. case_bool_decide; [eauto|].
  destruct (IH l maxDepth (S c) (list_node l c back s) back) as [s' Hs']; [lia|lia|].
  eauto.
Qed.

(** An invariant [I] that may lean on what is known of the file being
    expanded ([K file currentDepth], kept while the walk grows) holds after
    the walk when listing a new file keeps it. *)
Section LinksContext.
Variable app : App.
Variable maxDepth : nat.
Variable back : bool.
Variable I : LinkWalk -> Prop.
Variable K : TFile -> nat -> LinkWalk -> Prop.
Hypothesis K_mono : forall f c st st', K f c st -> walkGrows st st' -> K f c st'.
Hypothesis list_new :
  forall f c l st,
    K f c st -> I st ->
    l ∈ (if back then getBacklinks app f else getForwardLinks app f) ->
    path l ∉ seen st -> c <= maxDepth ->
    I (list_node l c back st) /\ K l (S c) (list_node l c back st).

Lemma exploreLinks_invariant fuel :
  forall f c st st',
    K f c st -> I st ->
    exploreLinks app fuel f maxDepth c st back = Ok st' -> I st'.
Proof using Type*.
  induction fuel as [|fuel IH]; intros f c st st' HK HI; simpl; [done|].
  case_bool_decide as Hdepth; [by intros [= <-]|].
  intros Hrun. assert (c <= maxDepth) as Hc by lia.
  enough (I st' /\ K f c st') by tauto.
  eapply (for_of_preserves (fun s => I s /\ K f c s)) in Hrun; [exact Hrun| |done].
  intros l s s' Hl [Hs HKs]. case_bool_decide as Hseen; [by intros [= <-]|].
  intros Hrec. destruct (list_new f c l s) as [HI2 HK2]; try done.
  split; [by eapply IH|].
  eapply K_mono; [exact HKs|].
  eapply walkGrows_trans; [apply walkGrows_list_node|by eapply exploreLinks_grows].
Qed.
End LinksContext.

Lemma exploreLinks_wellListed app fuel file maxDepth currentDepth st back st' :
  NoDup (documents (listed st)) ->
  (forall p, p ∈ documents (listed st) -> p ∈ seen st) ->
  exploreLinks app fuel file maxDepth currentDepth st back = Ok st' ->
  NoDup (documents (listed st')) /\
  forall p, p ∈ documents (listed st') -> p ∈ seen st'.
Proof.
  intros Hnd Hseen.
  apply (exploreLinks_invariant app maxDepth back
           (fun s => NoDup (documents (listed s)) /\
                     forall p, p ∈ documents (listed s) -> p ∈ seen s)
           (fun _ _ _ => True)); try done.
  intros f c l s _ [Hnd' Hseen'] _ Hnew _. split; [|done].
  unfold documents. simpl. rewrite fmap_app. simpl. split.
  - apply NoDup_app. split; [done|]. split; [|apply NoDup_singleton].
    intros p Hp ->%list_elem_of_singleton. by apply Hnew, Hseen'.
  - intros p [Hp| ->%list_elem_of_singleton]%elem_of_app; [|set_solver].
    apply elem_of_union_r. by apply Hseen'.
Qed.

Lemma elem_of_drop_prefix {A : Type} (l l' : list A) k x :
  l `prefix_of` l' -> x ∈ drop k l -> x ∈ drop k l'.
Proof.
  intros [rest ->] [i Hi]%list_elem_of_lookup. rewrite lookup_drop in Hi.
  apply list_elem_of_lookup. exists i. rewrite lookup_drop.
  by apply lookup_app_l_Some.
Qed.

Lemma elem_of_drop_snoc {A : Type} (l : list A) k x y :
  k <= length l -> x ∈ drop k (l ++ [y]) -> x ∈ drop k l \/ x = y.
Proof.
  intros Hk. rewrite drop_app_le by done.
  intros [?| ->%list_elem_of_singleton]%elem_of_app; auto.
Qed.

(** One pass lists nodes of its own direction only, each discovered from
    the seed or from a node of the same pass. *)
Lemma exploreLinks_passInOrder app fuel centerFile maxDepth st back st' :
  let seed := {| file := centerFile; level := 0; isBacklink := false |} in
  exploreLinks app fuel centerFile maxDepth 1 st back = Ok st' ->
  passInOrder app seed maxDepth (length (listed st)) back st'.
Proof.
  intros seed.
  set (base := length (listed st)).
  apply (exploreLinks_invariant app maxDepth back
           (fun s => base <= length (listed s) /\
                     passInOrder app seed maxDepth base back s)
           (fun f c s =>
              exists parent,
                (parent = seed \/ parent ∈ drop base (listed s)) /\
                file parent = f /\ S (level parent) = c)).
  - intros f c s s' (parent & Hparent & Hf & Hc) [_ Hpre].
    exists parent. split; [|done].
    destruct Hparent as [?|Hin]; [by left|right]. by eapply elem_of_drop_prefix.
  - intros f c l s (parent & Hparent & <- & <-) [Hbase Hpass] Hl Hnew Hdepth.
    set (new := {| file := l; level := S (level parent); isBacklink := back |}).
    assert (forall m, m ∈ drop base (listed s) ->
              m ∈ drop base (listed (list_node l (S (level parent)) back s)))
      as Hkeep.
    { intros m Hm. eapply elem_of_drop_prefix; [|exact Hm]. by apply prefix_app_r. }
    assert (new ∈ drop base (listed (list_node l (S (level parent)) back s)))
      as Hnew_in.
    { simpl. rewrite drop_app_le by done. apply elem_of_app. right. left. }
    split; [split|].
    + simpl. rewrite length_app. lia.
    + intros n Hn. simpl in Hn. apply elem_of_drop_snoc in Hn; [|done].
      destruct Hn as [Hn| ->].
      * destruct (Hpass n Hn) as (Hflag & Hlevel & p' & Hp' & Hdisc).
        do 2 (split; [done|]). exists p'. split; [|done].
        destruct Hp' as [?|?]; [by left|right; by apply Hkeep].
      * split; [done|]. split; [simpl; lia|]. exists parent. split.
        { destruct Hparent as [?|?]; [by left|right; by apply Hkeep]. }
        split; [done|]. simpl. by destruct back.
    + exists new. split; [by right|done].
  - exists seed. split; [by left|done].
  - split; [done|]. intros n Hn. unfold base in Hn. rewrite drop_all in Hn.
    by apply elem_of_nil in Hn.
Qed.

(** X22.  The one-direction explorer returns on every link index, cyclic or
    not, once the fuel exceeds the depth, and lists no document twice. *)
Theorem getAllNodesWithDepth_terminates_without_duplicates
    app fuel centerFile depth :
  depth < fuel ->
  exists allNodes,
    getAllNodesWithDepth app fuel centerFile depth = Ok allNodes /\
    NoDup (documents allNodes).
Proof.
  intros Hfuel. unfold getAllNodesWithDepth.
  set (st0 := {| seen := {[ path centerFile ]};
                 listed := [{| file := centerFile; level := 0; isBacklink := false |}] |}).
  destruct (exploreLinks_total app fuel centerFile depth 1 st0 true)
    as [st1 Hst1]; [lia|lia|].
  destruct (exploreLinks_total app fuel centerFile depth 1 st1 false)
    as [st2 Hst2]; [lia|lia|].
  rewrite Hst1. cbn [mbind Res_bind]. rewrite Hst2. cbn [mbind Res_bind].
  exists (listed st2). split; [done|].
  apply exploreLinks_wellListed in Hst1 as [Hnd1 Hseen1].
  - by apply exploreLinks_wellListed in Hst2 as [Hnd2 _].
  - apply NoDup_singleton.
  - intros p ->%list_elem_of_singleton. simpl. set_solver.
Qed.

Lemma getAllNodesWithDepth_terminates_without_duplicates_witness :
  exists allNodes,
    getAllNodesWithDepth Cyclic.app 3 Cyclic.A 2 = Ok allNodes /\
    NoDup (documents allNodes).
Proof.
  apply (getAllNodesWithDepth_terminates_without_duplicates Cyclic.app 3 Cyclic.A 2).
  lia.
Defined.

(** X23.  The one-direction explorer lists the seed, then the nodes of the
    backlink pass, then those of the forward pass; each node carries the
    flag of its pass and a level between 1 and the depth, and was
    discovered over a link of its own direction from the seed or from a
    node of the same pass. *)
Theorem getAllNodesWithDepth_passes app fuel centerFile depth allNodes :
  getAllNodesWithDepth app fuel centerFile depth = Ok allNodes ->
  let seed := {| file := centerFile; level := 0; isBacklink := false |} in
  exists backs forwards,
    allNodes = seed :: backs ++ forwards /\
    (forall n, n ∈ backs ->
       isBacklink n = true /\ 1 <= level n <= depth /\
       exists parent,
         (parent = seed \/ parent ∈ backs) /\ discoveredFrom app parent n) /\
    (forall n, n ∈ forwards ->
       isBacklink n = false /\ 1 <= level n <= depth /\
       exists parent,
         (parent = seed \/ parent ∈ forwards) /\ discoveredFrom app parent n).
Proof.
  unfold getAllNodesWithDepth.
  intros (st1 & Hst1 & (st2 & Hst2 & [= <-])%Res_bind_Ok)%Res_bind_Ok.
  pose proof (exploreLinks_grows _ _ _ _ _ _ _ _ Hst1) as [_ [backs Hbacks]].
  pose proof (exploreLinks_grows _ _ _ _ _ _ _ _ Hst2) as [_ [forwards Hforwards]].
  apply exploreLinks_passInOrder in Hst1. apply exploreLinks_passInOrder in Hst2.
  unfold passInOrder in Hst1, Hst2. simpl in Hbacks, Hst1.
  rewrite Hbacks in Hst1. simpl in Hst1. rewrite drop_0 in Hst1.
  rewrite Hforwards, drop_app_length in Hst2.
  exists backs, forwards. split; [by rewrite Hforwards, Hbacks|]. by split.
Qed.

Lemma getAllNodesWithDepth_passes_witness :
  match getAllNodesWithDepth Cyclic.app 3 Cyclic.A 2 with
  | Ok allNodes =>
      let seed := {| file := Cyclic.A; level := 0; isBacklink := false |} in
      exists backs forwards,
        allNodes = seed :: backs ++ forwards /\
        (forall n, n ∈ backs ->
           isBacklink n = true /\ 1 <= level n <= 2 /\
           exists parent,
             (parent = seed \/ parent ∈ backs) /\ discoveredFrom Cyclic.app parent n) /\
        (forall n, n ∈ forwards ->
           isBacklink n = false /\ 1 <= level n <= 2 /\
           exists parent,
             (parent = seed \/ parent ∈ forwards) /\
             discoveredFrom Cyclic.app parent n)
  | Err _ => False
  end.
Proof.
  destruct (getAllNodesWithDepth Cyclic.app 3 Cyclic.A 2) as [allNodes|err] eqn:Hrun.
  - exact (getAllNodesWithDepth_passes Cyclic.app 3 Cyclic.A 2 allNodes Hrun).
  - vm_compute in Hrun. discriminate Hrun.
Defined.

(** ** The explorer misses no link of an inner node *)

Lemma for_of_inv {A S : Type} (J : list A -> S -> Prop) (body : A -> S -> Res S) l :
  (forall seen a s s', a ∈ l -> J seen s -> body a s = Ok s' -> J (seen ++ [a]) s') ->
  forall seen s s', J seen s -> for_of l body s = Ok s' -> J (seen ++ l) s'.
Proof.
  induction l as [|a l IH]; simpl; intros Hbody seen s s' Hs Hrun.
  - injection Hrun as <-. by rewrite app_nil_r.
  - destruct (body a s) as [s1|] eqn:Hb; [|done].
    rewrite (cons_middle a seen l), app_assoc.
    eapply IH; [|eapply Hbody; [left|exact Hs|exact Hb]|exact Hrun].
    intros seen' a' t t' Ha'. apply Hbody. by right.
Qed.

Lemma elem_of_JsSet_add_l (x y : string) (s : JsSet.t) : y ∈ (s : list string) -> y ∈ JsSet.add x s.
Proof.
  unfold JsSet.add. destruct (JsSet.has x s); [done|]. intros Hy. apply elem_of_app. by left.
Qed.

Lemma elem_of_JsSet_add_new (x : string) (s : JsSet.t) : x ∈ JsSet.add x s.
Proof.
  unfold JsSet.add, JsSet.has. case_bool_decide; [done|]. apply elem_of_app. right. left.
Qed.

Lemma recorded_same st st' src tgt :
  connections st' = connections st -> recorded st src tgt -> recorded st' src tgt.
Proof. unfold recorded. by intros ->. Qed.

Lemma recorded_set_ne st st' k v src tgt :
  connections st' = JsMap.set k v (connections st) -> k <> src ->
  recorded st src tgt -> recorded st' src tgt.
Proof.
  unfold recorded. intros -> Hne (targets & Hget & Hin).
  exists targets. by rewrite JsMapFacts.get_set_ne.
Qed.

Lemma recorded_ensureKey k st src tgt :
  recorded st src tgt -> recorded (ensureKey k st) src tgt.
Proof.
  unfold ensureKey. destruct (JsMap.has k (connections st)) eqn:Hk; [done|].
  intros Hrec. eapply recorded_set_ne; [done| |exact Hrec].
  intros ->. destruct Hrec as (targets & Hget & _). unfold JsMap.has in Hk.
  by rewrite Hget in Hk.
Qed.

Lemma recorded_addConnection from to st st' src tgt :
  addConnection from to st = Ok st' ->
  recorded st src tgt -> recorded st' src tgt.
Proof.
  intros (targets & Hget & ->)%addConnection_Ok (targets' & Hget' & Hin).
  unfold recorded. simpl. destruct (decide (from = src)) as [->|Hne].
  - rewrite JsMapFacts.get_set_eq. eexists. split; [done|].
    assert (targets' = targets) as -> by congruence. by apply elem_of_JsSet_add_l.
  - exists targets'. by rewrite JsMapFacts.get_set_ne.
Qed.

Lemma recorded_addConnection_new from to st st' :
  addConnection from to st = Ok st' -> recorded st' from to.
Proof.
  intros (targets & Hget & ->)%addConnection_Ok. unfold recorded. simpl.
  rewrite JsMapFacts.get_set_eq. eexists. split; [done|apply elem_of_JsSet_add_new].
Qed.

Lemma keepsRecords_refl st : keepsRecords st st.
Proof. split; [apply grows_refl|done]. Qed.

Lemma keepsRecords_trans st1 st2 st3 :
  keepsRecords st1 st2 -> keepsRecords st2 st3 -> keepsRecords st1 st3.
Proof.
  intros [Hg1 Hr1] [Hg2 Hr2]. split; [by eapply grows_trans|].
  intros src tgt Hsrc Hrec. apply Hr2; [|by apply Hr1]. destruct Hg1 as [Hv _]. by apply Hv.
Qed.

Lemma keepsRecords_ensureKey k st : keepsRecords st (ensureKey k st).
Proof. split; [apply grows_ensureKey|]. intros src tgt _. apply recorded_ensureKey. Qed.

Lemma keepsRecords_addConnection from to st st' :
  addConnection from to st = Ok st' -> keepsRecords st st'.
Proof.
  intros Hadd. split; [by eapply grows_addConnection|].
  intros src tgt _. by eapply recorded_addConnection.
Qed.

Lemma keepsRecords_visit f lvl back st : keepsRecords st (visit f lvl back st).
Proof. split; [apply grows_visit|]. intros src tgt _. by apply recorded_same. Qed.

Lemma keepsRecords_resetKey k st : k ∉ visited st -> keepsRecords st (resetKey k st).
Proof.
  intros Hk. split; [by apply grows_same|].
  intros src tgt Hsrc. eapply recorded_set_ne; [done|]. by intros ->.
Qed.

Lemma exploreAllConnections_keepsRecords app fuel file maxDepth currentDepth st st' :
  exploreAllConnections app fuel file maxDepth currentDepth st = Ok st' ->
  keepsRecords st st'.
Proof.
  apply (exploreAllConnections_invariant app maxDepth
           (keepsRecords st) (fun _ _ _ => True)); try done.
  - intros f c s _ Hs. eapply keepsRecords_trans; [exact Hs|apply keepsRecords_ensureKey].
  - intros f c l s s1 _ Hs _ Hadd _.
    eapply keepsRecords_trans; [exact Hs|by eapply keepsRecords_addConnection].
  - intros f c l s s1 _ Hs _ Hadd Hnew _. split; [|done].
    eapply keepsRecords_trans; [exact Hs|].
    eapply keepsRecords_trans; [by eapply keepsRecords_addConnection|].
    change (resetKey (path l) (visit l c false s1))
      with (visit l c false (resetKey (path l) s1)).
    eapply keepsRecords_trans; [by apply keepsRecords_resetKey|].
    apply keepsRecords_visit.
  - intros f c l s s1 _ Hs _ Hadd _.
    eapply keepsRecords_trans; [exact Hs|].
    eapply keepsRecords_trans; [apply keepsRecords_ensureKey|].
    by eapply keepsRecords_addConnection.
  - intros f c l s s1 _ Hs _ Hadd Hnew _. split; [|done].
    eapply keepsRecords_trans; [exact Hs|].
    eapply keepsRecords_trans; [apply keepsRecords_ensureKey|].
    eapply keepsRecords_trans; [by eapply keepsRecords_addConnection|].
    apply keepsRecords_visit.
Qed.

Lemma documents_grows st st' p :
  grows st st' -> p ∈ documents (nodes st) -> p ∈ documents (nodes st').
Proof.
  intros [_ [k ->]]. unfold documents. rewrite fmap_app, elem_of_app. by left.
Qed.

Lemma visitedListed_same st st' :
  visited st' = visited st -> nodes st' = nodes st ->
  visitedListed st -> visitedListed st'.
Proof. unfold visitedListed. by intros -> ->. Qed.

Lemma visitedListed_visit f lvl back st :
  visitedListed st -> visitedListed (visit f lvl back st).
Proof.
  intros Hst p. unfold documents. simpl.
  rewrite fmap_app, elem_of_app, elem_of_union, elem_of_singleton, (Hst p).
  simpl. rewrite list_elem_of_singleton. unfold documents. tauto.
Qed.

Lemma exploreAllConnections_visitedListed app fuel file maxDepth currentDepth st st' :
  visitedListed st ->
  exploreAllConnections app fuel file maxDepth currentDepth st = Ok st' ->
  visitedListed st'.
Proof.
  apply (exploreAllConnections_preserves app visitedListed (fun _ _ => True)); try done.
  - intros k s Hs. unfold ensureKey. by destruct (JsMap.has k (connections s)).
  - by intros from to s s' _ Hs (targets & _ & ->)%addConnection_Ok.
  - intros f lvl back s _ Hs. by apply visitedListed_visit.
Qed.

Lemma linksListed_keeps app st st' f :
  visitedListed st -> path f ∈ visited st ->
  keepsRecords st st' -> linksListed app st f -> linksListed app st' f.
Proof.
  intros Hvl Hf [Hg Hrec] [Hfwd Hback]. split; intros l Hl.
  - destruct (Hfwd l Hl) as [Hin Hr]. split; [by eapply documents_grows|by apply Hrec].
  - destruct (Hback l Hl) as [Hin Hr]. split; [by eapply documents_grows|].
    apply Hrec; [by apply Hvl|done].
Qed.

Lemma elem_of_drop_middle {A : Type} (a b : list A) (x y : A) k :
  k <= length a -> y ∈ drop k (a ++ [x] ++ b) ->
  y ∈ drop k a \/ y = x \/ y ∈ b.
Proof.
  intros Hk. rewrite drop_app_le by done.
  rewrite !elem_of_app, list_elem_of_singleton. tauto.
Qed.

Lemma elem_of_drop_elem {A : Type} (l : list A) k x : x ∈ drop k l -> x ∈ l.
Proof.
  intros Hx. rewrite <- (take_drop k l). apply elem_of_app. by right.
Qed.

(** What the traversal owes for the file it expands and for the nodes it
    lists, on the way down from one newly listed file. *)
Lemma saturation_step app maxDepth fuel base l c back s1 s2 s' :
  (forall f c st st',
     visitedListed st -> path f ∈ visited st ->
     exploreAllConnections app fuel f maxDepth c st = Ok st' ->
     (c <= maxDepth -> linksListed app st' f) /\
     forall n, n ∈ drop (length (nodes st)) (nodes st') ->
       level n < maxDepth -> linksListed app st' (file n)) ->
  base <= length (nodes s1) -> visitedListed s1 ->
  (forall n, n ∈ drop base (nodes s1) ->
     level n < maxDepth -> linksListed app s1 (file n)) ->
  visited s2 = {[ path l ]} ∪ visited s1 ->
  nodes s2 = nodes s1 ++ [{| file := l; level := c; isBacklink := back |}] ->
  keepsRecords s1 s2 ->
  exploreAllConnections app fuel l maxDepth (S c) s2 = Ok s' ->
  keepsRecords s1 s' /\ visitedListed s' /\ path l ∈ documents (nodes s') /\
  forall n, n ∈ drop base (nodes s') ->
    level n < maxDepth -> linksListed app s' (file n).
Proof.
  intros IH Hbase Hvl Hnew Hvis2 Hnodes2 Hkeep2 Hrun.
  assert (visitedListed s2) as Hvl2.
  { intros p. rewrite Hvis2, Hnodes2. unfold documents.
    rewrite fmap_app, elem_of_app, elem_of_union, elem_of_singleton, (Hvl p).
    simpl. rewrite list_elem_of_singleton. unfold documents. tauto. }
  assert (path l ∈ visited s2) as Hl2 by (rewrite Hvis2; set_solver).
  pose proof (exploreAllConnections_keepsRecords _ _ _ _ _ _ _ Hrun) as Hkeep'.
  pose proof (exploreAllConnections_visitedListed _ _ _ _ _ _ _ Hvl2 Hrun) as Hvl'.
  destruct (IH l (S c) s2 s' Hvl2 Hl2 Hrun) as [Hself Hdeeper].
  assert (keepsRecords s1 s') as Hkeep by by eapply keepsRecords_trans.
  split; [done|]. split; [done|]. split.
  { apply (documents_grows s2); [by destruct Hkeep'|]. by apply Hvl2. }
  intros n Hn Hlevel. destruct Hkeep' as [[_ [k Hk]] _].
  rewrite Hk, Hnodes2, <- app_assoc in Hn.
  apply elem_of_drop_middle in Hn as [Hn|[->|Hn]]; [| | |done].
  - eapply (linksListed_keeps app s1); [done| |done|by apply Hnew].
    apply Hvl. apply list_elem_of_fmap. exists n. split; [done|].
    by eapply elem_of_drop_elem.
  - apply Hself. simpl in Hlevel. lia.
  - apply Hdeeper; [|done]. by rewrite Hk, drop_app_length.
Qed.

Lemma ensureKey_nodes k st : nodes (ensureKey k st) = nodes st.
Proof. unfold ensureKey. by destruct (JsMap.has _ _). Qed.

Lemma addConnection_nodes from to st st' :
  addConnection from to st = Ok st' -> nodes st' = nodes st.
Proof. by intros (targets & _ & ->)%addConnection_Ok. Qed.

Lemma exploreAllConnections_saturates app maxDepth fuel :
  forall f c st st',
    visitedListed st -> path f ∈ visited st ->
    exploreAllConnections app fuel f maxDepth c st = Ok st' ->
    (c <= maxDepth -> linksListed app st' f) /\
    forall n, n ∈ drop (length (nodes st)) (nodes st') ->
      level n < maxDepth -> linksListed app st' (file n).
Proof.
  induction fuel as [|fuel IH]; intros f c st st' Hvl Hf; simpl; [done|].
  case_bool_decide as Hdepth.
  { intros [= <-]. split; [lia|]. intros n. rewrite drop_all. by intros ?%elem_of_nil. }
  intros (st1 & Hfwd & Hback)%Res_bind_Ok.
  set (base := length (nodes st)).
  apply (for_of_inv (fun seen s =>
           keepsRecords st s /\ visitedListed s /\
           (forall l, l ∈ seen ->
              path l ∈ documents (nodes s) /\ recorded s (path f) (path l)) /\
           (forall n, n ∈ drop base (nodes s) ->
              level n < maxDepth -> linksListed app s (file n))))
    with (seen := []) in Hfwd.
  2:{ intros seen l s s2 Hl (Hk & Hvls & Hseen & Hnew) (s1 & Hadd & Hrest)%Res_bind_Ok.
      pose proof (keepsRecords_addConnection _ _ _ _ Hadd) as Hk1.
      pose proof (recorded_addConnection_new _ _ _ _ Hadd) as Hrec.
      pose proof (addConnection_visited _ _ _ _ Hadd) as Hv1.
      pose proof (addConnection_nodes _ _ _ _ Hadd) as Hn1.
      assert (visitedListed s1) as Hvl1 by by eapply visitedListed_same.
      assert (path f ∈ visited s1) as Hf1.
      { rewrite Hv1. destruct Hk as [[Hv _] _]. by apply Hv. }
      assert (base <= length (nodes s1)) as Hbase.
      { rewrite Hn1. destruct Hk as [[_ Hp] _]. by apply prefix_length. }
      assert (forall n, n ∈ drop base (nodes s1) ->
                level n < maxDepth -> linksListed app s1 (file n)) as Hnew1.
      { intros n Hn Hlevel. rewrite Hn1 in Hn.
        eapply (linksListed_keeps app s); [done| |done|by apply Hnew].
        apply Hvls. apply list_elem_of_fmap. exists n. split; [done|].
        by eapply elem_of_drop_elem. }
      assert (forall l0, l0 ∈ seen ->
                path l0 ∈ documents (nodes s1) /\ recorded s1 (path f) (path l0))
        as Hseen1.
      { intros l0 Hl0. destruct (Hseen l0 Hl0) as [Hin Hr]. rewrite Hn1.
        split; [done|]. destruct Hk1 as [_ Hkeep]. apply Hkeep; [|done].
        by rewrite <- Hv1. }
      case_bool_decide as Hvis.
      - injection Hrest as <-. split; [by eapply keepsRecords_trans|].
        split; [done|]. split; [|done].
        intros l0 [Hl0| ->%list_elem_of_singleton]%elem_of_app; [by apply Hseen1|].
        split; [by apply Hvl1|done].
      - assert (keepsRecords s1 (resetKey (path l) (visit l c false s1))) as Hk2.
        { change (resetKey (path l) (visit l c false s1))
            with (visit l c false (resetKey (path l) s1)).
          eapply keepsRecords_trans; [by apply keepsRecords_resetKey|].
          apply keepsRecords_visit. }
        destruct (saturation_step app maxDepth fuel base l c false s1
                    (resetKey (path l) (visit l c false s1)) s2
                    IH Hbase Hvl1 Hnew1 eq_refl eq_refl Hk2 Hrest)
          as (Hk' & Hvl' & Hl' & Hnew').
        split; [eapply keepsRecords_trans; [exact Hk|by eapply keepsRecords_trans]|].
        split; [done|]. split; [|done]. destruct Hk' as [Hg' Hkeep'].
        intros l0 [Hl0| ->%list_elem_of_singleton]%elem_of_app.
        + destruct (Hseen1 l0 Hl0) as [Hin Hr].
          split; [by eapply documents_grows|by apply Hkeep']. 
        + split; [done|by apply Hkeep']. }
  2:{ split; [apply keepsRecords_ensureKey|]. split.
      - eapply visitedListed_same; [apply ensureKey_visited|apply ensureKey_nodes|done].
      - split; [by intros l ?%elem_of_nil|].
        intros n. rewrite ensureKey_nodes. unfold base. rewrite drop_all.
        by intros ?%elem_of_nil. }
  rewrite app_nil_l in Hfwd. destruct Hfwd as (Hk1 & Hvl1 & Hfwd1 & Hnew1).
  assert (path f ∈ visited st1) as Hf1.
  { destruct Hk1 as [[Hv _] _]. by apply Hv. }
  apply (for_of_inv (fun seen s =>
           keepsRecords st1 s /\ visitedListed s /\
           (forall l, l ∈ seen ->
              path l ∈ documents (nodes s) /\ recorded s (path l) (path f)) /\
           (forall n, n ∈ drop base (nodes s) ->
              level n < maxDepth -> linksListed app s (file n))))
    with (seen := []) in Hback.
  2:{ intros seen l s s2 Hl (Hk & Hvls & Hseen & Hnew) (s1 & Hadd & Hrest)%Res_bind_Ok.
      assert (keepsRecords s s1) as Hks.
      { eapply keepsRecords_trans; [apply keepsRecords_ensureKey|].
        by eapply keepsRecords_addConnection. }
      pose proof (recorded_addConnection_new _ _ _ _ Hadd) as Hrec.
      pose proof (addConnection_visited _ _ _ _ Hadd) as Hv1.
      rewrite ensureKey_visited in Hv1.
      pose proof (addConnection_nodes _ _ _ _ Hadd) as Hn1.
      rewrite ensureKey_nodes in Hn1.
      assert (visitedListed s1) as Hvls1 by by eapply visitedListed_same.
      assert (base <= length (nodes s1)) as Hbase.
      { rewrite Hn1. destruct Hk1 as [[_ Hp1] _], Hk as [[_ Hp] _].
        etrans; [by apply prefix_length|by apply prefix_length]. }
      assert (forall n, n ∈ drop base (nodes s1) ->
                level n < maxDepth -> linksListed app s1 (file n)) as Hnews1.
      { intros n Hn Hlevel. rewrite Hn1 in Hn.
        eapply (linksListed_keeps app s); [done| |done|by apply Hnew].
        apply Hvls. apply list_elem_of_fmap. exists n. split; [done|].
        by eapply elem_of_drop_elem. }
      assert (forall l0, l0 ∈ seen ->
                path l0 ∈ documents (nodes s1) /\ recorded s1 (path l0) (path f))
        as Hseen1.
      { intros l0 Hl0. destruct (Hseen l0 Hl0) as [Hin Hr]. rewrite Hn1.
        split; [done|]. destruct Hks as [_ Hkeep]. apply Hkeep; [|done].
        by apply Hvls. }
      case_bool_decide as Hvis.
      - injection Hrest as <-. split; [by eapply keepsRecords_trans|].
        split; [done|]. split; [|done].
        intros l0 [Hl0| ->%list_elem_of_singleton]%elem_of_app; [by apply Hseen1|].
        split; [by apply Hvls1|done].
      - destruct (saturation_step app maxDepth fuel base l c true s1
                    (visit l c true s1) s2
                    IH Hbase Hvls1 Hnews1 eq_refl eq_refl
                    (keepsRecords_visit l c true s1) Hrest)
          as (Hk' & Hvl' & Hl' & Hnew').
        pose proof (exploreAllConnections_keepsRecords _ _ _ _ _ _ _ Hrest)
          as [_ Hkeep2].
        split; [eapply keepsRecords_trans; [exact Hk|by eapply keepsRecords_trans]|].
        split; [done|]. split; [|done]. destruct Hk' as [Hg' Hkeep'].
        intros l0 [Hl0| ->%list_elem_of_singleton]%elem_of_app.
        + destruct (Hseen1 l0 Hl0) as [Hin Hr].
          split; [by eapply documents_grows|]. apply Hkeep'; [by apply Hvls1|done].
        + split; [done|]. apply Hkeep2; [simpl; set_solver|].
          by apply (recorded_same s1). }
  2:{ split; [apply keepsRecords_refl|]. split; [done|].
      split; [by intros l ?%elem_of_nil|done]. }
  rewrite app_nil_l in Hback. destruct Hback as (Hk2 & Hvl2 & Hback2 & Hnew2).
  split; [|done]. intros _. split; [|done].
  intros l Hl. destruct (Hfwd1 l Hl) as [Hin Hr]. destruct Hk2 as [Hg2 Hkeep2].
  split; [by eapply documents_grows|by apply Hkeep2].
Qed.

Lemma getAllNodesAndConnections_saturated app fuel centerFile depth st n :
  getAllNodesAndConnections app fuel centerFile depth = Ok st ->
  n ∈ nodes st -> level n < depth -> linksListed app st (file n).
Proof.
  intros Hrun Hn Hlevel.
  destruct (explored_nodes_seed_first _ _ _ _ _ Hrun) as (rest & Hnodes & _).
  unfold getAllNodesAndConnections in Hrun.
  apply exploreAllConnections_saturates in Hrun as [Hseed Hrest].
  - rewrite Hnodes in Hn. apply elem_of_cons in Hn as [->|Hn].
    + apply Hseed. simpl in Hlevel. lia.
    + apply Hrest; [|done]. simpl. by rewrite Hnodes.
  - intros p. unfold documents. simpl. rewrite elem_of_singleton, list_elem_of_singleton.
    done.
  - simpl. set_solver.
Qed.

(** X24.  The explorer misses no link of an inner node: for every listed
    node whose level is below the depth (the seed, when the depth is at
    least 1), each forward link and each backlink of its file leads to a
    listed document and is in the ConnectionSet, from the linking document
    to the linked one. *)
Theorem explore_lists_links_of_inner_nodes app fuel centerFile depth st n :
  getAllNodesAndConnections app fuel centerFile depth = Ok st ->
  n ∈ nodes st -> level n < depth ->
  (forall l, l ∈ getForwardLinks app (file n) ->
     path l ∈ documents (nodes st) /\ recorded st (path (file n)) (path l)) /\
  (forall l, l ∈ getBacklinks app (file n) ->
     path l ∈ documents (nodes st) /\ recorded st (path l) (path (file n))).
Proof. apply getAllNodesAndConnections_saturated. Qed.

Lemma explore_lists_links_of_inner_nodes_witness :
  match getAllNodesAndConnections Cyclic.app 3 Cyclic.A 2 with
  | Ok st =>
      (forall l, l ∈ getForwardLinks Cyclic.app Cyclic.A ->
         path l ∈ documents (nodes st) /\ recorded st "A.md" (path l)) /\
      (forall l, l ∈ getBacklinks Cyclic.app Cyclic.A ->
         path l ∈ documents (nodes st) /\ recorded st (path l) "A.md")
  | Err _ => False
  end.
Proof.
  destruct (getAllNodesAndConnections Cyclic.app 3 Cyclic.A 2) as [st|err] eqn:Hrun.
  - apply (explore_lists_links_of_inner_nodes Cyclic.app 3 Cyclic.A 2 st
             {| file := Cyclic.A; level := 0; isBacklink := false |} Hrun).
    + destruct (explored_nodes_seed_first _ _ _ _ _ Hrun) as (rest & -> & _). left.
    + simpl. lia.
  - vm_compute in Hrun. discriminate Hrun.
Defined.

(** X25.  The build draws every link of an inner node: when a listed node
    is below the depth, each forward link of its file to another document
    is an edge of the canvas, from the node of the file to the node of the
    linked document. *)
Theorem createCanvasContent_draws_links_of_inner_nodes
    settings activeFile app localeCompare now fuel canvasData explored n l :
  createCanvasContent settings activeFile app localeCompare now fuel = Ok canvasData ->
  getAllNodesAndConnections app fuel activeFile (linkDepth settings) = Ok explored ->
  n ∈ nodes explored -> level n < linkDepth settings ->
  l ∈ getForwardLinks app (file n) -> path (file n) <> path l ->
  exists e n1 n2,
    e ∈ canvas_edges canvasData /\
    n1 ∈ canvas_nodes canvasData /\ n2 ∈ canvas_nodes canvasData /\
    node_file n1 = path (file n) /\ node_file n2 = path l /\
    fromNode e = node_id n1 /\ toNode e = node_id n2.
Proof.
  intros Hbuild Hexplored Hn Hlevel Hl Hne.
  destruct (getAllNodesAndConnections_saturated _ _ _ _ _ _ Hexplored Hn Hlevel)
    as [Hfwd _].
  destruct (Hfwd l Hl) as [_ (targets & Hget & Hin)].
  apply obj_get_elem_of in Hget.
  by eapply (createCanvasContent_draws_connection settings activeFile app
               localeCompare now fuel canvasData explored (path (file n)) targets).
Qed.

Lemma createCanvasContent_draws_links_of_inner_nodes_witness :
  match createCanvasContent TwoNotes.settings Cyclic.A Cyclic.app
          TwoNotes.localeCompare "t0" 2,
        getAllNodesAndConnections Cyclic.app 2 Cyclic.A 1 with
  | Ok canvasData, Ok explored =>
      exists e n1 n2,
        e ∈ canvas_edges canvasData /\
        n1 ∈ canvas_nodes canvasData /\ n2 ∈ canvas_nodes canvasData /\
        node_file n1 = "A.md" /\ node_file n2 = "B.md" /\
        fromNode e = node_id n1 /\ toNode e = node_id n2
  | _, _ => False
  end.
Proof.
  destruct (createCanvasContent TwoNotes.settings Cyclic.A Cyclic.app
              TwoNotes.localeCompare "t0" 2) as [canvasData|err] eqn:Hbuild;
    [|vm_compute in Hbuild; discriminate Hbuild].
  destruct (getAllNodesAndConnections Cyclic.app 2 Cyclic.A 1)
    as [explored|err] eqn:Hrun; [|vm_compute in Hrun; discriminate Hrun].
  apply (createCanvasContent_draws_links_of_inner_nodes TwoNotes.settings Cyclic.A
           Cyclic.app TwoNotes.localeCompare "t0" 2 canvasData explored
           {| file := Cyclic.A; level := 0; isBacklink := false |} Cyclic.B Hbuild Hrun).
  - destruct (explored_nodes_seed_first _ _ _ _ _ Hrun) as (rest & -> & _). left.
  - simpl. lia.
  - vm_compute. right. left.
  - discriminate.
Defined.

(** ** Backlinks to the left, forward links to the right *)

Section OrganizeSides.
Variable localeCompare : string -> string -> Z.
Variable centerFile : TFile.

Lemma foldl_addToLayer_sides (Pb Pf : GraphNode -> Prop) ns :
  forall b0 bt f0 ft,
    (forall m, m ∈ ns -> path (file m) <> path centerFile ->
       1 <= level m /\ if isBacklink m then Pb m else Pf m) ->
    Forall (Forall Pb) bt -> Forall (Forall Pf) ft ->
    exists bt' ft',
      foldl (addToLayer centerFile) (b0 :: bt, f0 :: ft) ns = (b0 :: bt', f0 :: ft') /\
      Forall (Forall Pb) bt' /\ Forall (Forall Pf) ft'.
Proof using Type.
  induction ns as [|m ns IH]; intros b0 bt f0 ft Hns Hbt Hft; simpl.
  { by exists bt, ft. }
  assert (forall n, n ∈ ns -> path (file n) <> path centerFile ->
            1 <= level n /\ if isBacklink n then Pb n else Pf n) as Hrest
    by (intros n Hn; apply Hns; by right).
  destruct (String.eqb_spec (path (file m)) (path centerFile)) as [Heq|Hne];
    [by apply IH|].
  destruct (Hns m) as [Hlevel Hflag]; [left|done|].
  destruct (level m) as [|k] eqn:Hk; [lia|].
  destruct (isBacklink m); case_bool_decide; try by apply IH.
  - cbn [alter list_alter]. apply IH; [done| |done].
    apply Forall_alter; [done|]. intros layer _ Hlayer.
    apply Forall_app. split; [done|by apply Forall_singleton].
  - cbn [alter list_alter]. apply IH; [done|done|].
    apply Forall_alter; [done|]. intros layer _ Hlayer.
    apply Forall_app. split; [done|by apply Forall_singleton].
Qed.

Lemma sorted_layers_Forall (P : GraphNode -> Prop) (layers : list Layer) :
  Forall (Forall P) layers ->
  Forall (Forall P) (js_sort (byBasename localeCompare) <$> layers).
Proof using Type.
  intros H. apply Forall_fmap. eapply Forall_impl; [exact H|].
  intros layer Hlayer. simpl. by rewrite js_sort_perm.
Qed.

Lemma nonempty_layers_Forall (P : GraphNode -> Prop) (layers : list Layer) :
  Forall (Forall P) layers ->
  Forall (Forall P) (filter (fun l : Layer => 0 < length l) layers).
Proof using Type.
  rewrite !Forall_forall. intros H layer [_ Hin]%list_elem_of_filter. by apply H.
Qed.

(** The returned layers: the non-empty backlink layers from the deepest
    level up, the centre file twice, the non-empty forward layers. *)
Lemma organizeNodesIntoLayers_sides allNodes :
  (forall n, n ∈ allNodes -> path (file n) <> path centerFile -> 1 <= level n) ->
  let center := {| file := centerFile; level := 0; isBacklink := false |} in
  exists backLayers forwardLayers,
    organizeNodesIntoLayers localeCompare centerFile allNodes
      = backLayers ++ [center] :: [center] :: forwardLayers /\
    Forall (Forall (fun m => m ∈ allNodes /\ isBacklink m = true /\
                             path (file m) <> path centerFile)) backLayers /\
    Forall (Forall (fun m => m ∈ allNodes /\ isBacklink m = false /\
                             path (file m) <> path centerFile)) forwardLayers.
Proof using Type.
  intros Hlevel center. unfold organizeNodesIntoLayers. fold center.
  cbn [replicate alter list_alter app].
  set (Pb := fun m => m ∈ allNodes /\ isBacklink m = true /\
                      path (file m) <> path centerFile).
  set (Pf := fun m => m ∈ allNodes /\ isBacklink m = false /\
                      path (file m) <> path centerFile).
  match goal with |- context [foldl _ (_ :: ?bt, _ :: ?ft) allNodes] =>
    destruct (foldl_addToLayer_sides Pb Pf allNodes [center] bt [center] ft)
      as (bt' & ft' & Hfold & Hbt & Hft) end.
  - intros m Hm Hne. split; [by apply Hlevel|]. unfold Pb, Pf.
    by destruct (isBacklink m).
  - apply Forall_replicate. constructor.
  - apply Forall_replicate. constructor.
  - exists (filter (fun l : Layer => 0 < length l)
              (reverse (js_sort (byBasename localeCompare) <$> bt'))),
      (filter (fun l : Layer => 0 < length l)
         (js_sort (byBasename localeCompare) <$> ft')).
    match goal with |- context [foldl ?g ?init allNodes] =>
      assert (foldl g init allNodes = ([center] :: bt', [center] :: ft')) as ->
        by exact Hfold end.
    cbn [fmap list_fmap js_sort sort_insert].
    rewrite reverse_cons, filter_app.
    rewrite (filter_cons_True _ [center]) by (simpl; lia).
    rewrite filter_nil, (filter_cons_True _ [center]) by (simpl; lia).
    split; [by rewrite <- app_assoc|]. split.
    + apply nonempty_layers_Forall, Forall_reverse. by apply sorted_layers_Forall.
    + by apply nonempty_layers_Forall, sorted_layers_Forall.
Qed.
End OrganizeSides.

Lemma findIndex_app {A : Type} (p : A -> bool) (l1 l2 : list A) x :
  Forall (fun a => p a = false) l1 -> p x = true ->
  findIndex p (l1 ++ x :: l2) = Z.of_nat (length l1).
Proof.
  intros Hl1 Hx. induction Hl1 as [|a l1 Ha _ IH]; simpl; [by rewrite Hx|].
  rewrite Ha, IH. destruct (Z.ltb_spec (Z.of_nat (length l1)) 0); lia.
Qed.

Section PlaceFrom.
Variable settings : CanvasAutoGenSettings.
Variable activeFile : TFile.
Variable centerLayerIndex : Z.
Variable layers : list Layer.

Lemma placedFrom_later upto upto' st :
  upto <= upto' ->
  placedFrom settings centerLayerIndex layers upto st ->
  placedFrom settings centerLayerIndex layers upto' st.
Proof.
  intros Hle Hst m Hm. destruct (Hst m Hm) as (i & layer & nodeInfo & Hi & Hrest).
  exists i, layer, nodeInfo. split; [lia|done].
Qed.

Lemma placeLayer_placedFrom layerIndex layer layerStartY :
  layers !! layerIndex = Some layer ->
  forall todo j st,
    (forall x, x ∈ todo -> x ∈ layer) ->
    1 <= length (placed st) ->
    placedFrom settings centerLayerIndex layers (S layerIndex) st ->
    1 <= length (placed (placeLayer activeFile
                           (layerXOf settings centerLayerIndex layerIndex)
                           layerStartY j todo st)) /\
    placedFrom settings centerLayerIndex layers (S layerIndex)
      (placeLayer activeFile (layerXOf settings centerLayerIndex layerIndex)
         layerStartY j todo st).
Proof using Type.
  intros Hlayer. induction todo as [|a todo IH]; intros j st Htodo Hlen Hst; [done|].
  cbn [placeLayer]. apply IH; [intros x Hx; apply Htodo; by right| |].
  - destruct (negb _); [|done]. cbn [placed]. rewrite length_app. lia.
  - destruct (negb _); [|done]. intros m Hm. cbn [placed] in Hm.
    rewrite drop_app_le in Hm by done.
    apply elem_of_app in Hm as [Hm| ->%list_elem_of_singleton]; [by apply Hst|].
    exists layerIndex, layer, a. split; [lia|]. split; [done|].
    split; [apply Htodo; left|]. split; [done|]. by apply layerXOf_inColumn.
Qed.

Lemma placeLayers_placedFrom rest :
  forall layerIndex st,
    (forall k layer, rest !! k = Some layer ->
       layers !! (layerIndex + k) = Some layer) ->
    1 <= length (placed st) ->
    placedFrom settings centerLayerIndex layers layerIndex st ->
    placedFrom settings centerLayerIndex layers (layerIndex + length rest)
      (placeLayers settings activeFile centerLayerIndex layerIndex rest st).
Proof using Type.
  induction rest as [|layer rest IH]; intros layerIndex st Hrest Hlen Hst.
  { simpl. by rewrite Nat.add_0_r. }
  cbn [placeLayers length]. cbv zeta.
  replace (layerIndex + S (length rest)) with (S layerIndex + length rest) by lia.
  assert (layers !! layerIndex = Some layer) as Hlayer
    by (rewrite <- (Nat.add_0_r layerIndex); by apply Hrest).
  match goal with |- context [placeLayer _ _ ?y 0 layer st] =>
    destruct (placeLayer_placedFrom layerIndex layer y Hlayer layer 0 st)
      as [Hlen' Hst']; [done|done|apply (placedFrom_later layerIndex); [lia|done]|] end.
  apply IH; [|done|done].
  intros k l Hl. rewrite Nat.add_succ_l, <- Nat.add_succ_r. by apply Hrest.
Qed.
End PlaceFrom.

Lemma NoDup_fmap_elem {A B : Type} (f : A -> B) (l : list A) x y :
  NoDup (f <$> l) -> x ∈ l -> y ∈ l -> f x = f y -> x = y.
Proof.
  intros Hnd [i Hi]%list_elem_of_lookup [j Hj]%list_elem_of_lookup Heq.
  assert (i = j) as ->.
  { apply (NoDup_lookup _ i j (f x) Hnd); rewrite list_lookup_fmap.
    - by rewrite Hi.
    - by rewrite Hj, Heq. }
  congruence.
Qed.

Lemma createCanvasContent_sides
    settings activeFile app localeCompare now fuel canvasData explored n :
  createCanvasContent settings activeFile app localeCompare now fuel = Ok canvasData ->
  getAllNodesAndConnections app fuel activeFile (linkDepth settings) = Ok explored ->
  n ∈ nodes explored -> path (file n) <> path activeFile ->
  exists m,
    m ∈ canvas_nodes canvasData /\ node_file m = path (file n) /\
    if isBacklink n
    then (node_x m <= canvasWidth settings / 2 - horizontalSpacing)%Q
    else (canvasWidth settings / 2 + 2 * horizontalSpacing <= node_x m)%Q.
Proof.
  intros Hbuild Hexplored Hn Hne.
  pose proof (explored_levels_positive _ _ _ _ _ Hexplored) as Hlevel.
  pose proof (getAllNodesAndConnections_wellVisited _ _ _ _ _ Hexplored) as [Hnd _].
  unfold createCanvasContent in Hbuild. rewrite Hexplored in Hbuild.
  cbn [mbind Res_bind] in Hbuild. injection Hbuild as <-. cbn [canvas_nodes].
  destruct (organizeNodesIntoLayers_sides localeCompare activeFile (nodes explored) Hlevel)
    as (Lb & Lf & Hlayers & HLb & HLf).
  set (layers := organizeNodesIntoLayers localeCompare activeFile (nodes explored)) in *.
  set (center := {| file := activeFile; level := 0; isBacklink := false |}) in *.
  match goal with |- context [placeLayers _ _ ?c0 0 layers ?s0] =>
    set (c := c0); set (st0 := s0) end.
  assert (c = Z.of_nat (length Lb)) as Hc.
  { unfold c. rewrite Hlayers. apply findIndex_app.
    - eapply Forall_impl; [exact HLb|]. intros layer Hlayer. simpl.
      apply not_true_is_false. intros (x & Hx & Heq)%existsb_exists.
      apply list_elem_of_In in Hx. apply String.eqb_eq in Heq.
      rewrite Forall_forall in Hlayer. by destruct (Hlayer x Hx) as (_ & _ & ?).
    - simpl. by rewrite String.eqb_refl. }
  pose proof (placeLayers_placedFrom settings activeFile c layers layers 0 st0)
    as Hfrom.
  pose proof (placeLayers_files settings activeFile c layers 0 st0) as Hfiles.
  set (st := placeLayers settings activeFile c 0 layers st0) in *.
  specialize (Hfrom ltac:(done) ltac:(simpl; lia)
                ltac:(by intros m ?%elem_of_nil)).
  assert (path (file n) ∈ node_file <$> placed st) as Hplaced.
  { rewrite Hfiles. apply elem_of_app. right.
    apply list_elem_of_fmap. exists n. split; [done|].
    apply list_elem_of_filter. split; [done|].
    unfold layers. rewrite organizeNodesIntoLayers_concat.
    do 2 right. apply list_elem_of_filter. by split. }
  apply list_elem_of_fmap in Hplaced as (m & Hfile & Hm).
  exists m. split; [done|]. split; [done|].
  destruct (placed st) as [|first others] eqn:Hst; [by apply elem_of_nil in Hm|].
  simpl in Hfiles. injection Hfiles as Hfirst _.
  apply elem_of_cons in Hm as [->|Hm]; [congruence|].
  destruct (Hfrom m) as (i & layer & nodeInfo & _ & Hlayer & Hinfo & Hfile' & Hcol);
    [by rewrite Hst|].
  unfold inColumn in Hcol. rewrite Hc in Hcol. rewrite Hlayers in Hlayer.
  assert (forall side (L : list Layer),
            Forall (Forall (fun x => x ∈ nodes explored /\ isBacklink x = side /\
                                     path (file x) <> path activeFile)) L ->
            layer ∈ L -> isBacklink n = side) as Hside.
  { intros side L HL Hin. rewrite Forall_forall in HL. specialize (HL layer Hin).
    rewrite Forall_forall in HL. destruct (HL nodeInfo Hinfo) as (Hall & Hflag & _).
    assert (nodeInfo = n) as <-; [|done].
    apply (NoDup_fmap_elem (fun x => path (file x)) (nodes explored)); try done.
    congruence. }
  unfold Layer in *.
  destruct (decide (i < length Lb)) as [Hi|Hi].
  - rewrite lookup_app_l in Hlayer by done.
    rewrite (Hside true Lb HLb) by by eapply list_elem_of_lookup_2.
    assert (Z.of_nat i - Z.of_nat (length Lb) < 0)%Z as Hlt%inject_Z_step by lia.
    change (inject_Z 0) with 0%Q in Hlt. clear -Hcol Hlt. revert Hcol Hlt.
    generalize (inject_Z (Z.of_nat i - Z.of_nat (length Lb))). intros q Hcol Hlt.
    q_arith.
  - rewrite lookup_app_r in Hlayer by lia.
    destruct (i - length Lb) as [|[|k]] eqn:Hk; simpl in Hlayer.
    + injection Hlayer as <-. apply list_elem_of_singleton in Hinfo as ->.
      simpl in Hfile'. congruence.
    + injection Hlayer as <-. apply list_elem_of_singleton in Hinfo as ->.
      simpl in Hfile'. congruence.
    + rewrite (Hside false Lf HLf) by by eapply list_elem_of_lookup_2.
      assert (1 < Z.of_nat i - Z.of_nat (length Lb))%Z as Hlt%inject_Z_step by lia.
      change (inject_Z 1) with 1%Q in Hlt. clear -Hcol Hlt. revert Hcol Hlt.
      generalize (inject_Z (Z.of_nat i - Z.of_nat (length Lb))). intros q Hcol Hlt.
      q_arith.
Qed.

(** X26.  Backlinks to the left, forward links to the right: the build
    puts every listed node found over a backlink at least one
    [horizontalSpacing] left of the centre, and every listed node found
    over a forward link at least two [horizontalSpacing] right of it (the
    layer list holds the centre layer twice, which costs the right side one
    column). *)
Theorem createCanvasContent_backlinks_left_forward_right
    settings activeFile app localeCompare now fuel canvasData explored n :
  createCanvasContent settings activeFile app localeCompare now fuel = Ok canvasData ->
  getAllNodesAndConnections app fuel activeFile (linkDepth settings) = Ok explored ->
  n ∈ nodes explored -> path (file n) <> path activeFile ->
  exists m,
    m ∈ canvas_nodes canvasData /\ node_file m = path (file n) /\
    if isBacklink n
    then (node_x m <= canvasWidth settings / 2 - horizontalSpacing)%Q
    else (canvasWidth settings / 2 + 2 * horizontalSpacing <= node_x m)%Q.
Proof. apply createCanvasContent_sides. Qed.

Lemma createCanvasContent_backlinks_left_forward_right_witness :
  match createCanvasContent TwoNotes.settings Cyclic.A Cyclic.app
          TwoNotes.localeCompare "t0" 2 with
  | Ok canvasData =>
      exists m,
        m ∈ canvas_nodes canvasData /\ node_file m = "B.md" /\
        (canvasWidth TwoNotes.settings / 2 + 2 * horizontalSpacing <= node_x m)%Q
  | Err _ => False
  end.
Proof.
  destruct (createCanvasContent TwoNotes.settings Cyclic.A Cyclic.app
              TwoNotes.localeCompare "t0" 2) as [canvasData|err] eqn:Hbuild;
    [|vm_compute in Hbuild; discriminate Hbuild].
  destruct (getAllNodesAndConnections Cyclic.app 2 Cyclic.A
              (linkDepth TwoNotes.settings)) as [explored|err] eqn:Hexplored;
    [|vm_compute in Hexplored; discriminate Hexplored].
  apply (createCanvasContent_backlinks_left_forward_right TwoNotes.settings Cyclic.A
           Cyclic.app TwoNotes.localeCompare "t0" 2 canvasData explored
           {| file := Cyclic.B; level := 1; isBacklink := false |} Hbuild Hexplored).
  - vm_compute in Hexplored. injection Hexplored as <-. right. left.
  - discriminate.
Defined.
